(** * A shallow embedding of the deBridge data-provider plugin

    The development follows the TypeScript sources of the plugin:
    - [utils/cache.ts]   : [TTLCache], [RequestDeduplicator], [CircuitBreaker]
    - [utils/http.ts]    : [HttpUtils.fetchWithRetry]
    - [utils/decimal.ts] : [DecimalUtils]
    - [service.ts]       : [DataProviderService]

    Mutable objects are modelled by explicit state passing.  Everything the
    code obtains from its environment (the clock behind [Date.now()], the
    network behind [fetch], [Math.random()]) is read from a world value, so
    that a run of the model is a function of the world it starts in.
    Exceptions are values of [Result]; [try]/[catch] is [try_catch]. *)

From Stdlib Require Import ZArith QArith Qround Qabs Qreduction Qminmax Qpower.
From Stdlib Require Import List String Ascii Bool Lia Lqa.
From Stdlib Require Import DecimalString DecimalPos SpecFloat.
Import ListNotations.

Open Scope Z_scope.

(* ================================================================== *)
(** * Part I: the embedding                                            *)
(* ================================================================== *)

(** ** Exceptions and the state-and-exception monad *)

(** A JavaScript [Error]; only its message is observable here. *)
Inductive Error : Type :=
| Err (message : string).

Definition message (e : Error) : string :=
  match e with Err m => m end.

(** The outcome of evaluating an expression that may throw. *)
Inductive Result (A : Type) : Type :=
| Ok (value : A)
| Throw (error : Error).
Arguments Ok {A} value.
Arguments Throw {A} error.

Definition is_ok {A} (r : Result A) : bool :=
  match r with Ok _ => true | Throw _ => false end.

(** A computation over a state [St]: mutations performed before a throw
    persist, as they do in JavaScript. *)
Definition M (St A : Type) : Type := St -> Result A * St.

Definition ret {St A} (a : A) : M St A := fun s => (Ok a, s).

Definition throw {St A} (e : Error) : M St A := fun s => (Throw e, s).

Definition bind {St A B} (m : M St A) (k : A -> M St B) : M St B :=
  fun s =>
    match m s with
    | (Ok a, s') => k a s'
    | (Throw e, s') => (Throw e, s')
    end.

Definition try_catch {St A} (body : M St A) (handler : Error -> M St A) : M St A :=
  fun s =>
    match body s with
    | (Ok a, s') => (Ok a, s')
    | (Throw e, s') => handler e s'
    end.

(** Lifts an operation that cannot throw. *)
Definition lift {St A} (f : St -> A * St) : M St A :=
  fun s => let (a, s') := f s in (Ok a, s').

Declare Scope js_scope.
Delimit Scope js_scope with js.
Notation "x <- m ;; k" := (bind m (fun x => k))
  (at level 61, m at next level, right associativity) : js_scope.
Notation "m ;;; k" := (bind m (fun _ => k))
  (at level 61, right associativity) : js_scope.

(** ** The clock *)

(** [Date.now()]: a world type with a clock can be asked for the time in
    milliseconds; the reading may change the world (e.g. consume an entry of
    a stream of readings). *)
Class Clock (W : Type) : Type := Date_now : W -> Z * W.

(** ** JavaScript [Map]: insertion-ordered, keys unique *)

Class EqKey (K : Type) : Type := {
  key_eqb : K -> K -> bool;
  key_eqb_eq : forall a b, key_eqb a b = true <-> a = b
}.

#[export] Instance EqKey_string : EqKey string :=
  {| key_eqb := String.eqb; key_eqb_eq := String.eqb_eq |}.

#[export] Instance EqKey_Z : EqKey Z :=
  {| key_eqb := Z.eqb; key_eqb_eq := Z.eqb_eq |}.

Module JSMap.
Section JSMap.
Context {K V : Type} `{EqKey K}.

(** Entries in insertion order, oldest first. *)
Definition t : Type := list (K * V).

Definition empty : t := [].

Fixpoint get (k : K) (m : t) : option V :=
  match m with
  | [] => None
  | (k', v) :: m' => if key_eqb k k' then Some v else get k m'
  end.

Definition has (k : K) (m : t) : bool :=
  match get k m with Some _ => true | None => false end.

(** [Map.prototype.set]: an existing key keeps its position, a new key is
    appended. *)
Fixpoint set (k : K) (v : V) (m : t) : t :=
  match m with
  | [] => [(k, v)]
  | (k', v') :: m' =>
      if key_eqb k k' then (k, v) :: m' else (k', v') :: set k v m'
  end.

Fixpoint delete (k : K) (m : t) : t :=
  match m with
  | [] => []
  | (k', v') :: m' =>
      if key_eqb k k' then m' else (k', v') :: delete k m'
  end.

Definition size (m : t) : Z := Z.of_nat (List.length m).

Definition keys (m : t) : list K := map fst m.

(** [m.keys().next().value] *)
Definition first_key (m : t) : option K :=
  match m with
  | [] => None
  | (k, _) :: _ => Some k
  end.

End JSMap.
Arguments t : clear implicits.
End JSMap.

(** ** utils/cache.ts: [TTLCache] *)

Module TTLCache.
Section TTLCache.
Context {K V : Type} `{EqKey K} {W : Type} `{Clock W}.

Record Entry : Type := { value : V; expiresAt : Z }.

Record t : Type := {
  cache : JSMap.t K Entry;
  ttlMs : Z;
  maxSize : Z
}.

(** [constructor(ttlMs, maxSize = 1000)] *)
Definition create (ttl : Z) (max : option Z) : t :=
  {| cache := JSMap.empty;
     ttlMs := ttl;
     maxSize := match max with Some n => n | None => 1000 end |}.

Definition with_cache (c : t) (m : JSMap.t K Entry) : t :=
  {| cache := m; ttlMs := ttlMs c; maxSize := maxSize c |}.

(** [get(key)]: the clock is read only when the key is present. *)
Definition get (key : K) (c : t) (w : W) : option V * t * W :=
  match JSMap.get key (cache c) with
  | None => (None, c, w)
  | Some entry =>
      let (now, w') := Date_now w in
      if now >? expiresAt entry
      then (None, with_cache c (JSMap.delete key (cache c)), w')
      else (Some (value entry), c, w')
  end.

(** [set(key, value)] *)
Definition set (key : K) (v : V) (c : t) (w : W) : t * W :=
  let evicted :=
    if JSMap.size (cache c) >=? maxSize c
    then match JSMap.first_key (cache c) with
         | Some firstKey => JSMap.delete firstKey (cache c)
         | None => cache c
         end
    else cache c in
  let (now, w') := Date_now w in
  (with_cache c
     (JSMap.set key {| value := v; expiresAt := now + ttlMs c |} evicted),
   w').

Definition has (key : K) (c : t) (w : W) : bool * t * W :=
  match get key c w with
  | (Some _, c', w') => (true, c', w')
  | (None, c', w') => (false, c', w')
  end.

Definition clear (c : t) : t := with_cache c JSMap.empty.

Record Stats : Type := {
  stats_size : Z;
  stats_maxSize : Z;
  stats_ttlMs : Z
}.

(** The loop of [stats] over [this.cache.entries()]: the entries are
    visited in insertion order, and an expired one is deleted from the map
    while the iteration goes on. *)
Fixpoint prune (now : Z) (entries : list (K * Entry)) (m : JSMap.t K Entry)
  : JSMap.t K Entry :=
  match entries with
  | [] => m
  | (key, entry) :: rest =>
      if now >? expiresAt entry
      then prune now rest (JSMap.delete key m)
      else prune now rest m
  end.

(** [stats()]: one reading of the clock, before the loop. *)
Definition stats (c : t) (w : W) : Stats * t * W :=
  let (now, w') := Date_now w in
  let m := prune now (cache c) (cache c) in
  ({| stats_size := JSMap.size m;
      stats_maxSize := maxSize c;
      stats_ttlMs := ttlMs c |},
   with_cache c m, w').

End TTLCache.
Arguments Entry : clear implicits.
Arguments t : clear implicits.
End TTLCache.

(** ** utils/cache.ts: [RequestDeduplicator]

    A promise is known by an identifier.  The object holds the map
    [pending]; what happens to it is a sequence of events: a call of
    [deduplicate], the settling of the promise of an operation (which runs
    the [finally] callback registered for it), a call of [clear]. *)

Module RequestDeduplicator.

Definition Promise : Type := nat.

Record t : Type := {
  pending : JSMap.t string Promise;
  next_promise : Promise;
  (** The operations started by [fn()] and not yet settled, each with the
      key its [finally] callback closes over. *)
  in_flight : list (Promise * string)
}.

Definition create : t :=
  {| pending := JSMap.empty; next_promise := O; in_flight := [] |}.

(** [deduplicate(key, fn)]: the promise handed back, and whether [fn] was
    called. *)
Definition deduplicate (key : string) (d : t) : Promise * bool * t :=
  match JSMap.get key (pending d) with
  | Some existing => (existing, false, d)
  | None =>
      let promise := next_promise d in
      (promise, true,
       {| pending := JSMap.set key promise (pending d);
          next_promise := S promise;
          in_flight := in_flight d ++ [(promise, key)] |})
  end.

(** The operation behind [promise] settles: its [finally] callback runs
    [this.pending.delete(key)] for the key it was started with. *)
Definition settle (promise : Promise) (d : t) : t :=
  match find (fun op => Nat.eqb (fst op) promise) (in_flight d) with
  | Some (_, key) =>
      {| pending := JSMap.delete key (pending d);
         next_promise := next_promise d;
         in_flight :=
           filter (fun op => negb (Nat.eqb (fst op) promise)) (in_flight d) |}
  | None => d
  end.

(** [clear()]: the map is emptied; operations in flight go on. *)
Definition clear (d : t) : t :=
  {| pending := JSMap.empty; next_promise := next_promise d;
     in_flight := in_flight d |}.

(** [pendingCount()] *)
Definition pendingCount (d : t) : Z := JSMap.size (pending d).

End RequestDeduplicator.

(** ** utils/cache.ts: [CircuitBreaker] *)

Module CircuitBreaker.

Inductive State : Type := CLOSED | OPEN | HALF_OPEN.

Definition State_eqb (a b : State) : bool :=
  match a, b with
  | CLOSED, CLOSED | OPEN, OPEN | HALF_OPEN, HALF_OPEN => true
  | _, _ => false
  end.

Record t : Type := {
  failureThreshold : Z;
  cooldownMs : Z;
  successThreshold : Z;
  state : State;
  failureCount : Z;
  successCount : Z;
  nextAttemptTime : Z
}.

(** [constructor(failureThreshold, cooldownMs, successThreshold = 2)] *)
Definition create (ft cd : Z) (st : option Z) : t :=
  {| failureThreshold := ft;
     cooldownMs := cd;
     successThreshold := match st with Some n => n | None => 2 end;
     state := CLOSED;
     failureCount := 0;
     successCount := 0;
     nextAttemptTime := 0 |}.

Definition with_state (cb : t) (s : State) : t :=
  {| failureThreshold := failureThreshold cb; cooldownMs := cooldownMs cb;
     successThreshold := successThreshold cb;
     state := s;
     failureCount := failureCount cb; successCount := successCount cb;
     nextAttemptTime := nextAttemptTime cb |}.

Definition with_failureCount (cb : t) (n : Z) : t :=
  {| failureThreshold := failureThreshold cb; cooldownMs := cooldownMs cb;
     successThreshold := successThreshold cb;
     state := state cb;
     failureCount := n; successCount := successCount cb;
     nextAttemptTime := nextAttemptTime cb |}.

Definition with_successCount (cb : t) (n : Z) : t :=
  {| failureThreshold := failureThreshold cb; cooldownMs := cooldownMs cb;
     successThreshold := successThreshold cb;
     state := state cb;
     failureCount := failureCount cb; successCount := n;
     nextAttemptTime := nextAttemptTime cb |}.

Definition with_nextAttemptTime (cb : t) (n : Z) : t :=
  {| failureThreshold := failureThreshold cb; cooldownMs := cooldownMs cb;
     successThreshold := successThreshold cb;
     state := state cb;
     failureCount := failureCount cb; successCount := successCount cb;
     nextAttemptTime := n |}.

Definition breaker_open_error : Error :=
  Err "Circuit breaker is OPEN - service is unavailable".

(** [onSuccess()] *)
Definition onSuccess (cb : t) : t :=
  let cb := with_failureCount cb 0 in
  if State_eqb (state cb) HALF_OPEN then
    let cb := with_successCount cb (successCount cb + 1) in
    if successCount cb >=? successThreshold cb
    then with_successCount (with_state cb CLOSED) 0
    else cb
  else cb.

Section Execute.
Context {W : Type} `{Clock W}.

(** [onFailure()]: reads the clock only when it opens the breaker. *)
Definition onFailure (cb : t) (w : W) : t * W :=
  let cb := with_failureCount cb (failureCount cb + 1) in
  let cb := with_successCount cb 0 in
  if State_eqb (state cb) HALF_OPEN || (failureCount cb >=? failureThreshold cb)
  then
    let (now, w') := Date_now w in
    (with_nextAttemptTime (with_state cb OPEN) (now + cooldownMs cb), w')
  else (cb, w).

(** The prologue of [execute], up to the [try]: either the fail-fast error
    or the breaker (possibly moved to HALF_OPEN) with which the call runs. *)
Definition gate (now : Z) (cb : t) : Error + t :=
  if State_eqb (state cb) OPEN then
    if now <? nextAttemptTime cb
    then inl breaker_open_error
    else inr (with_successCount (with_state cb HALF_OPEN) 0)
  else inr cb.

(** [execute(fn)]: the result of the call, the breaker afterwards and the
    world afterwards. *)
Definition execute {T : Type} (fn : M W T) (cb : t) (w : W)
  : Result T * t * W :=
  let (now, w0) := Date_now w in
  match gate now cb with
  | inl e => (Throw e, cb, w0)
  | inr cb1 =>
      match fn w0 with
      | (Ok result, w1) => (Ok result, onSuccess cb1, w1)
      | (Throw error, w1) =>
          let (cb2, w2) := onFailure cb1 w1 in
          (Throw error, cb2, w2)
      end
  end.

End Execute.

(** [reset()] *)
Definition reset (cb : t) : t :=
  with_nextAttemptTime
    (with_successCount (with_failureCount (with_state cb CLOSED) 0) 0) 0.

End CircuitBreaker.

(** ** JavaScript numbers

    A [number] is an IEEE 754 binary64 value, given by the standard
    library's specification of floating-point arithmetic. *)

Module Number.

Definition t : Type := spec_float.

Definition prec : Z := 53.
Definition emax : Z := 1024.

Definition NaN : t := S754_nan.
Definition zero : t := S754_zero false.
Definition Infinity : t := S754_infinity false.
Definition neg_Infinity : t := S754_infinity true.

(** The number nearest to an integer (literals, [array.length]). *)
Definition of_Z (z : Z) : t := binary_normalize prec emax z 0 false.

(** The number nearest to a rational, ties to even: the correctly rounded
    quotient of numerator and denominator. *)
Definition of_Q (q : Q) : t :=
  match Qnum q with
  | Z0 => zero
  | Zpos n =>
      SFdiv prec emax (S754_finite false n 0) (S754_finite false (Qden q) 0)
  | Zneg n =>
      SFdiv prec emax (S754_finite true n 0) (S754_finite false (Qden q) 0)
  end.

(** The exact value of a finite number. *)
Definition to_Q (x : t) : option Q :=
  match x with
  | S754_zero _ => Some 0%Q
  | S754_finite s m e =>
      let v := if 0 <=? e
               then inject_Z (Zpos m * 2 ^ e)
               else (inject_Z (Zpos m) / inject_Z (2 ^ (- e)))%Q in
      Some (Qred (if s then (- v)%Q else v))
  | S754_infinity _ | S754_nan => None
  end.

Definition add : t -> t -> t := SFadd prec emax.
Definition sub : t -> t -> t := SFsub prec emax.
Definition mul : t -> t -> t := SFmul prec emax.
Definition div : t -> t -> t := SFdiv prec emax.
Definition sqrt : t -> t := SFsqrt prec emax.

Definition ltb : t -> t -> bool := SFltb.
Definition leb : t -> t -> bool := SFleb.
Definition eqb : t -> t -> bool := SFeqb.

Definition is_nan (x : t) : bool :=
  match x with S754_nan => true | _ => false end.

(** [Math.max(a, b)] *)
Definition max (a b : t) : t :=
  if is_nan a || is_nan b then NaN
  else if ltb a b then b
  else if ltb b a then a
  else match a, b with
       | S754_zero sa, S754_zero sb => S754_zero (sa && sb)
       | _, _ => a
       end.

(** [Math.min(a, b)] *)
Definition min (a b : t) : t :=
  if is_nan a || is_nan b then NaN
  else if ltb a b then a
  else if ltb b a then b
  else match a, b with
       | S754_zero sa, S754_zero sb => S754_zero (sa || sb)
       | _, _ => a
       end.

(** [Math.round(x)]: the nearest integer, halves towards positive
    infinity; the sign of a zero result is not tracked. *)
Definition round (x : t) : t :=
  match to_Q x with
  | Some q => of_Z (Qfloor (q + (1 # 2)))
  | None => x
  end.

End Number.

(** ** The environment: clock, network, random numbers

    What the code receives from outside is fixed in advance by an oracle:
    the n-th reading of the clock, the answer to the n-th [fetch], the n-th
    value of [Math.random()].  A world is an oracle with the positions
    reached in it and the trace of what the program did. *)

Section Environment.
Context {J : Type}.

Record Headers : Type := {
  retry_after : option string;
  content_type : option string
}.

(** The body of a response: JSON that parses to a payload, or text on
    which [response.json()] rejects, with the message of the error it
    rejects with (the message depends on the text and on the engine). *)
Inductive Body : Type :=
| JsonBody (payload : J)
| MalformedBody (reason : string).

Record Response : Type := {
  status : Z;
  statusText : string;
  headers : Headers;
  body : Body
}.

(** [response.ok] *)
Definition ok (r : Response) : bool :=
  (200 <=? status r) && (status r <=? 299).

(** [fetch] settles with a response, or rejects (network failure, or the
    abort raised by the timeout). *)
Inductive FetchOutcome : Type :=
| Responds (r : Response)
| Rejects (e : Error).

Record Oracle : Type := {
  clock : nat -> Z;
  network : nat -> string -> FetchOutcome;
  random : nat -> Number.t;
  url_parses : string -> bool
}.

Inductive Event : Type :=
| Fetched (url : string)
| Slept (ms : Number.t).

Record World : Type := {
  oracle : Oracle;
  reads : nat;
  requests : nat;
  draws : nat;
  trace : list Event
}.

Definition initial_world (o : Oracle) : World :=
  {| oracle := o; reads := 0; requests := 0; draws := 0; trace := [] |}.

#[export] Instance Clock_World : Clock World :=
  fun w =>
    (clock (oracle w) (reads w),
     {| oracle := oracle w; reads := S (reads w); requests := requests w;
        draws := draws w; trace := trace w |}).

(** [await fetch(url, ...)] *)
Definition fetch (url : string) : M World Response :=
  fun w =>
    let w' := {| oracle := oracle w; reads := reads w;
                 requests := S (requests w); draws := draws w;
                 trace := trace w ++ [Fetched url] |} in
    match network (oracle w) (requests w) url with
    | Responds r => (Ok r, w')
    | Rejects e => (Throw e, w')
    end.

(** [Math.random()] *)
Definition Math_random : M World Number.t :=
  fun w =>
    (Ok (random (oracle w) (draws w)),
     {| oracle := oracle w; reads := reads w; requests := requests w;
        draws := S (draws w); trace := trace w |}).

(** [await new Promise(resolve => setTimeout(resolve, ms))] *)
Definition sleep (ms : Number.t) : M World unit :=
  fun w =>
    (Ok tt,
     {| oracle := oracle w; reads := reads w; requests := requests w;
        draws := draws w; trace := trace w ++ [Slept ms] |}).

(** [new URL(url)]: throws a [TypeError] when the platform's parser rejects
    the string. *)
Definition new_URL (url : string) : M World string :=
  fun w =>
    if url_parses (oracle w) url
    then (Ok url, w)
    else (Throw (Err "Invalid URL"), w).

(** [await response.json()] *)
Definition json (r : Response) : M World J :=
  match body r with
  | JsonBody payload => ret payload
  | MalformedBody reason => throw (Err reason)
  end.

End Environment.
Arguments Body : clear implicits.
Arguments Response : clear implicits.
Arguments FetchOutcome : clear implicits.
Arguments Oracle : clear implicits.
Arguments World : clear implicits.

(** ** Strings and numbers of the JavaScript runtime

    A JavaScript string is a sequence of UTF-16 code units; the strings of
    the model are those whose code units are below 256, a character being
    its code unit. *)

(** [a < b] on rationals. *)
Definition Qltb (a b : Q) : bool := negb (Qle_bool b a).

(** Template-literal interpolation of an integer. *)
Definition string_of_Z (z : Z) : string :=
  NilZero.string_of_int (Z.to_int z).

(** [haystack.includes(needle)] *)
Definition includes (needle haystack : string) : bool :=
  match String.index 0 needle haystack with
  | Some _ => true
  | None => false
  end.

(** A string in a condition: only the empty string is falsy. *)
Definition truthy (s : string) : bool :=
  negb (String.eqb s "").

Definition is_digit (c : ascii) : bool :=
  let n := N_of_ascii c in ((48 <=? n) && (n <=? 57))%N.

Definition digit_value (c : ascii) : Z :=
  Z.of_N (N_of_ascii c) - 48.

(** White space and line terminators, as the conversions from strings to
    numbers strip them: TAB, LF, VT, FF, CR, SP and NBSP among the
    characters of the model. *)
Definition is_white_space (c : ascii) : bool :=
  let n := N_of_ascii c in
  (((9 <=? n) && (n <=? 13)) || (n =? 32) || (n =? 160))%N.

Fixpoint trim_start (s : string) : string :=
  match s with
  | String c rest => if is_white_space c then trim_start rest else s
  | EmptyString => s
  end.

Fixpoint trim_end (s : string) : string :=
  match s with
  | EmptyString => EmptyString
  | String c rest =>
      match trim_end rest with
      | EmptyString =>
          if is_white_space c then EmptyString else String c EmptyString
      | rest' => String c rest'
      end
  end.

(** [s.trim()] *)
Definition trim (s : string) : string := trim_end (trim_start s).

(** The value of a character as a digit of [radix] (at most 36), letters
    in either case. *)
Definition digit_in (radix : Z) (c : ascii) : option Z :=
  let n := Z.of_N (N_of_ascii c) in
  let v := if (48 <=? n) && (n <=? 57) then n - 48
           else if (97 <=? n) && (n <=? 122) then n - 87
           else if (65 <=? n) && (n <=? 90) then n - 55
           else radix in
  if v <? radix then Some v else None.

(** Reading a run of digits of [radix]: their value after [acc], how many
    were read after [count], and the rest of the string. *)
Fixpoint read_radix (radix : Z) (s : string) (acc count : Z)
  : Z * Z * string :=
  match s with
  | String c rest =>
      match digit_in radix c with
      | Some v => read_radix radix rest (radix * acc + v) (count + 1)
      | None => (acc, count, s)
      end
  | EmptyString => (acc, count, s)
  end.

(** [encodeURIComponent(s)]: letters, digits and [-_.!~*'()] stand for
    themselves, every other character for the bytes of its UTF-8 encoding,
    each written [%XX]. *)
Definition unreserved (c : ascii) : bool :=
  let n := N_of_ascii c in
  (((48 <=? n) && (n <=? 57)) || ((65 <=? n) && (n <=? 90))
   || ((97 <=? n) && (n <=? 122))
   || (n =? 45) || (n =? 95) || (n =? 46) || (n =? 33) || (n =? 126)
   || (n =? 42) || (n =? 39) || (n =? 40) || (n =? 41))%N.

Definition hex_digit (n : N) : ascii :=
  if (n <? 10)%N then ascii_of_N (48 + n) else ascii_of_N (55 + n).

Definition percent_byte (n : N) : string :=
  String "%" (String (hex_digit (n / 16)) (String (hex_digit (n mod 16)) "")).

Definition encode_char (c : ascii) : string :=
  let n := N_of_ascii c in
  if unreserved c then String c ""
  else if (n <? 128)%N then percent_byte n
  else (percent_byte (192 + n / 64) ++ percent_byte (128 + n mod 64))%string.

Fixpoint encodeURIComponent (s : string) : string :=
  match s with
  | EmptyString => EmptyString
  | String c rest => (encode_char c ++ encodeURIComponent rest)%string
  end.

(** The radix that the letter after a leading [0] announces. *)
Definition radix_of_prefix (c : ascii) : option Z :=
  if (Ascii.eqb c "x" || Ascii.eqb c "X")%bool then Some 16
  else if (Ascii.eqb c "o" || Ascii.eqb c "O")%bool then Some 8
  else if (Ascii.eqb c "b" || Ascii.eqb c "B")%bool then Some 2
  else None.

(** A hexadecimal, octal or binary integer literal ([0x1f], [0o17],
    [0b101]) that makes up the whole string. *)
Definition nondecimal_literal (s : string) : option Z :=
  match s with
  | String "0"%char (String c digits) =>
      match radix_of_prefix c with
      | Some radix =>
          match read_radix radix digits 0 0 with
          | (n, count, EmptyString) => if count =? 0 then None else Some n
          | _ => None
          end
      | None => None
      end
  | _ => None
  end.

(** The number with the value of an integer and the sign [negative]:
    [-0] when the integer is zero. *)
Definition signed_integer (negative : bool) (n : Z) : Number.t :=
  if n =? 0 then S754_zero negative
  else Number.of_Z (if negative then - n else n).

(** [parseInt(s)], no radix given: leading white space is skipped, then
    come an optional sign, an optional [0x] that makes the radix 16, and
    the longest run of digits of the radix; the result is [NaN] when
    there is no digit. *)
Definition parseInt (s : string) : Number.t :=
  let s := trim_start s in
  let (negative, s) :=
    match s with
    | String "-"%char rest => (true, rest)
    | String "+"%char rest => (false, rest)
    | _ => (false, s)
    end in
  let (radix, s) :=
    match s with
    | String "0"%char (String c rest) =>
        if (Ascii.eqb c "x" || Ascii.eqb c "X")%bool then (16, rest)
        else (10, s)
    | _ => (10, s)
    end in
  match read_radix radix s 0 0 with
  | (n, count, _) =>
      if count =? 0 then Number.NaN else signed_integer negative n
  end.

(** ** utils/http.ts: [HttpUtils] *)

Module HttpUtils.
Section HttpUtils.
Context {J : Type}.
#[local] Abbreviation World := (World J).

(** [calculateBackoffDelay(attempt, baseDelay)]: [attempt] is the counter
    of the loop, [baseDelay] the number nearest to the value given; the
    arithmetic is that of numbers. *)
Definition calculateBackoffDelay (attempt : Z) (baseDelay : Q)
  : M World Number.t :=
  if (attempt <? 0) || Qltb baseDelay 0
  then ret (Number.of_Z 1000)
  else
    let exponentialDelay :=
      Number.mul (Number.of_Q baseDelay)
        (Number.of_Z (2 ^ Z.min attempt 10)) in
    (r <- Math_random ;;
     let jitter :=
       Number.mul (Number.mul r (Number.of_Q (1 # 10))) exponentialDelay in
     ret (Number.min (Number.add exponentialDelay jitter)
            (Number.of_Z 30000)))%js.

(** How one iteration of the retry loop ends when it does not throw:
    [return value] or [continue]. *)
Inductive Step : Type :=
| Return (value : J)
| Continue.

Definition http_error (r : Response J) : Error :=
  Err ("HTTP " ++ string_of_Z (status r) ++ ": " ++ statusText r).

(** [retryAfter ? parseInt(retryAfter) * 1000
                 : this.calculateBackoffDelay(attempt, baseDelay)] *)
Definition retry_delay (response : Response J) (attempt : Z) (baseDelay : Q)
  : M World Number.t :=
  match retry_after (headers response) with
  | Some retryAfter =>
      if truthy retryAfter
      then ret (Number.mul (parseInt retryAfter) (Number.of_Z 1000))
      else calculateBackoffDelay attempt baseDelay
  | None => calculateBackoffDelay attempt baseDelay
  end.

(** The [try] block of one iteration. *)
Definition attempt_try (url : string) (attempt maxRetries : Z) (baseDelay : Q)
  : M World Step :=
  (response <- fetch url ;;
   if negb (ok response) then
     if status response =? 429 then
       delay <- retry_delay response attempt baseDelay ;;
       if attempt <? maxRetries
       then sleep delay ;;; ret Continue
       else throw (http_error response)
     else throw (http_error response)
   else
     try_catch
       (match content_type (headers response) with
        | Some contentType =>
            if includes "application/json" contentType
            then ret tt
            else throw (Err "Response is not JSON")
        | None => throw (Err "Response is not JSON")
        end)
       (fun _ => throw (Err "Invalid response headers")) ;;;
     payload <- json response ;;
     ret (Return payload))%js.

(** The [catch] block of one iteration; it yields the new [lastError]. *)
Definition attempt_catch (attempt maxRetries : Z) (baseDelay : Q)
  (error : Error) : M World Error :=
  (let lastError := error in
   if attempt <? maxRetries
   then delay <- calculateBackoffDelay attempt baseDelay ;;
        sleep delay ;;;
        ret lastError
   else ret lastError)%js.

Definition exhausted (maxRetries : Z) (lastError : option Error) : Error :=
  match lastError with
  | Some e =>
      Err ("Request failed after " ++ string_of_Z (maxRetries + 1)
           ++ " attempts: " ++ message e)
  | None => Err "Cannot read properties of undefined (reading 'message')"
  end.

(** [for (let attempt = 0; attempt <= maxRetries; attempt++)], with
    [remaining] the number of iterations still to run. *)
Fixpoint retry_loop (remaining : nat) (url : string)
  (attempt maxRetries : Z) (baseDelay : Q) (lastError : option Error)
  : M World J :=
  match remaining with
  | O => throw (exhausted maxRetries lastError)
  | S remaining' =>
      fun w =>
        match attempt_try url attempt maxRetries baseDelay w with
        | (Ok (Return value), w1) => (Ok value, w1)
        | (Ok Continue, w1) =>
            retry_loop remaining' url (attempt + 1) maxRetries baseDelay
              lastError w1
        | (Throw error, w1) =>
            match attempt_catch attempt maxRetries baseDelay error w1 with
            | (Ok lastError', w2) =>
                retry_loop remaining' url (attempt + 1) maxRetries baseDelay
                  (Some lastError') w2
            | (Throw e, w2) => (Throw e, w2)
            end
        end
  end.

(** [fetchWithRetry(url, options, maxRetries = 3, baseDelay = 1000)].  The
    request options only carry headers and are left out; the job handed to
    [limiter.schedule] runs as it is, the limiter deciding only when. *)
Definition fetchWithRetry (url : string) (maxRetries : option Z)
  (baseDelay : option Q) : M World J :=
  let maxRetries := match maxRetries with Some n => n | None => 3 end in
  let baseDelay := match baseDelay with Some d => d | None => 1000%Q end in
  if negb (truthy url) then throw (Err "Valid URL is required")
  else if (maxRetries <? 0) || Qltb baseDelay 0
  then throw (Err "maxRetries and baseDelay must be non-negative")
  else
    (try_catch (new_URL url ;;; ret tt)
       (fun _ => throw (Err ("Invalid URL format: " ++ url))) ;;;
     retry_loop (Z.to_nat (maxRetries + 1)) url 0 maxRetries baseDelay None)%js.

End HttpUtils.
Arguments Step : clear implicits.
End HttpUtils.

(** ** Reading traces and responses *)

Definition is_fetch (e : Event) : bool :=
  match e with Fetched _ => true | Slept _ => false end.

Definition is_sleep (e : Event) : bool :=
  match e with Fetched _ => false | Slept _ => true end.

Definition count_fetches (tr : list Event) : nat :=
  List.length (filter is_fetch tr).

Definition count_sleeps (tr : list Event) : nat :=
  List.length (filter is_sleep tr).

(** A response that [fetchWithRetry] turns into a value: status 2xx, a
    JSON content type and a body that parses. *)
Definition json_typed {J} (r : Response J) : bool :=
  match content_type (headers r) with
  | Some contentType => includes "application/json" contentType
  | None => false
  end.

Definition good_response {J} (r : Response J) : bool :=
  ok r && json_typed r &&
  match body r with JsonBody _ => true | MalformedBody _ => false end.

(** An endpoint that never answers [url] with a usable response. *)
Definition never_good {J} (o : Oracle J) (url : string) : Prop :=
  forall n, match network o n url with
            | Responds r => good_response r = false
            | Rejects _ => True
            end.

(** A server that answers every request with the same response. *)
Definition constant_server {J} (r : Response J) : Oracle J :=
  {| clock := fun n => Z.of_nat n;
     network := fun _ _ => Responds r;
     random := fun _ => Number.zero;
     url_parses := fun _ => true |}.

Definition not_found : Response string :=
  {| status := 404; statusText := "Not Found";
     headers := {| retry_after := None;
                   content_type := Some "application/json"%string |};
     body := JsonBody "{}"%string |}.

Definition html_page : Response string :=
  {| status := 200; statusText := "OK";
     headers := {| retry_after := None;
                   content_type := Some "text/html"%string |};
     body := MalformedBody "Unexpected token < in JSON at position 0" |}.

Definition broken_json : Response string :=
  {| status := 200; statusText := "OK";
     headers := {| retry_after := None;
                   content_type := Some "application/json"%string |};
     body := MalformedBody "Unexpected token in JSON" |}.

(** ** decimal.js

    The [Decimal] class comes from the decimal.js package (version 10.4 or
    later), which is not part of the repository.  It is modelled here from
    the package's behaviour in its default configuration, which the plugin
    does not change: results of arithmetic are rounded to [precision = 20]
    significant digits with rounding mode [ROUND_HALF_UP]; the constructor
    does not round.  Values are [NaN], the infinities and the finite
    decimals, kept as reduced fractions; the sign of zero and the exponent
    limits of the package (beyond [1e+9000000000000000]) are not tracked.
    (The module is named [DecimalJs] because [Decimal] is a module of the
    standard library.) *)

Module DecimalJs.

Inductive t : Type :=
| NaN
| Infinity (negative : bool)
| Finite (q : Q).

Definition precision : Z := 20.

Definition pow10 (e : Z) : Q := (10 ^ e)%Q.

(** The number of decimal digits of a positive integer. *)
Fixpoint digits10_fuel (fuel : nat) (n : Z) : Z :=
  match fuel with
  | O => 0
  | S fuel' => if n <? 10 then 1 else 1 + digits10_fuel fuel' (n / 10)
  end.

Definition digits10 (n : Z) : Z :=
  digits10_fuel (S (Z.to_nat (Z.log2 n))) n.

(** The decimal exponent of a positive rational [a]: the [L] with
    [10^L <= a < 10^(L+1)]. *)
Definition ilog10 (a : Q) : Z :=
  let k := digits10 (Qnum a) - digits10 (Zpos (Qden a)) in
  if Qle_bool (pow10 k) a then k else k - 1.

(** Rounding to [p] significant digits, ties away from zero. *)
Definition round_sd (p : Z) (q : Q) : Q :=
  if Qeq_bool q 0 then 0%Q
  else
    let a := Qred (Qabs q) in
    let e := ilog10 a - (p - 1) in
    let m := Qfloor (a * pow10 (- e) + (1 # 2)) in
    let r := (inject_Z m * pow10 e)%Q in
    Qred (if Qle_bool 0 q then r else (- r)%Q).

Definition is_negative (q : Q) : bool := negb (Qle_bool 0 q).

(** [x.isZero()] *)
Definition isZero (x : t) : bool :=
  match x with
  | Finite q => Qeq_bool q 0
  | _ => false
  end.

(** The sign of a value that is not [NaN]. *)
Definition negative (x : t) : bool :=
  match x with
  | Finite q => is_negative q
  | Infinity s => s
  | NaN => false
  end.

(** [x.div(y)] *)
Definition div (x y : t) : t :=
  match x, y with
  | NaN, _ | _, NaN => NaN
  | Infinity _, Infinity _ => NaN
  | Infinity s, Finite q => Infinity (xorb s (is_negative q))
  | Finite _, Infinity _ => Finite 0
  | Finite a, Finite b =>
      if Qeq_bool b 0
      then if Qeq_bool a 0 then NaN else Infinity (is_negative a)
      else Finite (round_sd precision (a / b))
  end.

(** [x.times(y)] *)
Definition times (x y : t) : t :=
  match x, y with
  | NaN, _ | _, NaN => NaN
  | Infinity s, Infinity s' => Infinity (xorb s s')
  | Infinity s, Finite q | Finite q, Infinity s =>
      if Qeq_bool q 0 then NaN else Infinity (xorb s (is_negative q))
  | Finite a, Finite b => Finite (round_sd precision (a * b))
  end.

(** [x.minus(y)] *)
Definition minus (x y : t) : t :=
  match x, y with
  | NaN, _ | _, NaN => NaN
  | Infinity s, Infinity s' => if Bool.eqb s s' then NaN else Infinity s
  | Infinity s, Finite _ => Infinity s
  | Finite _, Infinity s => Infinity (negb s)
  | Finite a, Finite b => Finite (round_sd precision (a - b))
  end.

(** [x.plus(y)] *)
Definition plus (x y : t) : t :=
  match x, y with
  | NaN, _ | _, NaN => NaN
  | Infinity s, Infinity s' => if Bool.eqb s s' then Infinity s else NaN
  | Infinity s, Finite _ => Infinity s
  | Finite _, Infinity s => Infinity s
  | Finite a, Finite b => Finite (round_sd precision (a + b))
  end.

(** [x.abs()] *)
Definition abs (x : t) : t :=
  match x with
  | NaN => NaN
  | Infinity _ => Infinity false
  | Finite q => Finite (Qred (Qabs q))
  end.

(** [new Decimal(10).pow(n)] for an integer [n]: a power of ten has one
    significant digit and is not changed by rounding. *)
Definition ten_pow (n : Z) : t := Finite (Qred (pow10 n)).

(** [x.toNumber()] *)
Definition toNumber (x : t) : Number.t :=
  match x with
  | NaN => Number.NaN
  | Infinity s => S754_infinity s
  | Finite q => Number.of_Q q
  end.

(** [x.toFixed(0, Decimal.ROUND_DOWN)]: the value cut off at the decimal
    point, in plain notation whatever its size; the minus sign is that of
    the value before the cut. *)
Definition toFixed_0_down (x : t) : string :=
  match x with
  | NaN => "NaN"
  | Infinity s => if s then "-Infinity" else "Infinity"
  | Finite q =>
      ((if is_negative q then "-" else "")
       ++ string_of_Z (Z.abs (Z.quot (Qnum q) (Zpos (Qden q)))))%string
  end.

(** Reading a run of decimal digits: their value after [acc], how many
    were read, and the rest of the string. *)
Fixpoint read_digits (s : string) (acc : Z) (count : Z) : Z * Z * string :=
  match s with
  | String c rest =>
      if is_digit c
      then read_digits rest (10 * acc + digit_value c) (count + 1)
      else (acc, count, s)
  | EmptyString => (acc, count, s)
  end.

Definition read_sign (s : string) : bool * string :=
  match s with
  | String "-"%char rest => (true, rest)
  | String "+"%char rest => (false, rest)
  | _ => (false, s)
  end.

(** A decimal literal without its sign: digits, an optional fraction and
    an optional exponent. *)
Definition read_unsigned (s : string) : option Q :=
  let '(int_part, int_count, rest) := read_digits s 0 0 in
  let '(mantissa, frac_count, rest) :=
    match rest with
    | String "."%char rest' => read_digits rest' int_part 0
    | _ => (int_part, 0, rest)
    end in
  if int_count + frac_count =? 0 then None
  else
    match rest with
    | EmptyString => Some (inject_Z mantissa * pow10 (- frac_count))%Q
    | String c rest' =>
        if (Ascii.eqb c "e" || Ascii.eqb c "E")%bool then
          let (exp_negative, rest'') := read_sign rest' in
          match read_digits rest'' 0 0 with
          | (exponent, exp_count, EmptyString) =>
              if exp_count =? 0 then None
              else
                let exponent := if exp_negative then - exponent else exponent in
                Some (inject_Z mantissa * pow10 (exponent - frac_count))%Q
          | _ => None
          end
        else None
    end.

Definition invalid_argument (s : string) : Error :=
  Err ("[DecimalError] Invalid argument: " ++ s).

(** [str.replace(/(\d)_(?=\d)/g, '$1')]: an underscore between two digits
    is dropped; [after_digit] tells whether the character before is a
    digit. *)
Fixpoint strip_separators (after_digit : bool) (s : string) : string :=
  match s with
  | EmptyString => EmptyString
  | String c rest =>
      if Ascii.eqb c "_" then
        match rest with
        | String d _ =>
            if after_digit && is_digit d
            then strip_separators false rest
            else String c (strip_separators false rest)
        | EmptyString => String c EmptyString
        end
      else String c (strip_separators (is_digit c) rest)
  end.

(** The digits [Number.prototype.toString] prints for a finite non-zero
    number of exact value [v]: the decimal with the fewest significant
    digits (at most 17) that converts back to the same number. *)
Fixpoint shortest_digits (tries : nat) (k : Z) (v : Q) (x : Number.t) : Q :=
  match tries with
  | O => v
  | S tries' =>
      let nearest := round_sd k v in
      if Number.eqb (Number.of_Q nearest) x then nearest
      else shortest_digits tries' (k + 1) v x
  end.

(** [new Decimal(x)] for a number: the decimal that prints like [x]. *)
Definition of_number (x : Number.t) : t :=
  match x with
  | S754_nan => NaN
  | S754_infinity s => Infinity s
  | S754_zero _ => Finite 0
  | S754_finite _ _ _ =>
      match Number.to_Q x with
      | Some v => Finite (shortest_digits 17 1 v x)
      | None => NaN
      end
  end.

(** The binary exponent [p] of a literal in another base, applied to the
    value [x] read so far.  For [|p| < 54] the factor is the number
    [Math.pow(2, p)], read as the constructor reads a number, and the
    product is exact; from there on the factor is [Decimal.pow(2, p)],
    the power of two rounded to [precision], and the product is rounded
    as well. *)
Definition scale_binary (x : Q) (p : Number.t) : t :=
  match p with
  | S754_nan => NaN
  | S754_zero _ => Finite x
  | S754_infinity false => Infinity false
  | S754_infinity true => Finite 0
  | S754_finite _ _ _ =>
      match Number.to_Q p with
      | Some pv =>
          let n := Qfloor pv in
          if Z.abs n <? 54 then
            match of_number (Number.of_Q (2 ^ n)%Q) with
            | Finite factor => Finite (Qred (x * factor))
            | other => other
            end
          else
            times (Finite x) (Finite (round_sd precision (2 ^ n)%Q))
      | None => NaN
      end
  end.

(** A literal in base 16, 8 or 2 without its sign: the prefix, digits with
    an optional fraction, and an optional binary exponent [p]; a zero
    value stays zero whatever the exponent. *)
Definition read_prefixed (s : string) : option t :=
  match s with
  | String "0"%char (String c digits) =>
      match radix_of_prefix c with
      | Some radix =>
          let '(int_part, int_count, rest) := read_radix radix digits 0 0 in
          let '(mantissa, frac_count, rest) :=
            match rest with
            | String "."%char rest' => read_radix radix rest' int_part 0
            | _ => (int_part, 0, rest)
            end in
          if int_count + frac_count =? 0 then None
          else
            let x := (inject_Z mantissa / inject_Z (radix ^ frac_count))%Q in
            match rest with
            | EmptyString => Some (Finite (Qred x))
            | String e rest' =>
                if (Ascii.eqb e "p" || Ascii.eqb e "P")%bool then
                  let (exp_negative, rest'') := read_sign rest' in
                  match read_digits rest'' 0 0 with
                  | (exponent, exp_count, EmptyString) =>
                      if exp_count =? 0 then None
                      else if mantissa =? 0 then Some (Finite 0)
                      else Some (scale_binary x
                                   (signed_integer exp_negative exponent))
                  | _ => None
                  end
                else None
            end
      | None => None
      end
  | _ => None
  end.

(** The value with the sign read in front of it. *)
Definition with_sign (negative : bool) (x : t) : t :=
  match x with
  | NaN => NaN
  | Infinity s => Infinity (xorb negative s)
  | Finite q => Finite (Qred (if negative then (- q)%Q else q))
  end.

(** What the constructor does with a string that is not a decimal
    literal: with underscores between digits dropped it may be one; else
    [Infinity] and [NaN] are read as such, and the literals in base 16, 8
    and 2; anything else throws, the message showing the string without
    its sign. *)
Definition parse_other (str : string) : Result t :=
  let separated := includes "_" str in
  let str := if separated then strip_separators false str else str in
  let special :=
    if separated
    then option_map Finite (read_unsigned str)
    else if String.eqb str "Infinity" then Some (Infinity false)
    else if String.eqb str "NaN" then Some NaN
    else None in
  match special with
  | Some x => Ok x
  | None =>
      match read_prefixed str with
      | Some x => Ok x
      | None => Throw (invalid_argument str)
      end
  end.

(** [new Decimal(s)] for a string: an optional sign, then a decimal
    literal (digits, an optional fraction, an optional exponent) or what
    [parse_other] reads. *)
Definition of_string (s : string) : Result t :=
  let (negative, body) := read_sign s in
  match read_unsigned body with
  | Some q => Ok (with_sign negative (Finite q))
  | None =>
      match parse_other body with
      | Ok x => Ok (with_sign negative x)
      | Throw e => Throw e
      end
  end.

(** The argument of the constructor. *)
Inductive Arg : Type :=
| Str (s : string)
| Num (x : Number.t).

(** [new Decimal(v)] *)
Definition create (v : Arg) : Result t :=
  match v with
  | Str s => of_string s
  | Num x => Ok (of_number x)
  end.

End DecimalJs.

(** ** utils/decimal.ts: [DecimalUtils] *)

Module DecimalUtils.

(** Sequencing of expressions that may throw. *)
Definition and_then {A B} (r : Result A) (k : A -> Result B) : Result B :=
  match r with
  | Ok a => k a
  | Throw e => Throw e
  end.

(** [calculateEffectiveRate(fromAmount, toAmount, fromDecimals, toDecimals)] *)
Definition calculateEffectiveRate (fromAmount toAmount : string)
  (fromDecimals toDecimals : Z) : Result Number.t :=
  if negb (truthy fromAmount) || negb (truthy toAmount)
     || (fromDecimals <? 0) || (toDecimals <? 0)
  then Throw (Err "Invalid input parameters for rate calculation")
  else
    let attempt :=
      and_then (DecimalJs.create (DecimalJs.Str fromAmount)) (fun from =>
      let fromDecimal := DecimalJs.div from (DecimalJs.ten_pow fromDecimals) in
      and_then (DecimalJs.create (DecimalJs.Str toAmount)) (fun to =>
      let toDecimal := DecimalJs.div to (DecimalJs.ten_pow toDecimals) in
      if DecimalJs.isZero fromDecimal
      then Throw (Err "From amount cannot be zero")
      else Ok (DecimalJs.toNumber (DecimalJs.div toDecimal fromDecimal)))) in
    match attempt with
    | Ok rate => Ok rate
    | Throw error =>
        Throw (Err ("Decimal calculation failed: " ++ message error))
    end.

(** [calculateSlippageBps(expectedRate, actualRate)] *)
Definition calculateSlippageBps (expectedRate actualRate : Number.t)
  : Result Number.t :=
  and_then (DecimalJs.create (DecimalJs.Num expectedRate)) (fun expected =>
  and_then (DecimalJs.create (DecimalJs.Num actualRate)) (fun actual =>
  if DecimalJs.isZero expected
  then Ok (Number.of_Z 0)
  else
    Ok (DecimalJs.toNumber
          (DecimalJs.abs
             (DecimalJs.times
                (DecimalJs.div (DecimalJs.minus expected actual) expected)
                (DecimalJs.Finite 10000)))))).

(** [normalizeAmount(amount, decimals)] *)
Definition normalizeAmount (amount : string) (decimals : Z)
  : Result DecimalJs.t :=
  and_then (DecimalJs.create (DecimalJs.Str amount)) (fun a =>
  Ok (DecimalJs.div a (DecimalJs.ten_pow decimals))).

(** [denormalizeAmount(amount, decimals)]: a number is first printed by
    [toString()] and read back, which is what the constructor does with a
    number. *)
Definition denormalizeAmount (amount : DecimalJs.Arg) (decimals : Z)
  : Result string :=
  and_then (DecimalJs.create amount) (fun a =>
  Ok (DecimalJs.toFixed_0_down
        (DecimalJs.times a (DecimalJs.ten_pow decimals)))).

(** [!fee?.amountUSD]: a fee that is missing, or whose amount is missing,
    the empty string, zero or [NaN]. *)
Definition no_amount (fee : option DecimalJs.Arg) : bool :=
  match fee with
  | None => true
  | Some (DecimalJs.Str s) => negb (truthy s)
  | Some (DecimalJs.Num x) =>
      match x with
      | S754_zero _ | S754_nan => true
      | _ => false
      end
  end.

(** The callback of [fees.reduce]. *)
Definition add_fee (sum : Result DecimalJs.t) (fee : option DecimalJs.Arg)
  : Result DecimalJs.t :=
  and_then sum (fun sum =>
  if no_amount fee then Ok sum
  else
    match fee with
    | Some amountUSD =>
        and_then (DecimalJs.create amountUSD) (fun feeAmount =>
        Ok (DecimalJs.plus sum feeAmount))
    | None => Ok sum
    end).

(** [sumFees(fees)] for an array; an entry is the [amountUSD] of a fee,
    [None] when the fee or its amount is missing. *)
Definition sumFees (fees : list (option DecimalJs.Arg)) : Result Number.t :=
  match fold_left add_fee fees (Ok (DecimalJs.Finite 0)) with
  | Ok sum => Ok (DecimalJs.toNumber sum)
  | Throw error =>
      Throw (Err ("Fee calculation failed: " ++ message error))
  end.

End DecimalUtils.

(** ** Reference formulas, written after the specification *)

(** Section 4.6 of the specification: the effective rate is
    [(toAmount / 10^toDecimals) / (fromAmount / 10^fromDecimals)], here as
    an exact rational for integer amounts. *)
Definition exact_rate (fromAmount toAmount : Z) (fromDecimals toDecimals : Z)
  : Q :=
  ((inject_Z toAmount / DecimalJs.pow10 toDecimals)
   / (inject_Z fromAmount / DecimalJs.pow10 fromDecimals))%Q.

(** Section 4.6 of the specification: slippage in basis points is
    [|expected - actual| / expected * 10000], here in the arithmetic of
    decimal.js and converted to a number as the code does. *)
Definition spec_slippageBps (expectedRate actualRate : Number.t) : Number.t :=
  let expected := DecimalJs.of_number expectedRate in
  let actual := DecimalJs.of_number actualRate in
  DecimalJs.toNumber
    (DecimalJs.times
       (DecimalJs.div (DecimalJs.abs (DecimalJs.minus expected actual)) expected)
       (DecimalJs.Finite 10000)).

(** ** More of the JavaScript runtime *)

(** [BigInt(s)] for a string: white space around it is dropped; the empty
    string is [0n], a signed run of decimal digits is its value, as is an
    unsigned literal in base 16, 8 or 2; anything else throws a
    [SyntaxError] ([None]). *)
Definition BigInt_of_string (s : string) : option Z :=
  match trim s with
  | EmptyString => Some 0
  | literal =>
      match nondecimal_literal literal with
      | Some n => Some n
      | None =>
          let (negative, digits) := DecimalJs.read_sign literal in
          match DecimalJs.read_digits digits 0 0 with
          | (n, count, EmptyString) =>
              if count =? 0 then None
              else Some (if negative then - n else n)
          | _ => None
          end
      end
  end.

(** [Number(s)] for a string: white space around it is dropped; the empty
    string is [0]; an unsigned literal in base 16, 8 or 2 is its value; a
    signed decimal literal or [Infinity] is the number nearest to it, the
    sign kept on a zero; anything else is [NaN]. *)
Definition Number_of_string (s : string) : Number.t :=
  match trim s with
  | EmptyString => Number.zero
  | literal =>
      match nondecimal_literal literal with
      | Some n => Number.of_Z n
      | None =>
          let (negative, body) := DecimalJs.read_sign literal in
          if String.eqb body "Infinity" then S754_infinity negative
          else
            match DecimalJs.read_unsigned body with
            | Some q =>
                if Qeq_bool q 0 then S754_zero negative
                else Number.of_Q (if negative then (- q)%Q else q)
            | None => Number.NaN
            end
      end
  end.

(** Removing the trailing zeros of a digit sequence. *)
Fixpoint strip_zeros (fuel : nat) (d : Z) : Z :=
  match fuel with
  | O => d
  | S fuel' => if d mod 10 =? 0 then strip_zeros fuel' (d / 10) else d
  end.

(** [String(Math.floor(x))] for a number [x >= 0]: the digits of the integer
    below [10^21], the exponential notation from there on. *)
Definition String_of_floor (x : Number.t) : string :=
  match x with
  | S754_nan => "NaN"
  | S754_infinity false => "Infinity"
  | S754_infinity true => "-Infinity"
  | S754_zero _ => "0"
  | S754_finite _ _ _ =>
      match Number.to_Q x with
      | Some v =>
          let n := Qfloor v in
          if Z.abs n <? 10 ^ 21 then string_of_Z n
          else
            let shown := DecimalJs.shortest_digits 17 1
                           (inject_Z n) (Number.of_Z n) in
            let exponent := DecimalJs.ilog10 (Qabs shown) in
            let digits := Qfloor (Qabs shown * DecimalJs.pow10 (16 - exponent)) in
            let significant := string_of_Z (strip_zeros 17 digits) in
            let mantissa :=
              match significant with
              | String c EmptyString => String c EmptyString
              | String c rest => String c ("." ++ rest)
              | EmptyString => EmptyString
              end in
            (if n <? 0 then "-" else "") ++ mantissa ++ "e+"
            ++ string_of_Z exponent
      | None => "NaN"
      end
  end.

(** [array.join(separator)] *)
Fixpoint join (separator : string) (parts : list string) : string :=
  match parts with
  | [] => ""
  | [p] => p
  | p :: rest => p ++ separator ++ join separator rest
  end.

(** ** service.ts: wire types and results *)

Record Asset : Type := {
  chainId : string;
  assetId : string;
  symbol : string;
  decimals : Z
}.

Record Route : Type := {
  source : Asset;
  destination : Asset
}.

(** The part of a quote that the service reads.  A field that a response
    may lack is an [option]; reading a field of a missing object throws a
    [TypeError]. *)
Record TokenIn : Type := {
  in_amount : option string;
  in_approximateUsdValue : option Number.t;
  in_originApproximateUsdValue : option Number.t
}.

Record TokenOut : Type := {
  out_amount : option string;
  out_recommendedAmount : option string;
  out_maxTheoreticalAmount : option string;
  out_approximateUsdValue : option Number.t;
  out_recommendedApproximateUsdValue : option Number.t;
  out_maxTheoreticalApproximateUsdValue : option Number.t
}.

Record Estimation : Type := {
  srcChainTokenIn : option TokenIn;
  dstChainTokenOut : option TokenOut
}.

Record DeBridgeQuote : Type := {
  estimation : option Estimation
}.

Record DeBridgeTokenInfo : Type := {
  token_address : option string;
  token_symbol : option string;
  token_decimals : option Z
}.

(** The volumes of the DefiLlama response after [toNumeric]; [None] where
    a field is missing or not numeric. *)
Record DefiLlamaRaw : Type := {
  raw_lastDailyVolume : option Number.t;
  raw_weeklyVolume : option Number.t;
  raw_monthlyVolume : option Number.t
}.

Record DefiLlamaBridgeResponse : Type := {
  lastDailyVolume : Number.t;
  weeklyVolume : Number.t;
  monthlyVolume : Number.t
}.

(** What [response.json()] can produce. *)
Inductive Json : Type :=
| JQuote (quote : DeBridgeQuote)
| JTokenList (tokens : option (list DeBridgeTokenInfo))
| JVolumes (raw : DefiLlamaRaw)
| JNull.

(** [payload as DeBridgeQuote]: a payload of another shape has no
    [estimation]. *)
Definition as_quote (j : Json) : DeBridgeQuote :=
  match j with
  | JQuote quote => quote
  | _ => {| estimation := None |}
  end.

Inductive Window : Type := W24h | W7d | W30d.

Record VolumeWindow : Type := {
  window : Window;
  volumeUsd : Number.t;
  volume_measuredAt : Z
}.

Record Rate : Type := {
  rate_source : Asset;
  rate_destination : Asset;
  amountIn : string;
  amountOut : string;
  effectiveRate : Number.t;
  totalFeesUsd : option Number.t;
  quotedAt : Z
}.

Record LiquidityDepthPoint : Type := {
  maxAmountIn : string;
  slippageBps : Z
}.

Record LiquidityDepth : Type := {
  liquidity_route : Route;
  thresholds : list LiquidityDepthPoint;
  liquidity_measuredAt : Z
}.

Record ListedAssets : Type := {
  assets : list Asset;
  assets_measuredAt : Z
}.

Record PriceImpact : Type := {
  at1k : option Number.t;
  at10k : option Number.t;
  at100k : option Number.t
}.

Record RouteIntelligence : Type := {
  intelligence_route : Route;
  maxCapacityUsd : option Z;
  optimalRangeUsd : option (Z * Z);
  feeEfficiencyScore : option Number.t;
  priceImpactBps : PriceImpact;
  intelligence_measuredAt : Z
}.

Record ProviderSnapshot : Type := {
  volumes : list VolumeWindow;
  rates : list Rate;
  liquidity : list LiquidityDepth;
  listedAssets : ListedAssets;
  routeIntelligence : option (list RouteIntelligence)
}.

(** ** service.ts: [RateLimiter] (token bucket) *)

Module RateLimiter.

Record t : Type := {
  tokens : Number.t;
  lastRefill : Z;
  maxTokens : Number.t;
  refillRate : Number.t
}.

(** The constructor reads the clock. *)
Definition create (max rate : Number.t) (w : World Json) : t * World Json :=
  let (now, w') := Date_now w in
  ({| tokens := max; lastRefill := now; maxTokens := max;
      refillRate := rate |}, w').

(** [refill()] *)
Definition refill (rl : t) (w : World Json) : t * World Json :=
  let (now, w') := Date_now w in
  let timePassed :=
    Number.div (Number.sub (Number.of_Z now) (Number.of_Z (lastRefill rl)))
      (Number.of_Z 1000) in
  let tokensToAdd := Number.mul timePassed (refillRate rl) in
  ({| tokens := Number.min (maxTokens rl)
                  (Number.add (tokens rl) tokensToAdd);
      lastRefill := now;
      maxTokens := maxTokens rl; refillRate := refillRate rl |}, w').

(** [acquire()] *)
Definition acquire (rl : t) (w : World Json) : t * World Json :=
  let (rl, w) := refill rl w in
  if Number.leb (Number.of_Z 1) (tokens rl)
  then ({| tokens := Number.sub (tokens rl) (Number.of_Z 1);
           lastRefill := lastRefill rl;
           maxTokens := maxTokens rl; refillRate := refillRate rl |}, w)
  else
    let waitTime :=
      Number.mul (Number.div (Number.of_Z 1) (refillRate rl))
        (Number.of_Z 1000) in
    let w := snd (sleep waitTime w) in
    ({| tokens := Number.zero; lastRefill := lastRefill rl;
        maxTokens := maxTokens rl; refillRate := refillRate rl |}, w).

End RateLimiter.

(** ** service.ts: [DataProviderService] *)

Module DataProviderService.

Local Open Scope string_scope.

#[local] Abbreviation World := (World Json).

Record VolumeCacheEntry : Type := {
  volume_data : option DefiLlamaBridgeResponse;
  volume_fetchedAt : Z
}.

Record TokenListEntry : Type := {
  token_assets : list Asset;
  token_fetchedAt : Z
}.

(** The fields of the service object. *)
Record t : Type := {
  dlnApiBase : string;
  defillamaBaseUrl : string;
  apiKey : string;
  timeout : Z;
  rateLimiter : RateLimiter.t;
  quoteCache : TTLCache.t string Json;
  volumeCache : option VolumeCacheEntry;
  tokenListCache : JSMap.t string TokenListEntry;
  dlnCircuit : CircuitBreaker.t
}.

Definition TOKEN_LIST_TTL : Z := 5 * 60 * 1000.
Definition VOLUME_CACHE_TTL : Z := 10 * 60 * 1000.
Definition DEBRIDGE_LLAMA_ID : string := "20".

(** The constructor, for base URLs that [sanitizeHttpUrl] keeps. *)
Definition create (baseUrl defillamaBaseUrl apiKey : string) (timeout : Z)
  (maxRequestsPerSecond : Number.t) (w : World) : t * World :=
  let (limiter, w') :=
    RateLimiter.create maxRequestsPerSecond maxRequestsPerSecond w in
  ({| dlnApiBase := baseUrl;
      defillamaBaseUrl := defillamaBaseUrl;
      apiKey := apiKey;
      timeout := timeout;
      rateLimiter := limiter;
      quoteCache := TTLCache.create (5 * 60 * 1000) None;
      volumeCache := None;
      tokenListCache := JSMap.empty;
      dlnCircuit := CircuitBreaker.create 5 60000 None |}, w').

Definition with_rateLimiter (s : t) (x : RateLimiter.t) : t :=
  {| dlnApiBase := dlnApiBase s; defillamaBaseUrl := defillamaBaseUrl s;
     apiKey := apiKey s; timeout := timeout s;
     rateLimiter := x;
     quoteCache := quoteCache s; volumeCache := volumeCache s;
     tokenListCache := tokenListCache s; dlnCircuit := dlnCircuit s |}.

Definition with_quoteCache (s : t) (x : TTLCache.t string Json) : t :=
  {| dlnApiBase := dlnApiBase s; defillamaBaseUrl := defillamaBaseUrl s;
     apiKey := apiKey s; timeout := timeout s;
     rateLimiter := rateLimiter s;
     quoteCache := x; volumeCache := volumeCache s;
     tokenListCache := tokenListCache s; dlnCircuit := dlnCircuit s |}.

Definition with_volumeCache (s : t) (x : option VolumeCacheEntry) : t :=
  {| dlnApiBase := dlnApiBase s; defillamaBaseUrl := defillamaBaseUrl s;
     apiKey := apiKey s; timeout := timeout s;
     rateLimiter := rateLimiter s;
     quoteCache := quoteCache s; volumeCache := x;
     tokenListCache := tokenListCache s; dlnCircuit := dlnCircuit s |}.

Definition with_tokenListCache (s : t) (x : JSMap.t string TokenListEntry) : t :=
  {| dlnApiBase := dlnApiBase s; defillamaBaseUrl := defillamaBaseUrl s;
     apiKey := apiKey s; timeout := timeout s;
     rateLimiter := rateLimiter s;
     quoteCache := quoteCache s; volumeCache := volumeCache s;
     tokenListCache := x; dlnCircuit := dlnCircuit s |}.

Definition with_dlnCircuit (s : t) (x : CircuitBreaker.t) : t :=
  {| dlnApiBase := dlnApiBase s; defillamaBaseUrl := defillamaBaseUrl s;
     apiKey := apiKey s; timeout := timeout s;
     rateLimiter := rateLimiter s;
     quoteCache := quoteCache s; volumeCache := volumeCache s;
     tokenListCache := tokenListCache s; dlnCircuit := x |}.

(** Methods run over the service object and the world.  The logger and
    the performance timer only read the clock and write to the console;
    they are left out. *)
Definition SM (A : Type) : Type := M (t * World) A.

Definition this : SM t := fun st => (Ok (fst st), st).

Definition in_world {A} (m : M World A) : SM A :=
  fun st => let (r, w) := m (snd st) in (r, (fst st, w)).

Definition now : SM Z := in_world (lift Date_now).

(** [await this.rateLimiter.acquire()] *)
Definition acquire : SM unit :=
  fun st =>
    let (rl, w) := RateLimiter.acquire (rateLimiter (fst st)) (snd st) in
    (Ok tt, (with_rateLimiter (fst st) rl, w)).

(** [this.quoteCache.get(key)] *)
Definition quoteCache_get (key : string) : SM (option Json) :=
  fun st =>
    let '(r, c, w) := TTLCache.get key (quoteCache (fst st)) (snd st) in
    (Ok r, (with_quoteCache (fst st) c, w)).

(** [this.quoteCache.set(key, quote)] *)
Definition quoteCache_set (key : string) (quote : Json) : SM unit :=
  fun st =>
    let (c, w) := TTLCache.set key quote (quoteCache (fst st)) (snd st) in
    (Ok tt, (with_quoteCache (fst st) c, w)).

(** [this.dlnCircuit.execute(fn)] for an operation on the world. *)
Definition dlnCircuit_execute {A} (fn : M World A) : SM A :=
  fun st =>
    let '(r, cb, w) :=
      CircuitBreaker.execute fn (dlnCircuit (fst st)) (snd st) in
    (r, (with_dlnCircuit (fst st) cb, w)).

(** [this.deduplicator.deduplicate(key, fn)].  Calls are awaited one after
    the other here, so no operation is in flight when the next one starts:
    the operation runs, and its entry is removed when it settles. *)
Definition deduplicate {A} (key : string) (fn : M World A) : M World A := fn.

(** The URL of a request with parameters: [url.searchParams.set] for each
    parameter, then [url.toString()].  The percent-encoding of the
    parameters is left out. *)
Definition query (base : string) (params : list (string * string)) : string :=
  (base ++ "?" ++ join "&" (map (fun p => fst p ++ "=" ++ snd p) params))%string.

Definition rates_quote_url (endpoint : string) (route : Route)
  (notional : string) : string :=
  query endpoint
    [("srcChainId", chainId (source route));
     ("srcChainTokenIn", assetId (source route));
     ("srcChainTokenInAmount", notional);
     ("dstChainId", chainId (destination route));
     ("dstChainTokenOut", assetId (destination route));
     ("dstChainTokenOutAmount", "auto");
     ("prependOperatingExpenses", "true")]%string.

Definition authorityAddress : string :=
  "0x1111111111111111111111111111111111111111".

Definition probe_quote_url (endpoint : string) (src dst : Asset)
  (amount : string) : string :=
  query endpoint
    [("srcChainId", chainId src);
     ("srcChainTokenIn", assetId src);
     ("srcChainTokenInAmount", amount);
     ("dstChainId", chainId dst);
     ("dstChainTokenOut", assetId dst);
     ("dstChainTokenOutRecipient", authorityAddress);
     ("dstChainTokenOutAmount", "auto");
     ("dstChainOrderAuthorityAddress", authorityAddress);
     ("srcChainOrderAuthorityAddress", authorityAddress);
     ("prependOperatingExpenses", "true")]%string.

(** [a ?? b] *)
Definition nullish {A} (a b : option A) : option A :=
  match a with Some _ => a | None => b end.

Definition type_error : Error :=
  Err "Cannot read properties of undefined".

(** [x.field] where [x] may be missing. *)
Definition field {St A B} (x : option A) (f : A -> B) : M St B :=
  match x with
  | Some a => ret (f a)
  | None => throw type_error
  end.

(** A string that may be missing, in a condition. *)
Definition present (s : option string) : bool :=
  match s with Some v => truthy v | None => false end.

(** A cached payload in a condition: [undefined] and [null] are falsy. *)
Definition truthy_json (j : option Json) : bool :=
  match j with
  | Some JNull | None => false
  | Some _ => true
  end.

(** [!notional || isNaN(Number(notional))] *)
Definition invalid_notional (notional : string) : bool :=
  negb (truthy notional) || Number.is_nan (Number_of_string notional).

(** The body of the loop of [getRates] for one route and one notional,
    inside its [try]: the rate to push. *)
Definition rate_for (route : Route) (notional : string) : SM Rate :=
  (svc <- this ;;
   let cacheKey :=
     join "-" [chainId (source route); assetId (source route);
               chainId (destination route); assetId (destination route);
               notional] in
   cachedQuote <- quoteCache_get cacheKey ;;
   quote <-
     (if truthy_json cachedQuote
      then ret (match cachedQuote with Some quote => quote | None => JNull end)
      else
        url <- in_world (new_URL (dlnApiBase svc ++ "/dln/order/create-tx")) ;;
        let url := rates_quote_url url route notional in
        quote <- dlnCircuit_execute
                   (deduplicate cacheKey
                      (HttpUtils.fetchWithRetry url None None)) ;;
        quoteCache_set cacheKey quote ;;;
        ret quote) ;;
   match estimation (as_quote quote) with
   | None => throw (Err "Invalid quote response structure")
   | Some est =>
       fromAmount <- field (srcChainTokenIn est) in_amount ;;
       dstAmount <- field (dstChainTokenOut est) out_amount ;;
       recommended <- field (dstChainTokenOut est) out_recommendedAmount ;;
       let toAmount := nullish recommended dstAmount in
       if negb (present fromAmount) || negb (present toAmount)
       then throw (Err "Missing amount data in quote estimation")
       else
         let fromAmount := match fromAmount with Some s => s | None => "" end in
         let toAmount := match toAmount with Some s => s | None => "" end in
         approxIn1 <- field (srcChainTokenIn est) in_approximateUsdValue ;;
         approxIn2 <- field (srcChainTokenIn est) in_originApproximateUsdValue ;;
         let approximateInUsd := nullish approxIn1 approxIn2 in
         approxOut1 <- field (dstChainTokenOut est)
                         out_recommendedApproximateUsdValue ;;
         approxOut2 <- field (dstChainTokenOut est) out_approximateUsdValue ;;
         approxOut3 <- field (dstChainTokenOut est)
                         out_maxTheoreticalApproximateUsdValue ;;
         let approximateOutUsd :=
           nullish (nullish approxOut1 approxOut2) approxOut3 in
         let totalFeesUsd :=
           match approximateInUsd, approximateOutUsd with
           | Some inUsd, Some outUsd =>
               Some (Number.max (Number.sub inUsd outUsd) (Number.of_Z 0))
           | _, _ => None
           end in
         match DecimalUtils.calculateEffectiveRate fromAmount toAmount
                 (decimals (source route)) (decimals (destination route)) with
         | Throw e => throw e
         | Ok rate =>
             quotedAt <- now ;;
             ret {| rate_source := source route;
                    rate_destination := destination route;
                    amountIn := fromAmount;
                    amountOut := toAmount;
                    effectiveRate := rate;
                    totalFeesUsd := totalFeesUsd;
                    quotedAt := quotedAt |}
         end
   end)%js.

(** The inner loop of [getRates]: [for (const notional of notionals)]. *)
Fixpoint rates_of_route (route : Route) (notionals : list string)
  (rates : list Rate) : SM (list Rate) :=
  match notionals with
  | [] => ret rates
  | notional :: rest =>
      if invalid_notional notional
      then rates_of_route route rest rates
      else
        (rates <- try_catch
                    (rate <- rate_for route notional ;; ret (rates ++ [rate])%list)
                    (fun _ => ret rates) ;;
         rates_of_route route rest rates)%js
  end.

(** The outer loop of [getRates]: [for (const route of routes)]. *)
Fixpoint rates_of_routes (routes : list Route) (notionals : list string)
  (rates : list Rate) : SM (list Rate) :=
  match routes with
  | [] => ret rates
  | route :: rest =>
      (rates <- rates_of_route route notionals rates ;;
       rates_of_routes rest notionals rates)%js
  end.

(** [getRates(routes, notionals)] *)
Definition getRates (routes : list Route) (notionals : list string)
  : SM (list Rate) :=
  match routes, notionals with
  | [], _ | _, [] =>
      throw (Err "Routes and notionals are required for rate fetching")
  | _, _ => rates_of_routes routes notionals []
  end.

(** How an iteration of the loop of [fetchQuoteWithRetry] ends:
    [return result] or [continue]. *)
Inductive QuoteStep : Type :=
| Done (result : option DeBridgeQuote)
| Again.

(** [retryDelays[attempt] || 4000] with [retryDelays = [1000, 2000, 4000]] *)
Definition retryDelay (attempt : Z) : Number.t :=
  if (attempt =? 0)%Z then Number.of_Z 1000
  else if (attempt =? 1)%Z then Number.of_Z 2000
  else Number.of_Z 4000.

(** One iteration of the loop of [fetchQuoteWithRetry]. *)
Definition quote_attempt (url : string) (attempt maxRetries : Z)
  : SM QuoteStep :=
  try_catch
    (acquire ;;;
     response <- in_world (fetch url) ;;
     if negb (ok response) then
       if ((attempt <? maxRetries)
           && ((500 <=? status response) || (status response =? 429)))%Z
       then in_world (sleep (retryDelay attempt)) ;;; ret Again
       else ret (Done None)
     else
       payload <- in_world (json response) ;;
       match estimation (as_quote payload) with
       | None => ret (Done None)
       | Some _ => ret (Done (Some (as_quote payload)))
       end)%js
    (fun error =>
       let isTimeout := includes "timeout" (message error)
                        || includes "aborted" (message error) in
       let isNetwork := includes "fetch" (message error)
                        || includes "network" (message error) in
       if (attempt <? maxRetries)%Z && (isTimeout || isNetwork)
       then (in_world (sleep (retryDelay attempt)) ;;; ret Again)%js
       else ret (Done None)).

Fixpoint quote_loop (remaining : nat) (url : string) (attempt maxRetries : Z)
  : SM (option DeBridgeQuote) :=
  match remaining with
  | O => ret None
  | S remaining' =>
      (step <- quote_attempt url attempt maxRetries ;;
       match step with
       | Done result => ret result
       | Again => quote_loop remaining' url (attempt + 1) maxRetries
       end)%js
  end.

(** [fetchQuoteWithRetry(source, destination, amount, maxRetries = 3)] *)
Definition fetchQuoteWithRetry (src dst : Asset) (amount : string)
  (maxRetries : option Z) : SM (option DeBridgeQuote) :=
  let maxRetries := match maxRetries with Some n => n | None => 3 end in
  (svc <- this ;;
   url <- in_world (new_URL (dlnApiBase svc ++ "/dln/order/create-tx")) ;;
   let url := probe_quote_url url src dst amount in
   quote_loop (Z.to_nat (maxRetries + 1)) url 0 maxRetries)%js.

(** The 100 bps amount of [getLiquidityDepth]: the source amount scaled by
    [maxDest / recommendedDest], or the source amount itself when a value
    is missing or does not parse. *)
Definition max_source (srcAmount recommendedDest : string)
  (maxDest : option string) : string :=
  match maxDest with
  | Some maxDest =>
      if truthy maxDest && negb (String.eqb recommendedDest "0") then
        match BigInt_of_string srcAmount,
              BigInt_of_string recommendedDest,
              BigInt_of_string maxDest with
        | Some srcBig, Some recommendedBig, Some maxBig =>
            if (0 <? recommendedBig)%Z
            then string_of_Z (Z.quot (srcBig * maxBig) recommendedBig)
            else srcAmount
        | _, _, _ => srcAmount
        end
      else srcAmount
  | None => srcAmount
  end.

(** The body of the loop of [getLiquidityDepth] for one route, inside its
    [try]; [None] stands for [continue]. *)
Definition liquidity_for (route : Route) : SM (option LiquidityDepth) :=
  if (decimals (source route) <? 0)%Z then ret None
  else
    let referenceAmount := string_of_Z (1000 * 10 ^ decimals (source route)) in
    (quote <- fetchQuoteWithRetry (source route) (destination route)
                referenceAmount None ;;
     match quote with
     | None => ret None
     | Some quote =>
         match estimation quote with
         | None => ret None
         | Some est =>
             let srcAmount :=
               nullish
                 (match srcChainTokenIn est with
                  | Some srcToken => in_amount srcToken
                  | None => None
                  end)
                 (Some referenceAmount) in
             let recommendedDest :=
               match dstChainTokenOut est with
               | Some dstToken =>
                   nullish (out_recommendedAmount dstToken) (out_amount dstToken)
               | None => None
               end in
             let maxDest :=
               nullish
                 (match dstChainTokenOut est with
                  | Some dstToken => out_maxTheoreticalAmount dstToken
                  | None => None
                  end)
                 recommendedDest in
             match srcAmount, recommendedDest with
             | Some srcAmount, Some recommendedDest =>
                 if negb (truthy srcAmount) || negb (truthy recommendedDest)
                 then ret None
                 else
                   let maxSource :=
                     max_source srcAmount recommendedDest maxDest in
                   measuredAt <- now ;;
                   ret (Some
                     {| liquidity_route := route;
                        thresholds :=
                          [ {| maxAmountIn := srcAmount; slippageBps := 50 |};
                            {| maxAmountIn := maxSource; slippageBps := 100 |} ];
                        liquidity_measuredAt := measuredAt |})
             | _, _ => ret None
             end
         end
     end)%js.

Fixpoint liquidity_of_routes (routes : list Route)
  (liquidity : list LiquidityDepth) : SM (list LiquidityDepth) :=
  match routes with
  | [] => ret liquidity
  | route :: rest =>
      (entry <- try_catch (liquidity_for route) (fun _ => ret None) ;;
       match entry with
       | Some depth => liquidity_of_routes rest (liquidity ++ [depth])%list
       | None => liquidity_of_routes rest liquidity
       end)%js
  end.

(** [getLiquidityDepth(routes)] *)
Definition getLiquidityDepth (routes : list Route) : SM (list LiquidityDepth) :=
  liquidity_of_routes routes [].

(** *** Route intelligence *)

Record ProbeQuote : Type := {
  amountUsd : Z;
  probe_effectiveRate : Number.t;
  failed : bool
}.

Definition probeSizesUsd : list Z :=
  [1000; 5000; 10000; 50000; 100000; 500000; 1000000; 5000000]%Z.

Definition failed_probe (sizeUsd : Z) : ProbeQuote :=
  {| amountUsd := sizeUsd; probe_effectiveRate := Number.of_Z 0;
     failed := true |}.

(** [Number(x)] for a string that may be missing. *)
Definition Number_of (x : option string) : Number.t :=
  match x with
  | Some s => Number_of_string s
  | None => Number.NaN
  end.

(** [String(Math.floor(sizeUsd * Math.pow(10, sourceDecimals)))] *)
Definition probe_amountIn (sizeUsd sourceDecimals : Z) : string :=
  String_of_floor
    (Number.mul (Number.of_Z sizeUsd)
       (Number.of_Q (DecimalJs.pow10 sourceDecimals))).

(** One probe: the entry pushed to [quotes]. *)
Definition probe (route : Route) (sizeUsd : Z) : SM ProbeQuote :=
  let amountIn := probe_amountIn sizeUsd (decimals (source route)) in
  try_catch
    (quote <- fetchQuoteWithRetry (source route) (destination route)
                amountIn None ;;
     match quote with
     | Some quote =>
         match estimation quote with
         | Some est =>
             dstAmount <- field (dstChainTokenOut est) out_amount ;;
             srcAmount <- field (srcChainTokenIn est) in_amount ;;
             ret {| amountUsd := sizeUsd;
                    probe_effectiveRate :=
                      Number.div (Number_of dstAmount) (Number_of srcAmount);
                    failed := false |}
         | None => ret (failed_probe sizeUsd)
         end
     | None => ret (failed_probe sizeUsd)
     end)%js
    (fun _ => ret (failed_probe sizeUsd)).

(** [for (const sizeUsd of probeSizesUsd)]: a failed probe ends the loop,
    a successful one is followed by a pause of 200 ms. *)
Fixpoint probe_sizes (route : Route) (sizes : list Z)
  (quotes : list ProbeQuote) : SM (list ProbeQuote) :=
  match sizes with
  | [] => ret quotes
  | sizeUsd :: rest =>
      (entry <- probe route sizeUsd ;;
       if failed entry
       then ret (quotes ++ [entry])%list
       else
         in_world (sleep (Number.of_Z 200)) ;;;
         probe_sizes route rest (quotes ++ [entry])%list)%js
  end.

(** [a.reduce((x, y) => x + y, 0)] *)
Definition sum (xs : list Number.t) : Number.t :=
  fold_left Number.add xs (Number.of_Z 0).

(** [Math.max(...xs)] *)
Definition maximum (xs : list Number.t) : Number.t :=
  fold_left Number.max xs Number.neg_Infinity.

Definition length_number {A} (xs : list A) : Number.t :=
  Number.of_Z (Z.of_nat (List.length xs)).

(** The score of the rates of the successful probes; [Math.pow(x, 2)] is
    taken as the correctly rounded square. *)
Definition fee_efficiency (rates : list Number.t) : Number.t :=
  let avgRate := Number.div (sum rates) (length_number rates) in
  let variance :=
    Number.div
      (fold_left
         (fun acc r =>
            Number.add acc
              (Number.mul (Number.sub r avgRate) (Number.sub r avgRate)))
         rates (Number.of_Z 0))
      (length_number rates) in
  let stdDev := Number.sqrt variance in
  Number.max (Number.of_Z 0)
    (Number.min (Number.of_Z 100)
       (Number.sub (Number.of_Z 100)
          (Number.mul (Number.div stdDev avgRate) (Number.of_Z 100)))).

(** [quotes.find(q => q.amountUsd === size)] *)
Definition find_size (size : Z) (quotes : list ProbeQuote)
  : option ProbeQuote :=
  find (fun q => (amountUsd q =? size)%Z) quotes.

(** [Math.round((1 - q.effectiveRate / baseline.effectiveRate) * 10000)] *)
Definition impact (baseline q : ProbeQuote) : Number.t :=
  Number.round
    (Number.mul
       (Number.sub (Number.of_Z 1)
          (Number.div (probe_effectiveRate q) (probe_effectiveRate baseline)))
       (Number.of_Z 10000)).

(** The analysis of the probes of one route. *)
Definition analyze (route : Route) (quotes : list ProbeQuote) (measuredAt : Z)
  : RouteIntelligence :=
  let successfulQuotes := filter (fun q => negb (failed q)) quotes in
  let maxCapacityUsd :=
    match rev successfulQuotes with
    | last :: _ => Some (amountUsd last)
    | [] => None
    end in
  let feeEfficiencyScore :=
    if (2 <=? Z.of_nat (List.length successfulQuotes))%Z
    then Some (fee_efficiency (map probe_effectiveRate successfulQuotes))
    else None in
  let optimalRangeUsd :=
    if (2 <=? Z.of_nat (List.length successfulQuotes))%Z then
      let bestRate := maximum (map probe_effectiveRate successfulQuotes) in
      let optimalQuotes :=
        filter
          (fun q =>
             Number.leb (Number.mul bestRate (Number.of_Q (99 # 100)))
               (probe_effectiveRate q))
          successfulQuotes in
      match optimalQuotes, rev optimalQuotes with
      | first :: _, last :: _ => Some (amountUsd first, amountUsd last)
      | _, _ => None
      end
    else None in
  let baselineQuote := find_size 1000 successfulQuotes in
  let quote10k := find_size 10000 successfulQuotes in
  let quote100k := find_size 100000 successfulQuotes in
  {| intelligence_route := route;
     maxCapacityUsd := maxCapacityUsd;
     optimalRangeUsd := optimalRangeUsd;
     feeEfficiencyScore := feeEfficiencyScore;
     priceImpactBps :=
       {| at1k := match baselineQuote with
                  | Some _ => Some (Number.of_Z 0)
                  | None => None
                  end;
          at10k := match baselineQuote, quote10k with
                   | Some baseline, Some q => Some (impact baseline q)
                   | _, _ => None
                   end;
          at100k := match baselineQuote, quote100k with
                    | Some baseline, Some q => Some (impact baseline q)
                    | _, _ => None
                    end |};
     intelligence_measuredAt := measuredAt |}.

Definition null_intelligence (route : Route) (measuredAt : Z)
  : RouteIntelligence :=
  {| intelligence_route := route;
     maxCapacityUsd := None;
     optimalRangeUsd := None;
     feeEfficiencyScore := None;
     priceImpactBps := {| at1k := None; at10k := None; at100k := None |};
     intelligence_measuredAt := measuredAt |}.

(** The body of the loop of [getRouteIntelligence] for one route. *)
Definition intelligence_for (route : Route) (measuredAt : Z)
  : SM RouteIntelligence :=
  try_catch
    (quotes <- probe_sizes route probeSizesUsd [] ;;
     ret (analyze route quotes measuredAt))%js
    (fun _ => ret (null_intelligence route measuredAt)).

Fixpoint intelligence_of_routes (routes : list Route) (measuredAt : Z)
  (intelligence : list RouteIntelligence) : SM (list RouteIntelligence) :=
  match routes with
  | [] => ret intelligence
  | route :: rest =>
      (entry <- intelligence_for route measuredAt ;;
       intelligence_of_routes rest measuredAt (intelligence ++ [entry])%list)%js
  end.

(** [getRouteIntelligence(routes)] *)
Definition getRouteIntelligence (routes : list Route)
  : SM (list RouteIntelligence) :=
  (measuredAt <- now ;;
   intelligence_of_routes routes measuredAt [])%js.

(** *** Volumes *)

(** [parseDefiLlamaResponse(raw)] *)
Definition parseDefiLlamaResponse (raw : Json)
  : option DefiLlamaBridgeResponse :=
  match raw with
  | JVolumes r =>
      match raw_lastDailyVolume r, raw_weeklyVolume r, raw_monthlyVolume r with
      | Some d, Some w, Some m =>
          Some {| lastDailyVolume := d; weeklyVolume := w; monthlyVolume := m |}
      | _, _, _ => None
      end
  | _ => None
  end.

Definition set_volumeCache (data : option DefiLlamaBridgeResponse) : SM unit :=
  (fetchedAt <- now ;;
   fun st =>
     (Ok tt,
      (with_volumeCache (fst st)
         (Some {| volume_data := data; volume_fetchedAt := fetchedAt |}),
       snd st)))%js.

(** [url.replace(/\/$/, "")] *)
Fixpoint strip_trailing_slash (s : string) : string :=
  match s with
  | EmptyString => EmptyString
  | String "/"%char EmptyString => EmptyString
  | String c rest => String c (strip_trailing_slash rest)
  end.

(** The request of [fetchDefiLlamaVolumes], inside its [try]. *)
Definition request_volumes (url : string)
  : SM (option DefiLlamaBridgeResponse) :=
  (acquire ;;;
   response <- in_world (fetch url) ;;
   if negb (ok response) then set_volumeCache None ;;; ret None
   else
     raw <- in_world (json response) ;;
     match parseDefiLlamaResponse raw with
     | None => set_volumeCache None ;;; ret None
     | Some data => set_volumeCache (Some data) ;;; ret (Some data)
     end)%js.

(** [fetchDefiLlamaVolumes()] *)
Definition fetchDefiLlamaVolumes : SM (option DefiLlamaBridgeResponse) :=
  (svc <- this ;;
   let url := strip_trailing_slash (defillamaBaseUrl svc)
              ++ "/bridge/" ++ DEBRIDGE_LLAMA_ID in
   match volumeCache svc with
   | Some cached =>
       t <- now ;;
       if (t - volume_fetchedAt cached <? VOLUME_CACHE_TTL)%Z
       then ret (volume_data cached)
       else try_catch (request_volumes url) (fun _ => ret None)
   | None => try_catch (request_volumes url) (fun _ => ret None)
   end)%js.

Definition volume_of (bridgeData : DefiLlamaBridgeResponse) (w : Window)
  : Number.t :=
  match w with
  | W24h => lastDailyVolume bridgeData
  | W7d => weeklyVolume bridgeData
  | W30d => monthlyVolume bridgeData
  end.

(** [getVolumes(windows)] *)
Definition getVolumes (windows : list Window) : SM (list VolumeWindow) :=
  try_catch
    (bridgeData <- fetchDefiLlamaVolumes ;;
     match bridgeData with
     | None => ret []
     | Some bridgeData =>
         measuredAt <- now ;;
         ret (map (fun w => {| window := w;
                               volumeUsd := volume_of bridgeData w;
                               volume_measuredAt := measuredAt |})
                  windows)
     end)%js
    (fun _ => ret []).

(** *** Listed assets *)

Definition lower_char (c : ascii) : ascii :=
  let n := N_of_ascii c in
  if (((65 <=? n) && (n <=? 90))
      || ((192 <=? n) && (n <=? 222) && negb (n =? 215)))%N
  then ascii_of_N (n + 32) else c.

(** [s.toLowerCase()] *)
Fixpoint toLowerCase (s : string) : string :=
  match s with
  | EmptyString => EmptyString
  | String c rest => String (lower_char c) (toLowerCase rest)
  end.

Definition mem (x : string) (xs : list string) : bool :=
  existsb (String.eqb x) xs.

(** [new Set(values)]: the values in order of first occurrence. *)
Fixpoint distinct (xs seen : list string) : list string :=
  match xs with
  | [] => []
  | x :: rest =>
      if mem x seen then distinct rest seen
      else x :: distinct rest (x :: seen)
  end.

(** The assets collected so far, with the keys already seen. *)
Record Collected : Type := {
  collected_assets : list Asset;
  collected_seen : list string
}.

(** The loop over a cached token list. *)
Fixpoint collect_cached (chainIdStr : string) (tokens : list Asset)
  (acc : Collected) : Collected :=
  match tokens with
  | [] => acc
  | token :: rest =>
      let key := chainIdStr ++ ":" ++ toLowerCase (assetId token) in
      if mem key (collected_seen acc)
      then collect_cached chainIdStr rest acc
      else collect_cached chainIdStr rest
             {| collected_assets := (collected_assets acc ++ [token])%list;
                collected_seen := key :: collected_seen acc |}
  end.

(** The loop over a fetched token list: the assets of the chain, and the
    assets collected so far. *)
Fixpoint collect_fetched (chainIdStr : string) (tokens : list DeBridgeTokenInfo)
  (chainAssets : list Asset) (acc : Collected) : list Asset * Collected :=
  match tokens with
  | [] => (chainAssets, acc)
  | token :: rest =>
      match token_address token with
      | None => collect_fetched chainIdStr rest chainAssets acc
      | Some address =>
          if negb (truthy address)
          then collect_fetched chainIdStr rest chainAssets acc
          else
            let assetId := toLowerCase address in
            let key := chainIdStr ++ ":" ++ assetId in
            if mem key (collected_seen acc)
            then collect_fetched chainIdStr rest chainAssets acc
            else
              let asset :=
                {| chainId := chainIdStr;
                   assetId := assetId;
                   symbol := match token_symbol token with
                             | Some sym => sym
                             | None => address
                             end;
                   decimals := match token_decimals token with
                               | Some d => d
                               | None => 18
                               end |} in
              collect_fetched chainIdStr rest (chainAssets ++ [asset])%list
                {| collected_assets := (collected_assets acc ++ [asset])%list;
                   collected_seen := key :: collected_seen acc |}
      end
  end.

(** The request for the token list of one chain, inside its [try]. *)
Definition request_token_list (chainIdStr : string) (acc : Collected)
  : SM Collected :=
  (acquire ;;;
   svc <- this ;;
   let url := dlnApiBase svc ++ "/token-list?chainId="
              ++ encodeURIComponent chainIdStr in
   response <- in_world (fetch url) ;;
   if negb (ok response) then ret acc
   else
     tokenList <- in_world (json response) ;;
     match tokenList with
     | JTokenList (Some tokens) =>
         let (chainAssets, acc') :=
           collect_fetched chainIdStr tokens [] acc in
         fetchedAt <- now ;;
         (fun st =>
            (Ok acc',
             (with_tokenListCache (fst st)
                (JSMap.set chainIdStr
                   {| token_assets := chainAssets;
                      token_fetchedAt := fetchedAt |}
                   (tokenListCache (fst st))),
              snd st)))
     | _ => ret acc
     end)%js.

(** [for (const chainId of chainIds)] *)
Fixpoint assets_of_chains (chainIds : list string) (acc : Collected)
  : SM Collected :=
  match chainIds with
  | [] => ret acc
  | chainIdStr :: rest =>
      if negb (truthy chainIdStr) then assets_of_chains rest acc
      else
        (svc <- this ;;
         match JSMap.get chainIdStr (tokenListCache svc) with
         | Some cached =>
             t <- now ;;
             if (t - token_fetchedAt cached <? TOKEN_LIST_TTL)%Z
             then assets_of_chains rest
                    (collect_cached chainIdStr (token_assets cached) acc)
             else
               acc <- try_catch (request_token_list chainIdStr acc)
                        (fun _ => ret acc) ;;
               assets_of_chains rest acc
         | None =>
             acc <- try_catch (request_token_list chainIdStr acc)
                      (fun _ => ret acc) ;;
             assets_of_chains rest acc
         end)%js
  end.

(** [getListedAssets(routes)] *)
Definition getListedAssets (routes : list Route) : SM ListedAssets :=
  (measuredAt <- now ;;
   let chainIds :=
     distinct
       (flat_map (fun route => [chainId (source route);
                                chainId (destination route)]) routes) [] in
   acc <- assets_of_chains chainIds
            {| collected_assets := []; collected_seen := [] |} ;;
   ret {| assets := collected_assets acc; assets_measuredAt := measuredAt |})%js.

(** *** The snapshot *)

Record SnapshotParams : Type := {
  routes : list Route;
  notionals : list string;
  includeWindows : option (list Window);
  includeIntelligence : option bool
}.

Definition is_empty {A} (xs : list A) : bool :=
  match xs with [] => true | _ :: _ => false end.

(** The inner [try] block of [getSnapshot]: the four base fetches of
    [Promise.all], taken one after the other (they share only the rate
    limiter, the clock and the network), then the optional intelligence. *)
Definition fetch_snapshot (params : SnapshotParams) : SM ProviderSnapshot :=
  (volumes <- getVolumes
                (match includeWindows params with
                 | Some windows => windows
                 | None => [W24h]
                 end) ;;
   rates <- getRates (routes params) (notionals params) ;;
   liquidity <- getLiquidityDepth (routes params) ;;
   listedAssets <- getListedAssets (routes params) ;;
   routeIntelligence <-
     match includeIntelligence params with
     | Some true =>
         intelligence <- getRouteIntelligence (routes params) ;;
         ret (Some intelligence)
     | _ => ret None
     end ;;
   ret {| volumes := volumes;
          rates := rates;
          liquidity := liquidity;
          listedAssets := listedAssets;
          routeIntelligence := routeIntelligence |})%js.

(** [getSnapshot(params)], run as a promise. *)
Definition getSnapshot (params : SnapshotParams) : SM ProviderSnapshot :=
  if is_empty (routes params) || is_empty (notionals params)
  then throw (Err "Routes and notionals are required")
  else
    try_catch
      (try_catch (fetch_snapshot params)
         (fun error =>
            throw (Err ("Snapshot fetch failed: " ++ message error))))
      (fun error =>
         throw (Err ("Failed to fetch snapshot: " ++ message error))).

(** *** Health check *)

Record Pong : Type := {
  pong_status : string;
  pong_timestamp : Z
}.

(** [ping()], run as a promise: one retry, 500 ms base delay; whatever the
    request does is caught and only logged. *)
Definition ping : SM Pong :=
  try_catch
    (svc <- this ;;
     try_catch
       (in_world
          (HttpUtils.fetchWithRetry
             (dlnApiBase svc ++ "/supported-chains-info")
             (Some 1%Z) (Some 500%Q)) ;;;
        ret tt)
       (fun _ => ret tt) ;;;
     timestamp <- now ;;
     ret {| pong_status := "ok"; pong_timestamp := timestamp |})%js
    (fun error => throw (Err ("Health check failed: " ++ message error))).

End DataProviderService.

(** ** Concrete requests for the service *)

Definition USDC_mainnet : Asset :=
  {| chainId := "1";
     assetId := "0xA0b86991c6218b36c1d19D4a2e9Eb0cE3606eB48";
     symbol := "USDC";
     decimals := 6 |}.

Definition USDC_polygon : Asset :=
  {| chainId := "137";
     assetId := "0x2791Bca1f2de4661ED88A30C99A7a9449Aa84174";
     symbol := "USDC";
     decimals := 6 |}.

Definition mockRoute : Route :=
  {| source := USDC_mainnet; destination := USDC_polygon |}.

(** The service as the plugin creates it, in a world where every request
    is answered with [resp]. *)
Definition service_against (resp : Response Json)
  : DataProviderService.t * World Json :=
  DataProviderService.create "https://dln.debridge.finance/v1.0"
    "https://bridges.llama.fi" "not-required" 30000 (Number.of_Z 10)
    (initial_world (constant_server resp)).

Definition internal_server_error : Response Json :=
  {| status := 500; statusText := "Internal Server Error";
     headers := {| retry_after := None;
                   content_type := Some "application/json"%string |};
     body := JsonBody JNull |}.

Definition quote_response (quote : DeBridgeQuote) : Response Json :=
  {| status := 200; statusText := "OK";
     headers := {| retry_after := None;
                   content_type := Some "application/json"%string |};
     body := JsonBody (JQuote quote) |}.

Definition quote_of (srcAmount dstAmount : string)
  (recommended maxTheoretical : option string) : DeBridgeQuote :=
  {| estimation := Some
       {| srcChainTokenIn := Some
            {| in_amount := Some srcAmount;
               in_approximateUsdValue := None;
               in_originApproximateUsdValue := None |};
          dstChainTokenOut := Some
            {| out_amount := Some dstAmount;
               out_recommendedAmount := recommended;
               out_maxTheoreticalAmount := maxTheoretical;
               out_approximateUsdValue := None;
               out_recommendedApproximateUsdValue := None;
               out_maxTheoreticalApproximateUsdValue := None |} |} |}.

(** What "stops at the first failed probe" says of the entries pushed for
    the probe sizes [sizes]: either every size was probed with success, or
    the probes succeeded up to a size whose probe failed, and no later size
    has an entry. *)
Definition stops_at_first_failure (sizes : list Z)
  (probed : list DataProviderService.ProbeQuote) : Prop :=
  (map DataProviderService.amountUsd probed = sizes /\
   Forall (fun q => DataProviderService.failed q = false) probed) \/
  (exists oks bad later,
     probed = oks ++ [bad] /\
     Forall (fun q => DataProviderService.failed q = false) oks /\
     DataProviderService.failed bad = true /\
     sizes = map DataProviderService.amountUsd oks
             ++ DataProviderService.amountUsd bad :: later).

(** The amounts of the thresholds of a liquidity entry, as integers. *)
Definition threshold_amounts (depth : LiquidityDepth) : list (option Z) :=
  map (fun point => BigInt_of_string (maxAmountIn point)) (thresholds depth).

(** ** A small world for concrete runs

    A clock value that operations may advance, and a count of the
    operations that actually ran. *)

Record TestWorld : Type := { tw_now : Z; tw_calls : nat }.

#[export] Instance Clock_TestWorld : Clock TestWorld :=
  fun w => (tw_now w, w).

(** An operation that takes [dt] milliseconds and then rejects. *)
Definition op_fail (dt : Z) : M TestWorld string :=
  fun w => (Throw (Err "HTTP 500: Internal Server Error"),
            {| tw_now := tw_now w + dt; tw_calls := S (tw_calls w) |}).

(** An operation that takes [dt] milliseconds and then resolves. *)
Definition op_ok (dt : Z) : M TestWorld string :=
  fun w => (Ok "quote"%string,
            {| tw_now := tw_now w + dt; tw_calls := S (tw_calls w) |}).

(** Waiting: nothing happens but the passage of [dt] milliseconds. *)
Definition elapse (dt : Z) (w : TestWorld) : TestWorld :=
  {| tw_now := tw_now w + dt; tw_calls := tw_calls w |}.

(** Consecutive calls of [execute] on one breaker, each awaited before the
    next is made; the results are dropped. *)
Fixpoint run_calls {W} `{Clock W} {T} (fns : list (M W T))
  (cb : CircuitBreaker.t) (w : W) : CircuitBreaker.t * W :=
  match fns with
  | [] => (cb, w)
  | fn :: rest =>
      let '(_, cb', w') := CircuitBreaker.execute fn cb w in
      run_calls rest cb' w'
  end.

Definition always_fails {W T} (fn : M W T) : Prop :=
  forall w, exists e w', fn w = (Throw e, w').

Definition always_succeeds {W T} (fn : M W T) : Prop :=
  forall w, exists v w', fn w = (Ok v, w').

(* ================================================================== *)
(** * Part II: properties                                              *)
(* ================================================================== *)

(** ** JavaScript [Map] *)

Section JSMapFacts.
Context {K V : Type} `{EqKey K}.
Implicit Types (m : JSMap.t K V) (k : K) (v : V).

Lemma key_eqb_refl k : key_eqb k k = true.
Proof. now apply key_eqb_eq. Qed.

Lemma key_eqb_neq k k' : k <> k' -> key_eqb k k' = false.
Proof.
  intros Hne. destruct (key_eqb k k') eqn:E; [|reflexivity].
  apply key_eqb_eq in E. contradiction.
Qed.

Lemma get_set_same k v m : JSMap.get k (JSMap.set k v m) = Some v.
Proof.
  induction m as [|[k' v'] m IH]; simpl.
  - now rewrite key_eqb_refl.
  - destruct (key_eqb k k') eqn:E; simpl.
    + now rewrite key_eqb_refl.
    + now rewrite E.
Qed.

Lemma get_set_other k k' v m :
  k' <> k -> JSMap.get k' (JSMap.set k v m) = JSMap.get k' m.
Proof.
  intros Hne. induction m as [|[k0 v0] m IH]; simpl.
  - now rewrite (key_eqb_neq _ _ Hne).
  - destruct (key_eqb k k0) eqn:E; simpl.
    + apply key_eqb_eq in E. subst k0.
      now rewrite (key_eqb_neq _ _ Hne).
    + now rewrite IH.
Qed.

Lemma get_not_in k m : ~ In k (JSMap.keys m) -> JSMap.get k m = None.
Proof.
  induction m as [|[k' v'] m IH]; simpl; [reflexivity|].
  intros Hn. rewrite key_eqb_neq by (intros ->; apply Hn; now left).
  apply IH. intros Hin. apply Hn. now right.
Qed.

Lemma get_in k m : In k (JSMap.keys m) -> exists v, JSMap.get k m = Some v.
Proof.
  induction m as [|[k' v'] m IH]; simpl; [contradiction|].
  intros [->|Hin].
  - rewrite key_eqb_refl. now exists v'.
  - destruct (key_eqb k k'); [now exists v'|now apply IH].
Qed.

Lemma keys_delete_incl k k' m :
  In k' (JSMap.keys (JSMap.delete k m)) -> In k' (JSMap.keys m).
Proof.
  induction m as [|[k0 v0] m IH]; simpl; [tauto|].
  destruct (key_eqb k k0); simpl; tauto.
Qed.

Lemma NoDup_delete k m :
  NoDup (JSMap.keys m) -> NoDup (JSMap.keys (JSMap.delete k m)).
Proof.
  induction m as [|[k0 v0] m IH]; simpl; intros Hnd; [constructor|].
  inversion Hnd as [|? ? Hnotin Hnd']; subst.
  destruct (key_eqb k k0); simpl; [assumption|].
  constructor; [|now apply IH].
  intros Hin. apply Hnotin. eapply keys_delete_incl; eassumption.
Qed.

Lemma get_delete_same k m :
  NoDup (JSMap.keys m) -> JSMap.get k (JSMap.delete k m) = None.
Proof.
  induction m as [|[k0 v0] m IH]; simpl; intros Hnd; [reflexivity|].
  inversion Hnd as [|? ? Hnotin Hnd']; subst.
  destruct (key_eqb k k0) eqn:E; simpl.
  - apply key_eqb_eq in E. subst k0. now apply get_not_in.
  - rewrite E. now apply IH.
Qed.

Lemma get_delete_other k k' m :
  k' <> k -> JSMap.get k' (JSMap.delete k m) = JSMap.get k' m.
Proof.
  intros Hne. induction m as [|[k0 v0] m IH]; simpl; [reflexivity|].
  destruct (key_eqb k k0) eqn:E; simpl.
  - apply key_eqb_eq in E. subst k0. now rewrite (key_eqb_neq _ _ Hne).
  - now rewrite IH.
Qed.

Lemma keys_set_in k v m :
  In k (JSMap.keys m) -> JSMap.keys (JSMap.set k v m) = JSMap.keys m.
Proof.
  induction m as [|[k0 v0] m IH]; simpl; [contradiction|].
  intros Hin. destruct (key_eqb k k0) eqn:E; simpl.
  - apply key_eqb_eq in E. now subst.
  - f_equal. apply IH. destruct Hin as [->|Hin]; [|assumption].
    now rewrite key_eqb_refl in E.
Qed.

Lemma keys_set_not_in k v m :
  ~ In k (JSMap.keys m) -> JSMap.keys (JSMap.set k v m) = JSMap.keys m ++ [k].
Proof.
  induction m as [|[k0 v0] m IH]; simpl; [reflexivity|].
  intros Hn. rewrite key_eqb_neq by (intros ->; apply Hn; now left).
  simpl. f_equal. apply IH. tauto.
Qed.

Lemma key_in_dec k (l : list K) : In k l \/ ~ In k l.
Proof.
  induction l as [|a l [IH|IH]]; simpl; [tauto| tauto |].
  destruct (key_eqb a k) eqn:E.
  - left. left. now apply key_eqb_eq.
  - right. intros [Heq|Hin]; [|contradiction].
    apply key_eqb_eq in Heq. congruence.
Qed.

Lemma NoDup_set k v m :
  NoDup (JSMap.keys m) -> NoDup (JSMap.keys (JSMap.set k v m)).
Proof.
  intros Hnd. destruct (key_in_dec k (JSMap.keys m)) as [Hin|Hn].
  - now rewrite keys_set_in.
  - rewrite keys_set_not_in by assumption.
    apply NoDup_app; [assumption|repeat constructor; intros []| ].
    intros x Hx [<-|[]]. contradiction.
Qed.

Lemma size_set_le k v m : JSMap.size (JSMap.set k v m) <= JSMap.size m + 1.
Proof.
  unfold JSMap.size. induction m as [|[k0 v0] m IH]; simpl List.length.
  - simpl. lia.
  - simpl. destruct (key_eqb k k0); simpl List.length; lia.
Qed.

End JSMapFacts.

(** ** [TTLCache] *)

Section TTLCacheFacts.
Context {K V : Type} `{EqKey K} {W : Type} `{Clock W}.
Implicit Types (c : TTLCache.t K V) (key : K) (v : V) (w : W).

(** The map from which [set] starts writing: the cache, less its oldest
    entry when the size bound is reached. *)
Definition after_eviction c : JSMap.t K (TTLCache.Entry V) :=
  if JSMap.size (TTLCache.cache c) >=? TTLCache.maxSize c
  then match JSMap.first_key (TTLCache.cache c) with
       | Some firstKey => JSMap.delete firstKey (TTLCache.cache c)
       | None => TTLCache.cache c
       end
  else TTLCache.cache c.

Lemma set_unfold key v c w :
  TTLCache.set key v c w =
  (TTLCache.with_cache c
     (JSMap.set key
        {| TTLCache.value := v;
           TTLCache.expiresAt := fst (Date_now w) + TTLCache.ttlMs c |}
        (after_eviction c)),
   snd (Date_now w)).
Proof.
  unfold TTLCache.set, after_eviction. now destruct (Date_now w).
Qed.

Lemma NoDup_after_eviction c :
  NoDup (JSMap.keys (TTLCache.cache c)) -> NoDup (JSMap.keys (after_eviction c)).
Proof.
  intros Hnd. unfold after_eviction.
  destruct (_ >=? _); [|assumption].
  destruct (JSMap.first_key _); [|assumption].
  now apply NoDup_delete.
Qed.

(** [set] keeps the keys of the underlying map unique. *)
Lemma set_NoDup key v c w :
  NoDup (JSMap.keys (TTLCache.cache c)) ->
  NoDup (JSMap.keys (TTLCache.cache (fst (TTLCache.set key v c w)))).
Proof.
  intros Hnd. rewrite set_unfold. simpl.
  now apply NoDup_set, NoDup_after_eviction.
Qed.

(** With a positive size bound, [set] never lets the cache grow past it. *)
Lemma set_size_bound key v c w :
  1 <= TTLCache.maxSize c ->
  JSMap.size (TTLCache.cache c) <= TTLCache.maxSize c ->
  JSMap.size (TTLCache.cache (fst (TTLCache.set key v c w)))
    <= TTLCache.maxSize c.
Proof.
  intros Hpos Hle. rewrite set_unfold. simpl.
  etransitivity; [apply size_set_le|].
  unfold after_eviction.
  destruct (Z.geb_spec (JSMap.size (TTLCache.cache c)) (TTLCache.maxSize c)) as [Hge|Hlt];
    [|lia].
  destruct (TTLCache.cache c) as [|[k0 e0] m] eqn:Ec; simpl.
  - unfold JSMap.size in *. simpl in *. lia.
  - rewrite key_eqb_refl. unfold JSMap.size in *. simpl List.length in *. lia.
Qed.

(** Inserting a key that is not cached into a full cache drops exactly the
    oldest-inserted entry and appends the new key. *)
Lemma set_full_new_key_evicts_oldest key v c w k0 e0 m :
  TTLCache.cache c = (k0, e0) :: m ->
  NoDup (JSMap.keys (TTLCache.cache c)) ->
  JSMap.size (TTLCache.cache c) >= TTLCache.maxSize c ->
  ~ In key (JSMap.keys (TTLCache.cache c)) ->
  JSMap.keys (TTLCache.cache (fst (TTLCache.set key v c w)))
    = JSMap.keys m ++ [key].
Proof.
  intros Ec Hnd Hfull Hnew. rewrite set_unfold. simpl.
  unfold after_eviction. rewrite Ec in *.
  destruct (Z.geb_spec (JSMap.size ((k0, e0) :: m)) (TTLCache.maxSize c)); [|lia].
  simpl. rewrite key_eqb_refl.
  apply keys_set_not_in. intros Hin. apply Hnew. now right.
Qed.

(** C6 (as amended): an entry written by [set] at time [t] expires at the
    absolute time [t + ttlMs].  A later [get] of the key returns the stored
    value as long as the clock has not passed the expiry time, the instant
    [t + ttlMs] itself included; once the clock is strictly past it, [get]
    returns nothing and deletes the entry, leaving all other keys alone. *)
Theorem ttl_cache_get_after_set :
  forall c key v w,
    NoDup (JSMap.keys (TTLCache.cache c)) ->
    let t := fst (Date_now w) in
    let c' := fst (TTLCache.set key v c w) in
    snd (TTLCache.set key v c w) = snd (Date_now w) /\
    JSMap.get key (TTLCache.cache c')
      = Some {| TTLCache.value := v;
                TTLCache.expiresAt := t + TTLCache.ttlMs c |} /\
    forall w2,
      let now := fst (Date_now w2) in
      (now <= t + TTLCache.ttlMs c ->
         TTLCache.get key c' w2 = (Some v, c', snd (Date_now w2))) /\
      (t + TTLCache.ttlMs c < now ->
         exists c'',
           TTLCache.get key c' w2 = (None, c'', snd (Date_now w2)) /\
           JSMap.get key (TTLCache.cache c'') = None /\
           forall k', k' <> key ->
             JSMap.get k' (TTLCache.cache c'')
               = JSMap.get k' (TTLCache.cache c')).
Proof.
  intros c key v w Hnd t c'.
  assert (Hget : JSMap.get key (TTLCache.cache c')
      = Some {| TTLCache.value := v;
                TTLCache.expiresAt := t + TTLCache.ttlMs c |}).
  { subst c' t. rewrite set_unfold. simpl. apply get_set_same. }
  split; [now rewrite set_unfold|]. split; [exact Hget|].
  intros w2 now. unfold TTLCache.get. rewrite Hget. subst now.
  destruct (Date_now w2) as [now w3]. simpl.
  split; intros Hcmp.
  - destruct (Z.gtb_spec now (t + TTLCache.ttlMs c)); [lia|reflexivity].
  - destruct (Z.gtb_spec now (t + TTLCache.ttlMs c)); [|lia].
    eexists. split; [reflexivity|]. simpl. split.
    + apply get_delete_same. now apply set_NoDup.
    + intros k' Hne. now apply get_delete_other.
Qed.

End TTLCacheFacts.

(** A run of [ttl_cache_get_after_set]: TTL 300000 ms, written at time 0,
    read back 1000 ms later. *)
Lemma ttl_cache_get_after_set_witness :
  TTLCache.get "k"%string
    (fst (TTLCache.set "k"%string "v"%string (TTLCache.create 300000 None)
            {| tw_now := 0; tw_calls := 0 |}))
    {| tw_now := 1000; tw_calls := 0 |}
  = (Some "v"%string,
     fst (TTLCache.set "k"%string "v"%string (TTLCache.create 300000 None)
            {| tw_now := 0; tw_calls := 0 |}),
     {| tw_now := 1000; tw_calls := 0 |}).
Proof.
  pose proof (ttl_cache_get_after_set
                (TTLCache.create 300000 None) "k"%string "v"%string
                {| tw_now := 0; tw_calls := 0 |}) as Hthm.
  simpl in Hthm.
  destruct (Hthm (NoDup_nil _)) as [_ [_ Hget]].
  destruct (Hget {| tw_now := 1000; tw_calls := 0 |}) as [Hfresh _].
  apply Hfresh. simpl. lia.
Defined.

(** C6, the claim as stated fails at the boundary: with [ttlMs = 100], an
    entry written at time 0 is still returned at time 100, when the full
    [ttlMs] has elapsed; it is gone only from time 101 on. *)
Lemma ttl_cache_expiry_boundary_counterexample :
  let w0 := {| tw_now := 0; tw_calls := 0 |} in
  let c := fst (TTLCache.set "k"%string "v"%string (TTLCache.create 100 None) w0) in
  fst (fst (TTLCache.get "k"%string c (elapse 100 w0))) = Some "v"%string /\
  tw_now (elapse 100 w0) - tw_now w0 = TTLCache.ttlMs c /\
  fst (fst (TTLCache.get "k"%string c (elapse 101 w0))) = None.
Proof. repeat split. Qed.

(** C7, the code at the failing input: a cache bounded to two entries holds
    keys a and b; overwriting b, which would leave the size at two, evicts
    a all the same. *)
Theorem ttl_cache_overwrite_evicts_oldest :
  let w0 := {| tw_now := 0; tw_calls := 0 |} in
  let c0 : TTLCache.t string string := TTLCache.create 300000 (Some 2) in
  let c1 := fst (TTLCache.set "a"%string "1"%string c0 w0) in
  let c2 := fst (TTLCache.set "b"%string "2"%string c1 w0) in
  let c3 := fst (TTLCache.set "b"%string "3"%string c2 w0) in
  JSMap.keys (TTLCache.cache c2) = ["a"%string; "b"%string] /\
  JSMap.keys (TTLCache.cache c3) = ["b"%string] /\
  fst (fst (TTLCache.get "a"%string c3 w0)) = None.
Proof. repeat split. Qed.

(** ** [CircuitBreaker] *)

Section CircuitBreakerFacts.
Import CircuitBreaker.
Context {W : Type} `{Clock W} {T : Type}.
Implicit Types (cb : CircuitBreaker.t) (fn : M W T) (w : W).

(** The constructor parameters never change. *)
Definition same_config cb cb' : Prop :=
  failureThreshold cb' = failureThreshold cb /\
  cooldownMs cb' = cooldownMs cb /\
  successThreshold cb' = successThreshold cb.

Lemma run_calls_app (fns1 fns2 : list (M W T)) cb w :
  run_calls (fns1 ++ fns2) cb w =
  let (cb1, w1) := run_calls fns1 cb w in run_calls fns2 cb1 w1.
Proof.
  revert cb w. induction fns1 as [|fn fns1 IH]; intros cb w; simpl.
  - reflexivity.
  - destruct (execute fn cb w) as [[r cb'] w']. apply IH.
Qed.

(** A failure of a CLOSED breaker below its threshold only counts. *)
Lemma execute_closed_failure_below fn cb w :
  state cb = CLOSED -> always_fails fn ->
  failureCount cb + 1 < failureThreshold cb ->
  exists e cb' w',
    execute fn cb w = (Throw e, cb', w') /\
    state cb' = CLOSED /\ failureCount cb' = failureCount cb + 1 /\
    same_config cb cb'.
Proof.
  intros Hst Hfail Hlt. unfold execute.
  destruct (Date_now w) as [now w0]. unfold gate. rewrite Hst. simpl.
  destruct (Hfail w0) as (e & w1 & ->). unfold onFailure. simpl. rewrite Hst. simpl.
  destruct (Z.geb_spec (failureCount cb + 1) (failureThreshold cb)); [lia|].
  exists e. eexists. exists w1. split; [reflexivity|]. simpl.
  repeat split; assumption.
Qed.

(** The failure that reaches the threshold opens the breaker; the cooldown
    is armed from the clock reading taken at that moment, which is the last
    thing the call does. *)
Lemma execute_closed_failure_trips fn cb w :
  state cb = CLOSED -> always_fails fn ->
  failureThreshold cb <= failureCount cb + 1 ->
  exists e cb' w' t w1,
    execute fn cb w = (Throw e, cb', w') /\
    Date_now w1 = (t, w') /\
    state cb' = OPEN /\ nextAttemptTime cb' = t + cooldownMs cb /\
    same_config cb cb'.
Proof.
  intros Hst Hfail Hge. unfold execute.
  destruct (Date_now w) as [now w0]. unfold gate. rewrite Hst. simpl.
  destruct (Hfail w0) as (e & w1 & ->). unfold onFailure. simpl. rewrite Hst. simpl.
  destruct (Z.geb_spec (failureCount cb + 1) (failureThreshold cb)); [|lia].
  destruct (Date_now w1) as [t w2] eqn:Et.
  exists e. eexists. exists w2, t, w1. split; [reflexivity|]. simpl.
  repeat split; assumption.
Qed.

Lemma run_calls_closed_failures (fns : list (M W T)) : forall cb w,
  state cb = CLOSED -> Forall always_fails fns ->
  failureCount cb + Z.of_nat (List.length fns) < failureThreshold cb ->
  state (fst (run_calls fns cb w)) = CLOSED /\
  failureCount (fst (run_calls fns cb w))
    = failureCount cb + Z.of_nat (List.length fns) /\
  same_config cb (fst (run_calls fns cb w)).
Proof.
  induction fns as [|fn fns IH]; intros cb w Hst Hall Hlt.
  - simpl. repeat split; [assumption|lia].
  - inversion Hall as [|? ? Hfn Hrest]; subst.
    cbn [List.length] in Hlt. rewrite Nat2Z.inj_succ in Hlt.
    destruct (execute_closed_failure_below fn cb w Hst Hfn ltac:(lia))
      as (e & cb' & w' & Hex & Hst' & Hfc' & Hcfg).
    cbn [run_calls]. rewrite Hex.
    destruct Hcfg as (Hft & Hcd & Hsu).
    destruct (IH cb' w' Hst' Hrest ltac:(rewrite Hfc', Hft; lia))
      as (Hs & Hf & (Hft' & Hcd' & Hsu')).
    cbn [List.length]. rewrite Nat2Z.inj_succ.
    repeat split; try congruence. lia.
Qed.

(** After [failureThreshold] consecutive failures a fresh breaker is OPEN
    and armed from the time of the last failure. *)
Lemma breaker_opens_after_threshold_failures ft cd st (fns : list (M W T)) w :
  1 <= ft -> Z.of_nat (List.length fns) = ft -> Forall always_fails fns ->
  let cb' := fst (run_calls fns (create ft cd st) w) in
  let w' := snd (run_calls fns (create ft cd st) w) in
  state cb' = OPEN /\
  exists t w1, Date_now w1 = (t, w') /\ nextAttemptTime cb' = t + cd.
Proof.
  intros Hpos Hlen Hall.
  assert (Hne : fns <> []) by (intros ->; simpl in Hlen; lia).
  destruct (exists_last Hne) as (init & fn & ->).
  apply Forall_app in Hall. destruct Hall as [Hinit Hlast].
  apply Forall_inv in Hlast. rename Hlast into Hfn.
  rewrite length_app in Hlen. simpl in Hlen.
  rewrite run_calls_app.
  pose proof (run_calls_closed_failures init (create ft cd st) w
                eq_refl Hinit) as Hrun.
  simpl in Hrun. specialize (Hrun ltac:(lia)).
  destruct (run_calls init (create ft cd st) w) as [cb1 w1].
  simpl in Hrun. destruct Hrun as (Hst & Hfc & (Hft & Hcd & Hsu)).
  simpl in Hfc, Hft, Hcd.
  destruct (execute_closed_failure_trips fn cb1 w1 Hst Hfn ltac:(lia))
    as (e & cb' & w' & t & w2 & Hex & Hnow & Hopen & Hnext & _).
  cbn [run_calls]. rewrite Hex. simpl.
  split; [assumption|]. exists t, w2. split; [assumption|]. congruence.
Qed.

(** While OPEN and before [nextAttemptTime], [execute] throws the
    breaker-open error; the result does not depend on the operation, the
    breaker is unchanged and the world has only seen the clock read. *)
Lemma execute_open_fails_fast fn cb w :
  state cb = OPEN ->
  fst (Date_now w) < nextAttemptTime cb ->
  execute fn cb w = (Throw breaker_open_error, cb, snd (Date_now w)).
Proof.
  intros Hst Hlt. unfold execute. destruct (Date_now w) as [now w0].
  simpl in *. unfold gate. rewrite Hst. simpl.
  destruct (Z.ltb_spec now (nextAttemptTime cb)); [reflexivity|lia].
Qed.

(** A success while CLOSED resets the failure counter. *)
Lemma execute_closed_success fn cb w v w1 :
  state cb = CLOSED ->
  fn (snd (Date_now w)) = (Ok v, w1) ->
  exists cb',
    execute fn cb w = (Ok v, cb', w1) /\
    state cb' = CLOSED /\ failureCount cb' = 0 /\
    successCount cb' = successCount cb.
Proof.
  intros Hst Hfn. unfold execute. destruct (Date_now w) as [now w0].
  simpl in Hfn. unfold gate. rewrite Hst. simpl. rewrite Hfn.
  eexists. split; [reflexivity|]. unfold onSuccess. simpl. rewrite Hst. simpl.
  repeat split; assumption.
Qed.

(** C3: starting from a fresh (CLOSED) breaker with a positive threshold,
    [failureThreshold] consecutive failed calls leave the breaker OPEN with
    [nextAttemptTime] equal to the clock reading taken when it opened plus
    [cooldownMs]; every [execute] on an OPEN breaker whose clock reading is
    before [nextAttemptTime] throws the breaker-open error whatever the
    operation is (so the operation is not run), leaves the breaker
    unchanged and only reads the clock; and a successful call of a CLOSED
    breaker resets [failureCount] to 0. *)
Theorem circuit_breaker_trips_and_fails_fast :
  (forall ft cd st (fns : list (M W T)) w,
     1 <= ft -> Z.of_nat (List.length fns) = ft -> Forall always_fails fns ->
     let cb' := fst (run_calls fns (create ft cd st) w) in
     let w' := snd (run_calls fns (create ft cd st) w) in
     state cb' = OPEN /\
     exists t w1, Date_now w1 = (t, w') /\ nextAttemptTime cb' = t + cd) /\
  (forall fn cb w,
     state cb = OPEN -> fst (Date_now w) < nextAttemptTime cb ->
     execute fn cb w = (Throw breaker_open_error, cb, snd (Date_now w))) /\
  (forall fn cb w v w1,
     state cb = CLOSED -> fn (snd (Date_now w)) = (Ok v, w1) ->
     exists cb',
       execute fn cb w = (Ok v, cb', w1) /\
       state cb' = CLOSED /\ failureCount cb' = 0).
Proof.
  split; [|split].
  - intros. now apply breaker_opens_after_threshold_failures.
  - intros. now apply execute_open_fails_fast.
  - intros fn cb w v w1 Hst Hfn.
    destruct (execute_closed_success fn cb w v w1 Hst Hfn)
      as (cb' & Hex & Hs & Hf & _).
    exists cb'. auto.
Qed.

End CircuitBreakerFacts.

(** A run of [circuit_breaker_trips_and_fails_fast]: the service's breaker
    [CircuitBreaker(5, 60000)], five failed calls of 10 ms each, then a call
    made at once, and a successful call on a fresh breaker. *)
Lemma circuit_breaker_trips_and_fails_fast_witness :
  let w0 := {| tw_now := 0; tw_calls := 0 |} in
  let fns := repeat (op_fail 10) 5 in
  let cb' := fst (run_calls fns (CircuitBreaker.create 5 60000 None) w0) in
  let w' := snd (run_calls fns (CircuitBreaker.create 5 60000 None) w0) in
  (CircuitBreaker.state cb' = CircuitBreaker.OPEN /\
   exists t w1, Date_now w1 = (t, w') /\
                CircuitBreaker.nextAttemptTime cb' = t + 60000) /\
  CircuitBreaker.execute (op_ok 10) cb' w'
    = (Throw CircuitBreaker.breaker_open_error, cb', snd (Date_now w')) /\
  exists cb'',
    CircuitBreaker.execute (op_ok 10) (CircuitBreaker.create 5 60000 None) w0
      = (Ok "quote"%string, cb'', {| tw_now := 10; tw_calls := 1 |}) /\
    CircuitBreaker.state cb'' = CircuitBreaker.CLOSED /\
    CircuitBreaker.failureCount cb'' = 0.
Proof.
  destruct (@circuit_breaker_trips_and_fails_fast TestWorld _ string)
    as (Htrip & Hfast & Hreset).
  split; [|split].
  - apply Htrip; [lia|reflexivity|].
    repeat constructor; intros w; eexists; eexists; reflexivity.
  - apply Hfast; [reflexivity|simpl; lia].
  - apply Hreset; reflexivity.
Defined.

Section CircuitBreakerHalfOpen.
Import CircuitBreaker.
Context {W : Type} `{Clock W} {T : Type}.
Implicit Types (cb : CircuitBreaker.t) (fn : M W T) (w : W).

(** The breaker with which a call made after the cooldown runs. *)
Definition half_opened cb : CircuitBreaker.t :=
  with_successCount (with_state cb HALF_OPEN) 0.

(** An OPEN breaker whose cooldown has expired behaves, for this call, as
    the HALF_OPEN breaker with a zero success counter. *)
Lemma execute_open_after_cooldown fn cb w :
  state cb = OPEN ->
  nextAttemptTime cb <= fst (Date_now w) ->
  execute fn cb w = execute fn (half_opened cb) w.
Proof.
  intros Hst Hge. unfold execute. destruct (Date_now w) as [now w0].
  simpl in Hge. unfold gate. rewrite Hst. simpl.
  destruct (Z.ltb_spec now (nextAttemptTime cb)); [lia|reflexivity].
Qed.

(** A HALF_OPEN (or CLOSED) breaker lets the call through: the operation
    runs once, in the world left by the clock read, and its outcome is the
    outcome of [execute]. *)
Lemma execute_not_open_runs fn cb w :
  state cb <> OPEN ->
  fst (fst (execute fn cb w)) = fst (fn (snd (Date_now w))) /\
  (forall v w1, fn (snd (Date_now w)) = (Ok v, w1) ->
     execute fn cb w = (Ok v, onSuccess cb, w1)) /\
  (forall e w1, fn (snd (Date_now w)) = (Throw e, w1) ->
     execute fn cb w = (Throw e, fst (onFailure cb w1), snd (onFailure cb w1))).
Proof.
  intros Hst. unfold execute. destruct (Date_now w) as [now w0]. simpl.
  unfold gate. destruct (state cb) eqn:Es; try congruence; simpl;
    destruct (fn w0) as [[v|e] w1]; simpl;
    (split; [try reflexivity; now destruct (onFailure cb w1)|]);
    (split; intros ? ? [= <- <-]; try reflexivity; now destruct (onFailure cb w1)).
Qed.

(** A failure while HALF_OPEN re-opens the breaker and re-arms the cooldown
    from the current time.  The success counter is reset; the failure
    counter is incremented. *)
Lemma onFailure_half_open cb w :
  state cb = HALF_OPEN ->
  let cb' := fst (onFailure cb w) in
  state cb' = OPEN /\
  nextAttemptTime cb' = fst (Date_now w) + cooldownMs cb /\
  snd (onFailure cb w) = snd (Date_now w) /\
  successCount cb' = 0 /\
  failureCount cb' = failureCount cb + 1.
Proof.
  intros Hst. unfold onFailure. simpl. rewrite Hst. simpl.
  destruct (Date_now w) as [now w']. simpl. repeat split.
Qed.

Lemma execute_success_step fn cb w :
  always_succeeds fn -> state cb <> OPEN ->
  exists v w1, execute fn cb w = (Ok v, onSuccess cb, w1).
Proof.
  intros Hok Hst. destruct (Hok (snd (Date_now w))) as (v & w1 & Hfn).
  exists v, w1.
  now apply (proj1 (proj2 (execute_not_open_runs fn cb w Hst))).
Qed.

Lemma run_calls_closed_successes (fns : list (M W T)) : forall cb w,
  Forall always_succeeds fns ->
  state cb = CLOSED -> failureCount cb = 0 -> successCount cb = 0 ->
  let cb' := fst (run_calls fns cb w) in
  state cb' = CLOSED /\ failureCount cb' = 0 /\ successCount cb' = 0.
Proof.
  induction fns as [|fn fns IH]; intros cb w Hall Hst Hfc Hsc; simpl.
  - auto.
  - inversion Hall as [|? ? Hfn Hrest]; subst.
    destruct (execute_success_step fn cb w Hfn ltac:(congruence))
      as (v & w1 & ->).
    apply IH; try assumption; unfold onSuccess; simpl; now rewrite Hst.
Qed.

Lemma run_calls_half_open_successes (fns : list (M W T)) : forall cb w,
  Forall always_succeeds fns ->
  state cb = HALF_OPEN ->
  (1 <= List.length fns)%nat ->
  successThreshold cb <= successCount cb + Z.of_nat (List.length fns) ->
  let cb' := fst (run_calls fns cb w) in
  state cb' = CLOSED /\ failureCount cb' = 0 /\ successCount cb' = 0.
Proof.
  induction fns as [|fn fns IH]; intros cb w Hall Hst Hlen Hthr.
  - simpl in Hlen. lia.
  - inversion Hall as [|? ? Hfn Hrest]; subst.
    cbn [run_calls].
    destruct (execute_success_step fn cb w Hfn ltac:(congruence))
      as (v & w1 & ->).
    cbn [List.length] in Hthr. rewrite Nat2Z.inj_succ in Hthr.
    unfold onSuccess. simpl. rewrite Hst. simpl.
    destruct (Z.geb_spec (successCount cb + 1) (successThreshold cb)) as [Hge|Hlt].
    + apply run_calls_closed_successes; auto.
    + apply IH; auto; simpl; lia.
Qed.

(** Successes that do not yet reach the threshold leave the breaker
    HALF_OPEN, each one counted. *)
Lemma run_calls_half_open_pending (fns : list (M W T)) : forall cb w,
  Forall always_succeeds fns ->
  state cb = HALF_OPEN ->
  successCount cb + Z.of_nat (List.length fns) < successThreshold cb ->
  let cb' := fst (run_calls fns cb w) in
  state cb' = HALF_OPEN /\
  successCount cb' = successCount cb + Z.of_nat (List.length fns).
Proof.
  induction fns as [|fn fns IH]; intros cb w Hall Hst Hlt.
  - simpl. split; [assumption|lia].
  - inversion Hall as [|? ? Hfn Hrest]; subst.
    cbn [run_calls].
    destruct (execute_success_step fn cb w Hfn ltac:(congruence))
      as (v & w1 & ->).
    cbn [List.length] in Hlt. rewrite Nat2Z.inj_succ in Hlt.
    assert (Hstep : state (onSuccess cb) = HALF_OPEN /\
                    successCount (onSuccess cb) = successCount cb + 1 /\
                    successThreshold (onSuccess cb) = successThreshold cb).
    { unfold onSuccess. simpl. rewrite Hst. simpl.
      destruct (Z.geb_spec (successCount cb + 1) (successThreshold cb));
        [lia|]. simpl. now repeat split. }
    destruct Hstep as (Hst' & Hsc' & Hthr').
    destruct (IH (onSuccess cb) w1 Hrest Hst' ltac:(lia)) as [Hs Hc].
    split; [exact Hs|]. cbn [List.length]. rewrite Hc, Hsc'. lia.
Qed.

(** C4 (as amended): an [execute] on an OPEN breaker at or after
    [nextAttemptTime] runs as on the HALF_OPEN breaker with the success
    counter reset, and the call is let through, as is every call made
    while the breaker is HALF_OPEN: the operation is run once and its
    outcome is the outcome of [execute].  The breaker decides after
    [successThreshold] consecutive successes, which restore CLOSED with
    both counters at 0 (fewer successes leave it HALF_OPEN), or at the
    first failure, which re-opens the breaker, re-arms the cooldown
    ([nextAttemptTime] is the clock reading at the failure plus
    [cooldownMs]) and resets the success counter; the failure counter is
    not reset but incremented. *)
Theorem circuit_breaker_half_open_protocol :
  (forall fn cb w,
     state cb = OPEN -> nextAttemptTime cb <= fst (Date_now w) ->
     execute fn cb w = execute fn (half_opened cb) w /\
     state (half_opened cb) = HALF_OPEN /\
     successCount (half_opened cb) = 0 /\
     fst (fst (execute fn cb w)) = fst (fn (snd (Date_now w)))) /\
  (forall fn cb w,
     state cb = HALF_OPEN ->
     fst (fst (execute fn cb w)) = fst (fn (snd (Date_now w)))) /\
  (forall (fns : list (M W T)) cb w,
     state cb = HALF_OPEN ->
     Forall always_succeeds fns ->
     successCount cb + Z.of_nat (List.length fns) < successThreshold cb ->
     let cb' := fst (run_calls fns cb w) in
     state cb' = HALF_OPEN /\
     successCount cb' = successCount cb + Z.of_nat (List.length fns)) /\
  (forall (fns : list (M W T)) cb w,
     state cb = HALF_OPEN -> 0 <= successCount cb ->
     1 <= successThreshold cb ->
     Z.of_nat (List.length fns) = successThreshold cb ->
     Forall always_succeeds fns ->
     let cb' := fst (run_calls fns cb w) in
     state cb' = CLOSED /\ failureCount cb' = 0 /\ successCount cb' = 0) /\
  (forall fn cb w e w1,
     state cb = HALF_OPEN ->
     fn (snd (Date_now w)) = (Throw e, w1) ->
     exists cb',
       execute fn cb w = (Throw e, cb', snd (Date_now w1)) /\
       state cb' = OPEN /\
       nextAttemptTime cb' = fst (Date_now w1) + cooldownMs cb /\
       successCount cb' = 0 /\
       failureCount cb' = failureCount cb + 1).
Proof.
  split; [|split; [|split; [|split]]].
  - intros fn cb w Hst Hge.
    pose proof (execute_open_after_cooldown fn cb w Hst Hge) as Heq.
    repeat split; [assumption|].
    rewrite Heq.
    apply (execute_not_open_runs fn (half_opened cb) w). discriminate.
  - intros fn cb w Hst.
    apply (execute_not_open_runs fn cb w). congruence.
  - intros fns cb w Hst Hall Hlt.
    now apply run_calls_half_open_pending.
  - intros fns cb w Hst Hsc Hthr Hlen Hall.
    apply run_calls_half_open_successes; auto; lia.
  - intros fn cb w e w1 Hst Hfn.
    destruct (execute_not_open_runs fn cb w ltac:(congruence)) as (_ & _ & Hf).
    rewrite (Hf e w1 Hfn).
    destruct (onFailure_half_open cb w1 Hst) as (Hs & Hn & Hw & Hsc & Hfc).
    exists (fst (onFailure cb w1)). rewrite Hw. auto.
Qed.

End CircuitBreakerHalfOpen.

(** The service's breaker after five failed calls and a wait of one
    cooldown: OPEN, with the cooldown expired. *)
Definition tripped_breaker : CircuitBreaker.t * TestWorld :=
  let run := run_calls (repeat (op_fail 10) 5)
               (CircuitBreaker.create 5 60000 None)
               {| tw_now := 0; tw_calls := 0 |} in
  (fst run, elapse 60000 (snd run)).

(** A run of [circuit_breaker_half_open_protocol]: the trial call after
    the cooldown, two successes that close the breaker again, and a trial
    call that fails. *)
Lemma circuit_breaker_half_open_protocol_witness :
  let cb := fst tripped_breaker in
  let w := snd tripped_breaker in
  (CircuitBreaker.execute (op_ok 10) cb w
     = CircuitBreaker.execute (op_ok 10) (half_opened cb) w /\
   fst (fst (CircuitBreaker.execute (op_ok 10) cb w)) = Ok "quote"%string) /\
  CircuitBreaker.state
    (fst (run_calls [op_ok 10; op_ok 10] (half_opened cb) w))
    = CircuitBreaker.CLOSED /\
  exists cb',
    CircuitBreaker.execute (op_fail 10) (half_opened cb) w
      = (Throw (Err "HTTP 500: Internal Server Error"), cb',
         {| tw_now := 60060; tw_calls := 6 |}) /\
    CircuitBreaker.state cb' = CircuitBreaker.OPEN /\
    CircuitBreaker.nextAttemptTime cb' = 60060 + 60000.
Proof.
  destruct (@circuit_breaker_half_open_protocol TestWorld _ string)
    as (Htrial & _ & _ & Hclose & Hreopen).
  split; [|split].
  - destruct (Htrial (op_ok 10) (fst tripped_breaker) (snd tripped_breaker))
      as (Heq & _ & _ & Hrun); [reflexivity|simpl; lia|].
    split; [exact Heq|exact Hrun].
  - apply Hclose; [reflexivity|simpl; lia|simpl; lia|reflexivity|].
    repeat constructor; intros w; eexists; eexists; reflexivity.
  - destruct (Hreopen (op_fail 10) (half_opened (fst tripped_breaker))
                (snd tripped_breaker) _ _ eq_refl eq_refl)
      as (cb' & Hex & Hst & Hnext & _).
    exists cb'. split; [exact Hex|]. split; [exact Hst|exact Hnext].
Defined.

(** C4, the claim as stated fails in two places.  "Resets the counters":
    the trial call of the tripped breaker fails, and the failure counter
    goes from 5 to 6 instead of back to 0 (only the success counter is
    reset).  "Exactly one call is allowed through before the breaker
    decides": with the service's breaker, whose success threshold is 2,
    the trial call succeeds and leaves the breaker HALF_OPEN, and a second
    call is let through as well before the breaker closes. *)
Lemma circuit_breaker_half_open_counterexample :
  let cb := fst tripped_breaker in
  let w := snd tripped_breaker in
  (let cb' := snd (fst (CircuitBreaker.execute (op_fail 10) cb w)) in
   CircuitBreaker.state cb = CircuitBreaker.OPEN /\
   CircuitBreaker.nextAttemptTime cb <= fst (Date_now w) /\
   CircuitBreaker.failureCount cb = 5 /\
   CircuitBreaker.state cb' = CircuitBreaker.OPEN /\
   CircuitBreaker.successCount cb' = 0 /\
   CircuitBreaker.failureCount cb' = 6 /\
   CircuitBreaker.failureCount cb' <> 0) /\
  (let first := CircuitBreaker.execute (op_ok 10) cb w in
   let second :=
     CircuitBreaker.execute (op_ok 10) (snd (fst first)) (snd first) in
   CircuitBreaker.successThreshold cb = 2 /\
   fst (fst first) = Ok "quote"%string /\
   CircuitBreaker.state (snd (fst first)) = CircuitBreaker.HALF_OPEN /\
   tw_calls (snd first) = S (tw_calls w) /\
   fst (fst second) = Ok "quote"%string /\
   CircuitBreaker.state (snd (fst second)) = CircuitBreaker.CLOSED /\
   tw_calls (snd second) = S (S (tw_calls w))).
Proof. repeat split; simpl; try lia; discriminate. Qed.

(** ** [HttpUtils.fetchWithRetry] *)

Section HttpFacts.
Import HttpUtils.
Context {J : Type}.
Implicit Types (w : World J) (url : string).

(** What a step leaves alone: the oracle, and so the server's behaviour. *)
Lemma calculateBackoffDelay_world attempt baseDelay w r w1 :
  calculateBackoffDelay attempt baseDelay w = (r, w1) ->
  (exists d, r = Ok d) /\ oracle w1 = oracle w /\ requests w1 = requests w /\
  count_fetches (trace w1) = count_fetches (trace w).
Proof.
  unfold calculateBackoffDelay.
  destruct (_ || _); simpl; intros [= <- <-]; simpl; eauto.
Qed.

Lemma retry_delay_world (resp : Response J) attempt baseDelay w r w1 :
  retry_delay resp attempt baseDelay w = (r, w1) ->
  (exists d, r = Ok d) /\ oracle w1 = oracle w /\ requests w1 = requests w /\
  count_fetches (trace w1) = count_fetches (trace w).
Proof.
  unfold retry_delay.
  destruct (retry_after (headers resp)) as [ra|];
    [|apply calculateBackoffDelay_world].
  destruct (truthy ra); [|apply calculateBackoffDelay_world].
  unfold ret. intros [= <- <-]. eauto.
Qed.

Lemma count_fetches_app (tr1 tr2 : list Event) :
  count_fetches (tr1 ++ tr2) = (count_fetches tr1 + count_fetches tr2)%nat.
Proof. unfold count_fetches. now rewrite filter_app, length_app. Qed.

(** One iteration's [try] block issues exactly one request; it returns only
    on a good response, and it asks for the next iteration only on a 429
    with retries left. *)
Lemma attempt_try_spec url attempt maxRetries baseDelay w r w1 :
  attempt_try url attempt maxRetries baseDelay w = (r, w1) ->
  oracle w1 = oracle w /\ requests w1 = S (requests w) /\
  count_fetches (trace w1) = S (count_fetches (trace w)) /\
  match r with
  | Ok (Return v) =>
      exists resp, network (oracle w) (requests w) url = Responds resp /\
                   good_response resp = true /\ body resp = JsonBody v
  | Ok Continue =>
      attempt < maxRetries /\
      exists resp, network (oracle w) (requests w) url = Responds resp /\
                   status resp = 429
  | Throw _ => True
  end.
Proof.
  assert (Hcount : count_fetches (trace w ++ [Fetched url])
                   = S (count_fetches (trace w))).
  { rewrite count_fetches_app, Nat.add_comm. reflexivity. }
  unfold attempt_try, bind at 1, fetch.
  destruct (network (oracle w) (requests w) url) as [resp|e] eqn:En; simpl;
    [|intros [= <- <-]; simpl; auto].
  unfold good_response, json_typed.
  destruct (ok resp) eqn:Eok; simpl.
  - unfold bind, try_catch, json, ret, throw.
    destruct (content_type (headers resp)) as [ct|] eqn:Ect; simpl;
      [|intros [= <- <-]; simpl; auto].
    destruct (includes "application/json" ct) eqn:Einc; simpl;
      [|intros [= <- <-]; simpl; auto].
    destruct (body resp) eqn:Eb; simpl; intros [= <- <-]; simpl; auto.
    repeat split; auto. exists resp. rewrite Eok, Ect, Einc, Eb. auto.
  - destruct (Z.eqb_spec (status resp) 429) as [E429|];
      [|unfold throw; intros [= <- <-]; simpl; auto].
    unfold bind at 1.
    match goal with
    | |- context [retry_delay resp attempt baseDelay ?w0] =>
        destruct (retry_delay resp attempt baseDelay w0) as [r0 w0'] eqn:Ed
    end.
    apply retry_delay_world in Ed. simpl in Ed.
    destruct Ed as ((d & ->) & Ho & Hr & Ht).
    destruct (Z.ltb_spec attempt maxRetries); unfold bind, sleep, ret, throw;
      intros [= <- <-]; simpl.
    + rewrite count_fetches_app, Ht. simpl. rewrite Nat.add_0_r.
      repeat split; auto. exists resp. auto.
    + rewrite Ht. auto.
Qed.

Lemma attempt_catch_spec attempt maxRetries baseDelay error w r w1 :
  attempt_catch attempt maxRetries baseDelay error w = (r, w1) ->
  r = Ok error /\ oracle w1 = oracle w /\ requests w1 = requests w /\
  count_fetches (trace w1) = count_fetches (trace w).
Proof.
  unfold attempt_catch.
  destruct (attempt <? maxRetries).
  - unfold bind at 1.
    destruct (calculateBackoffDelay attempt baseDelay w) as [r0 w0] eqn:Ec.
    apply calculateBackoffDelay_world in Ec.
    destruct Ec as ((d & ->) & Ho & Hr & Ht).
    unfold bind, sleep, ret. intros [= <- <-]. simpl.
    rewrite count_fetches_app, Ht. simpl. rewrite Nat.add_0_r. auto.
  - unfold ret. intros [= <- <-]. auto.
Qed.

(** The retry loop against an endpoint that never gives a usable response:
    every remaining iteration issues its request, whatever the reason of the
    failure, and the loop ends in the error that reports the attempts. *)
Lemma retry_loop_never_good url maxRetries baseDelay :
  forall remaining attempt lastError w r w1,
    never_good (oracle w) url ->
    attempt + Z.of_nat remaining = maxRetries + 1 ->
    lastError <> None \/ (1 <= remaining)%nat ->
    retry_loop remaining url attempt maxRetries baseDelay lastError w = (r, w1) ->
    (exists e, r = Throw (exhausted maxRetries (Some e))) /\
    oracle w1 = oracle w /\
    count_fetches (trace w1) = (count_fetches (trace w) + remaining)%nat.
Proof.
  induction remaining as [|remaining IH];
    intros attempt lastError w r w1 Hbad Hsum Hlast.
  - simpl. unfold throw. intros [= <- <-].
    destruct Hlast as [Hsome|Hrem]; [|lia].
    destruct lastError as [e|]; [|congruence].
    split; [now exists e|]. split; [reflexivity|lia].
  - cbn [retry_loop].
    destruct (attempt_try url attempt maxRetries baseDelay w) as [r0 w0] eqn:Et.
    apply attempt_try_spec in Et. destruct Et as (Ho & Hr & Hc & Hres).
    assert (Hbad0 : never_good (oracle w0) url) by now rewrite Ho.
    destruct r0 as [[v|]|e].
    + destruct Hres as (resp & Hn & Hgood & _).
      specialize (Hbad (requests w)). rewrite Hn in Hbad. congruence.
    + destruct Hres as (Hlt & _). intros Hloop.
      apply IH in Hloop; [|assumption|lia|right; lia].
      destruct Hloop as (He & Ho' & Hc').
      split; [exact He|]. split; [congruence|]. rewrite Hc', Hc. lia.
    + destruct (attempt_catch attempt maxRetries baseDelay e w0)
        as [r2 w2] eqn:Ec.
      apply attempt_catch_spec in Ec. destruct Ec as (-> & Ho2 & Hr2 & Hc2).
      intros Hloop.
      apply IH in Hloop; [|now rewrite Ho2|lia|left; discriminate].
      destruct Hloop as (He & Ho' & Hc').
      split; [exact He|]. split; [congruence|]. rewrite Hc', Hc2, Hc. lia.
Qed.

(** Against an endpoint that never gives a usable response (be it a 4xx, a
    5xx, a 429, a rejected request, a non-JSON content type or a body that
    does not parse), a well-formed call of [fetchWithRetry] makes exactly
    [maxRetries + 1] requests and then fails with the error that reports
    [maxRetries + 1] attempts. *)
Theorem fetchWithRetry_exhausts_budget url maxRetries baseDelay w r w1 :
  truthy url = true -> url_parses (oracle w) url = true ->
  0 <= maxRetries -> (0 <= baseDelay)%Q ->
  never_good (oracle w) url ->
  fetchWithRetry url (Some maxRetries) (Some baseDelay) w = (r, w1) ->
  (exists e, r = Throw (Err ("Request failed after "
                             ++ string_of_Z (maxRetries + 1)
                             ++ " attempts: " ++ message e))) /\
  count_fetches (trace w1)
    = (count_fetches (trace w) + Z.to_nat (maxRetries + 1))%nat.
Proof.
  intros Hurl Hparse Hmr Hbd Hbad. unfold fetchWithRetry.
  rewrite Hurl. simpl.
  destruct (Z.ltb_spec maxRetries 0); [lia|].
  assert (Hq : Qltb baseDelay 0 = false).
  { unfold Qltb. apply negb_false_iff. now apply Qle_bool_iff. }
  rewrite Hq. simpl.
  unfold bind at 1, try_catch, new_URL, bind at 1. rewrite Hparse. simpl.
  intros Hloop.
  apply retry_loop_never_good in Hloop; [|assumption|lia|right; lia].
  destruct Hloop as ((e & ->) & _ & Hc). split; [|exact Hc].
  exists e. reflexivity.
Qed.

End HttpFacts.

(** C2, the code at the failing inputs: with the default budget of three
    retries, an endpoint that answers 404 is requested four times with three
    backoff sleeps in between before the call fails, and so are an endpoint
    that answers 200 with an HTML content type and one whose JSON body does
    not parse.  The error reports [maxRetries + 1 = 4] attempts. *)
Theorem fetchWithRetry_retries_permanent_errors :
  let url := "https://dln.debridge.finance/v1.0/supported-chains-info"%string in
  let run (resp : Response string) :=
    HttpUtils.fetchWithRetry url None None (initial_world (constant_server resp)) in
  (fst (run not_found)
     = Throw (Err "Request failed after 4 attempts: HTTP 404: Not Found") /\
   count_fetches (trace (snd (run not_found))) = 4%nat /\
   count_sleeps (trace (snd (run not_found))) = 3%nat) /\
  (fst (run html_page)
     = Throw (Err "Request failed after 4 attempts: Invalid response headers") /\
   count_fetches (trace (snd (run html_page))) = 4%nat /\
   count_sleeps (trace (snd (run html_page))) = 3%nat) /\
  (fst (run broken_json)
     = Throw (Err "Request failed after 4 attempts: Unexpected token in JSON") /\
   count_fetches (trace (snd (run broken_json))) = 4%nat /\
   count_sleeps (trace (snd (run broken_json))) = 3%nat).
Proof. vm_compute. repeat split. Qed.

(** ** Decimal arithmetic *)

Section DecimalFacts.
Import DecimalJs.
Local Open Scope Q_scope.

Lemma pow10_pos e : 0 < pow10 e.
Proof. unfold pow10. now apply Qpower_0_lt. Qed.

Lemma pow10_add a b : pow10 (a + b) == pow10 a * pow10 b.
Proof. unfold pow10. now apply Qpower_plus. Qed.

Lemma pow10_inject (n : Z) : (0 <= n)%Z -> pow10 n == inject_Z (10 ^ n).
Proof. intros Hn. unfold pow10. now rewrite Zpower_Qpower. Qed.

Lemma pow10_le_mono a b : (a <= b)%Z -> pow10 a <= pow10 b.
Proof. intros Hab. unfold pow10. now apply Qpower_le_compat_l. Qed.

(** [digits10] counts decimal digits. *)
Lemma digits10_fuel_spec : forall fuel n,
  (0 < n)%Z -> (Z.log2 n < Z.of_nat fuel)%Z ->
  (1 <= digits10_fuel fuel n)%Z /\
  (10 ^ (digits10_fuel fuel n - 1) <= n < 10 ^ digits10_fuel fuel n)%Z.
Proof.
  induction fuel as [|fuel IH]; intros n Hpos Hlog.
  - pose proof (Z.log2_nonneg n). simpl in Hlog. lia.
  - cbn [digits10_fuel].
    destruct (Z.ltb_spec n 10) as [Hlt|Hge].
    + simpl. lia.
    + assert (Hdiv : (0 < n / 10)%Z) by (apply Z.div_str_pos; lia).
      assert (Hlog' : (Z.log2 (n / 10) < Z.of_nat fuel)%Z).
      { enough (Z.log2 (n / 10) < Z.log2 n)%Z by lia.
        apply Z.log2_lt_pow2; [assumption|].
        destruct (Z.log2_spec n Hpos) as [_ Hup].
        rewrite Z.pow_succ_r in Hup by apply Z.log2_nonneg.
        apply Z.div_lt_upper_bound; lia. }
      destruct (IH (n / 10)%Z Hdiv Hlog') as (Hd & Hlo & Hhi).
      set (d := digits10_fuel fuel (n / 10)) in *.
      split; [lia|].
      replace (1 + d - 1)%Z with (Z.succ (d - 1)) by lia.
      replace (1 + d)%Z with (Z.succ d) by lia.
      rewrite !Z.pow_succ_r by lia.
      pose proof (Z.div_mod n 10 ltac:(lia)) as Hdm.
      pose proof (Z.mod_pos_bound n 10 ltac:(lia)) as Hmod.
      lia.
Qed.

Lemma digits10_spec n :
  (0 < n)%Z ->
  (1 <= digits10 n)%Z /\ (10 ^ (digits10 n - 1) <= n < 10 ^ digits10 n)%Z.
Proof.
  intros Hpos. unfold digits10. apply digits10_fuel_spec; [assumption|].
  pose proof (Z.log2_nonneg n). lia.
Qed.

(** A positive rational as the quotient of its numerator by its
    denominator, both positive. *)
Lemma Q_as_quotient (a : Q) :
  0 < a ->
  (0 < Qnum a)%Z /\
  a * inject_Z (Zpos (Qden a)) == inject_Z (Qnum a).
Proof.
  destruct a as [n d]. unfold Qlt, Qeq, Qmult, inject_Z. simpl.
  intros Hpos. split; [lia|]. rewrite Pos.mul_1_r. lia.
Qed.

Lemma pow10_digits_bounds (n : Z) :
  (0 < n)%Z ->
  pow10 (digits10 n - 1) <= inject_Z n /\ inject_Z n < pow10 (digits10 n).
Proof.
  intros Hpos. destruct (digits10_spec n Hpos) as (Hd & Hlo & Hhi).
  rewrite !pow10_inject by lia.
  rewrite <- Zle_Qle, <- Zlt_Qlt. auto.
Qed.

(** [ilog10 a] is the decimal exponent of [a]. *)
Lemma ilog10_spec (a : Q) :
  0 < a -> pow10 (ilog10 a) <= a /\ a < pow10 (ilog10 a + 1).
Proof.
  intros Ha. destruct (Q_as_quotient a Ha) as (Hn & Hq).
  set (n := Qnum a) in *. set (d := Zpos (Qden a)) in *.
  assert (Hd : (0 < d)%Z) by (subst d; lia).
  destruct (pow10_digits_bounds n Hn) as (Hnlo & Hnhi).
  destruct (pow10_digits_bounds d Hd) as (Hdlo & Hdhi).
  assert (HD : 0 < inject_Z d) by (rewrite Zlt_Qlt in Hd; exact Hd).
  unfold ilog10. fold n. fold d.
  set (dn := digits10 n) in *. set (dd := digits10 d) in *.
  assert (Hinv : forall x, pow10 (x - dd) * pow10 dd == pow10 x).
  { intros x. rewrite <- pow10_add. now replace (x - dd + dd)%Z with x by lia. }
  assert (Hinv' : forall x, pow10 (x - dd + 1) * pow10 (dd - 1) == pow10 x).
  { intros x. rewrite <- pow10_add.
    now replace (x - dd + 1 + (dd - 1))%Z with x by lia. }
  pose proof (pow10_pos dd) as Hpdd.
  pose proof (pow10_pos (dd - 1)) as Hpdd1.
  destruct (Qle_bool (pow10 (dn - dd)) a) eqn:Etest.
  - apply Qle_bool_iff in Etest. split; [exact Etest|].
    (* a * d = n < 10^dn = 10^(dn-dd+1) * 10^(dd-1) <= 10^(dn-dd+1) * d *)
    apply (Qmult_lt_r _ _ (inject_Z d) HD). rewrite Hq.
    eapply Qlt_le_trans; [exact Hnhi|].
    rewrite <- (Hinv' dn).
    apply Qmult_le_l; [apply pow10_pos|exact Hdlo].
  - assert (Hlt : a < pow10 (dn - dd)).
    { apply Qnot_le_lt. intros Hle. apply Qle_bool_iff in Hle. congruence. }
    split.
    + (* 10^(dn-dd-1) * d <= 10^(dn-1-dd) * 10^dd = 10^(dn-1) <= n = a * d *)
      apply (Qmult_le_r _ _ (inject_Z d) HD). rewrite Hq.
      eapply Qle_trans; [|exact Hnlo].
      rewrite <- (Hinv (dn - 1)%Z).
      replace (dn - dd - 1)%Z with (dn - 1 - dd)%Z by lia.
      apply Qmult_le_l; [apply pow10_pos|]. now apply Qlt_le_weak.
    + now replace (dn - dd - 1 + 1)%Z with (dn - dd)%Z by lia.
Qed.

(** The magnitude of the rounding of a positive rational. *)
Definition magnitude (p : Z) (a : Q) : Q :=
  let e := (ilog10 a - (p - 1))%Z in
  inject_Z (Qfloor (a * pow10 (- e) + (1 # 2))) * pow10 e.

Lemma round_sd_unfold p q :
  round_sd p q =
  if Qeq_bool q 0 then 0
  else Qred (if Qle_bool 0 q
             then magnitude p (Qred (Qabs q))
             else - magnitude p (Qred (Qabs q))).
Proof. reflexivity. Qed.

(** The scaled value that is rounded to an integer has [p] digits. *)
Lemma scaled_range p a :
  0 < a ->
  let e := (ilog10 a - (p - 1))%Z in
  pow10 (p - 1) <= a * pow10 (- e) /\ a * pow10 (- e) < pow10 p.
Proof.
  intros Ha e. destruct (ilog10_spec a Ha) as (Hlo & Hhi).
  pose proof (pow10_pos (- e)) as Hpe.
  split.
  - replace (p - 1)%Z with (ilog10 a + - e)%Z by (subst e; lia).
    rewrite pow10_add. now apply Qmult_le_r.
  - replace (pow10 p) with (pow10 (ilog10 a + 1 + - e))
      by (f_equal; subst e; lia).
    rewrite pow10_add. now apply Qmult_lt_r.
Qed.

Lemma pow10_ge_1 n : (0 <= n)%Z -> 1 <= pow10 n.
Proof. intros Hn. unfold pow10. now apply Qpower_1_le. Qed.

(** Rounding a positive rational gives a positive rational within half a
    unit in the last of the [p] digits, that is within the relative error
    [10^(1-p) / 2]. *)
Lemma magnitude_spec p a :
  (1 <= p)%Z -> 0 < a ->
  0 < magnitude p a /\
  Qabs (magnitude p a - a) <= a * ((1 # 2) * pow10 (1 - p)).
Proof.
  intros Hp Ha. unfold magnitude.
  set (e := (ilog10 a - (p - 1))%Z).
  destruct (scaled_range p a Ha) as (Hlo & Hhi). fold e in Hlo, Hhi.
  set (x := a * pow10 (- e)) in *.
  pose proof (pow10_pos e) as Hpe.
  pose proof (pow10_ge_1 (p - 1) ltac:(lia)) as Hp1.
  pose proof (Qfloor_le (x + (1 # 2))) as Hfl.
  pose proof (Qlt_floor (x + (1 # 2))) as Hfu.
  set (m := Qfloor (x + (1 # 2))) in *.
  assert (Hm1 : (1 <= m)%Z).
  { assert (Hmlt : inject_Z 0 < inject_Z (m + 1)).
    { eapply Qle_lt_trans; [|exact Hfu]. change (inject_Z 0) with 0. lra. }
    rewrite <- Zlt_Qlt in Hmlt.
    assert (Hm0 : (0 <= m)%Z) by lia.
    assert (Hmlt1 : inject_Z 1 < inject_Z (m + 1)).
    { eapply Qle_lt_trans; [|exact Hfu]. change (inject_Z 1) with 1. lra. }
    rewrite <- Zlt_Qlt in Hmlt1. lia. }
  assert (Hm1q : 1 <= inject_Z m) by (now rewrite Zle_Qle in Hm1).
  rewrite inject_Z_plus in Hfu. change (inject_Z 1) with 1 in Hfu.
  split.
  - apply Qmult_lt_0_compat; [lra|assumption].
  - assert (Ha_eq : a == x * pow10 e).
    { unfold x. rewrite <- Qmult_assoc, <- pow10_add.
      replace (- e + e)%Z with 0%Z by lia.
      change (pow10 0) with 1. ring. }
    assert (Hdiff : inject_Z m * pow10 e - a == (inject_Z m - x) * pow10 e).
    { rewrite Ha_eq at 1. ring. }
    rewrite Hdiff, Qabs_Qmult, (Qabs_pos (pow10 e)) by lra.
    assert (Habs : Qabs (inject_Z m - x) <= 1 # 2).
    { apply Qabs_Qle_condition. split; lra. }
    assert (Hunit : pow10 e <= a * pow10 (1 - p)).
    { destruct (ilog10_spec a Ha) as (Hl & _).
      replace e with (ilog10 a + (1 - p))%Z by (subst e; lia).
      rewrite pow10_add. apply Qmult_le_r; [apply pow10_pos|exact Hl]. }
    eapply Qle_trans.
    + apply Qmult_le_compat_r; [exact Habs|lra].
    + setoid_replace (a * ((1 # 2) * pow10 (1 - p)))
        with ((1 # 2) * (a * pow10 (1 - p))) by ring.
      apply Qmult_le_l; [reflexivity|exact Hunit].
Qed.

Lemma Qabs_pos_of_nonzero q : ~ q == 0 -> 0 < Qred (Qabs q).
Proof.
  intros Hq. rewrite Qred_correct.
  destruct (Qlt_le_dec 0 (Qabs q)) as [|Hle]; [assumption|].
  exfalso. apply Hq. apply Qabs_Qle_condition in Hle. lra.
Qed.

(** Rounding keeps zero and only zero at zero. *)
Lemma round_sd_zero p q :
  (1 <= p)%Z -> Qeq_bool (round_sd p q) 0 = Qeq_bool q 0.
Proof.
  intros Hp. rewrite round_sd_unfold.
  destruct (Qeq_bool q 0) eqn:Ez; [reflexivity|].
  apply Qeq_bool_neq in Ez.
  destruct (magnitude_spec p _ Hp (Qabs_pos_of_nonzero q Ez)) as (Hmag & _).
  destruct (Qle_bool 0 q);
    (destruct (Qeq_bool _ 0) eqn:E; [|reflexivity]);
    apply Qeq_bool_eq in E; rewrite Qred_correct in E; lra.
Qed.

(** Rounding to [p] significant digits is accurate to the relative error
    [10^(1-p) / 2]. *)
Lemma round_sd_error p q :
  (1 <= p)%Z ->
  Qabs (round_sd p q - q) <= Qabs q * ((1 # 2) * pow10 (1 - p)).
Proof.
  intros Hp. rewrite round_sd_unfold.
  pose proof (pow10_pos (1 - p)) as Hpp.
  destruct (Qeq_bool q 0) eqn:Ez.
  - apply Qeq_bool_eq in Ez.
    rewrite Ez. setoid_replace (0 - 0) with 0 by ring.
    simpl. lra.
  - apply Qeq_bool_neq in Ez.
    destruct (magnitude_spec p _ Hp (Qabs_pos_of_nonzero q Ez)) as (_ & Herr).
    rewrite Qred_correct.
    set (mag := magnitude p (Qred (Qabs q))) in *.
    rewrite Qred_correct in Herr.
    destruct (Qle_bool 0 q) eqn:Es.
    + apply Qle_bool_iff in Es.
      rewrite (Qabs_pos q Es) in *. exact Herr.
    + assert (Hneg : q <= 0).
      { apply Qlt_le_weak, Qnot_le_lt. intros Hle.
        apply Qle_bool_iff in Hle. congruence. }
      rewrite (Qabs_neg q Hneg) in *.
      setoid_replace (- mag - q) with (- (mag - - q)) by ring.
      now rewrite Qabs_opp.
Qed.

(** Rounding does not depend on how the rational is written, and its
    results are reduced fractions. *)
Lemma round_sd_proper p q q' : q == q' -> round_sd p q = round_sd p q'.
Proof.
  intros Heq. rewrite !round_sd_unfold.
  rewrite (Qeqb_comp q q' Heq 0 0 (Qeq_refl 0)).
  rewrite (Qleb_comp 0 0 (Qeq_refl 0) q q' Heq).
  now rewrite (Qred_complete (Qabs q) (Qabs q')) by (now rewrite Heq).
Qed.

Lemma round_sd_reduced p q : Qred (round_sd p q) = round_sd p q.
Proof.
  rewrite round_sd_unfold. destruct (Qeq_bool q 0); [reflexivity|].
  apply Qred_complete, Qred_correct.
Qed.

(** Rounding commutes with the absolute value. *)
Lemma round_sd_abs p q :
  (1 <= p)%Z -> round_sd p (Qabs q) = Qred (Qabs (round_sd p q)).
Proof.
  intros Hp. rewrite !round_sd_unfold.
  destruct (Qeq_bool q 0) eqn:Ez.
  - apply Qeq_bool_eq in Ez.
    assert (Ha : Qabs q == 0) by (now rewrite Ez).
    now rewrite (Qeq_eq_bool _ _ Ha).
  - pose proof (Qeq_bool_neq _ _ Ez) as Hq.
    destruct (magnitude_spec p _ Hp (Qabs_pos_of_nonzero q Hq)) as (Hmag & _).
    assert (Hapos : 0 < Qabs q).
    { pose proof (Qabs_pos_of_nonzero q Hq) as H0.
      now rewrite Qred_correct in H0. }
    assert (Ez' : Qeq_bool (Qabs q) 0 = false).
    { destruct (Qeq_bool (Qabs q) 0) eqn:E; [|reflexivity].
      apply Qeq_bool_eq in E. lra. }
    rewrite Ez'.
    assert (Hs : Qle_bool 0 (Qabs q) = true) by (apply Qle_bool_iff; lra).
    rewrite Hs.
    rewrite (Qred_complete (Qabs (Qabs q)) (Qabs q))
      by (apply Qabs_pos, Qabs_nonneg).
    set (mag := magnitude p (Qred (Qabs q))) in *.
    apply Qred_complete.
    destruct (Qle_bool 0 q); rewrite Qred_correct.
    + symmetry. apply Qabs_pos. lra.
    + rewrite Qabs_opp. symmetry. apply Qabs_pos. lra.
Qed.

Lemma abs_eq_zero q : Qeq_bool (Qred (Qabs q)) 0 = Qeq_bool q 0.
Proof.
  destruct (Qeq_bool q 0) eqn:Ez.
  - apply Qeq_bool_eq in Ez. apply Qeq_eq_bool.
    now rewrite Qred_correct, Ez.
  - apply Qeq_bool_neq in Ez.
    pose proof (Qabs_pos_of_nonzero q Ez).
    destruct (Qeq_bool (Qred (Qabs q)) 0) eqn:E; [|reflexivity].
    apply Qeq_bool_eq in E. lra.
Qed.

Lemma abs_not_negative q : is_negative (Qred (Qabs q)) = false.
Proof.
  unfold is_negative. apply negb_false_iff, Qle_bool_iff.
  rewrite Qred_correct. apply Qabs_nonneg.
Qed.

(** [x.div(y).abs()] is [x.abs().div(y.abs())]. *)
Lemma abs_div x y : abs (div x y) = div (abs x) (abs y).
Proof.
  destruct x as [|sx|a], y as [|sy|b]; simpl; try reflexivity.
  - now rewrite abs_not_negative.
  - rewrite !abs_eq_zero.
    destruct (Qeq_bool b 0) eqn:Eb.
    + destruct (Qeq_bool a 0); [reflexivity|].
      now rewrite abs_not_negative.
    + simpl. f_equal. rewrite <- round_sd_abs by (unfold precision; lia).
      apply round_sd_proper. rewrite !Qred_correct.
      unfold Qdiv. now rewrite Qabs_Qmult, Qabs_Qinv.
Qed.

(** [x.times(y).abs()] is [x.abs().times(y.abs())]. *)
Lemma abs_times x y : abs (times x y) = times (abs x) (abs y).
Proof.
  destruct x as [|sx|a], y as [|sy|b]; simpl; try reflexivity.
  - rewrite abs_eq_zero. destruct (Qeq_bool b 0); [reflexivity|].
    now rewrite abs_not_negative.
  - rewrite abs_eq_zero. destruct (Qeq_bool a 0); [reflexivity|].
    now rewrite abs_not_negative.
  - f_equal. rewrite <- round_sd_abs by (unfold precision; lia).
    apply round_sd_proper. rewrite !Qred_correct. now rewrite Qabs_Qmult.
Qed.

(** A value that is not negative is its own absolute value, as far as
    division by it goes. *)
Lemma div_abs_r x y : negative y = false -> div x (abs y) = div x y.
Proof.
  destruct y as [|sy|b]; simpl; intros Hy; try reflexivity.
  unfold is_negative in Hy. apply negb_false_iff, Qle_bool_iff in Hy.
  assert (Hb : Qred (Qabs b) == b) by (now rewrite Qred_correct, Qabs_pos).
  destruct x as [|sx|a]; simpl; try reflexivity.
  - f_equal. f_equal. unfold is_negative. f_equal.
    now apply Qleb_comp.
  - rewrite (Qeqb_comp _ _ Hb 0 0 (Qeq_refl 0)).
      destruct (Qeq_bool b 0); [reflexivity|].
      f_equal. apply round_sd_proper. now rewrite Hb.
Qed.

(** Dividing by a power of ten keeps zero and only zero at zero. *)
Lemma isZero_div_ten_pow f n :
  isZero (div (Finite f) (ten_pow n)) = Qeq_bool f 0.
Proof.
  unfold ten_pow. simpl.
  pose proof (pow10_pos n) as Hp.
  assert (Hnz : Qeq_bool (Qred (pow10 n)) 0 = false).
  { destruct (Qeq_bool (Qred (pow10 n)) 0) eqn:E; [|reflexivity].
    apply Qeq_bool_eq in E. rewrite Qred_correct in E. lra. }
  rewrite Hnz. simpl. rewrite round_sd_zero by (unfold precision; lia).
  destruct (Qeq_bool f 0) eqn:Ef.
  - apply Qeq_bool_eq in Ef. apply Qeq_eq_bool. rewrite Ef.
    unfold Qdiv. ring.
  - apply Qeq_bool_neq in Ef.
    destruct (Qeq_bool (f / Qred (pow10 n)) 0) eqn:E; [|reflexivity].
    apply Qeq_bool_eq in E. exfalso. apply Ef.
    rewrite Qred_correct in E.
    setoid_replace f with (f / pow10 n * pow10 n) by (field; lra).
    rewrite E. ring.
Qed.

End DecimalFacts.

(** ** [DecimalUtils] *)

Section DecimalUtilsFacts.
Import DecimalJs DecimalUtils.

(** The decimal read from a number is zero only for the number zero. *)
Lemma shortest_digits_nonzero tries : forall k v x,
  (1 <= k)%Z -> ~ (v == 0)%Q ->
  Qeq_bool (shortest_digits tries k v x) 0 = false.
Proof.
  induction tries as [|tries IH]; intros k v x Hk Hv; simpl.
  - destruct (Qeq_bool v 0) eqn:E; [|reflexivity].
    apply Qeq_bool_eq in E. contradiction.
  - destruct (Number.eqb _ x).
    + rewrite round_sd_zero by assumption.
      destruct (Qeq_bool v 0) eqn:E; [|reflexivity].
      apply Qeq_bool_eq in E. contradiction.
    + apply IH; [lia|assumption].
Qed.

Lemma isZero_of_number x :
  isZero (of_number x) = match x with S754_zero _ => true | _ => false end.
Proof.
  destruct x as [s|s| |s m e]; try reflexivity.
  unfold of_number.
  destruct (Number.to_Q (S754_finite s m e)) as [v|] eqn:Ev; [|reflexivity].
  unfold isZero. apply shortest_digits_nonzero; [lia|].
  unfold Number.to_Q in Ev.
  set (v0 := if 0 <=? e
             then inject_Z (Z.pos m * 2 ^ e)
             else (inject_Z (Z.pos m) / inject_Z (2 ^ (- e)))%Q) in Ev.
  assert (Hpos : (0 < v0)%Q).
  { subst v0. destruct (Z.leb_spec 0 e).
    - change 0%Q with (inject_Z 0). rewrite <- Zlt_Qlt.
      apply Z.mul_pos_pos; [lia|]. apply Z.pow_pos_nonneg; lia.
    - apply Qlt_shift_div_l.
      + change 0%Q with (inject_Z 0). rewrite <- Zlt_Qlt.
        apply Z.pow_pos_nonneg; lia.
      + rewrite Qmult_0_l. change 0%Q with (inject_Z 0).
        rewrite <- Zlt_Qlt. lia. }
  injection Ev as <-. rewrite Qred_correct.
  destruct s; lra.
Qed.

(** C10 (as amended): [calculateSlippageBps] never throws; when
    [expectedRate] is zero it returns 0; otherwise it returns
    [|expected - actual| / |expected| * 10000] in the arithmetic of
    decimal.js, the absolute value being taken of the whole quotient, which
    is the specification's [|expected - actual| / expected * 10000] whenever
    [expectedRate] is not negative. *)
Theorem calculateSlippageBps_spec :
  forall expectedRate actualRate : Number.t,
    let expected := of_number expectedRate in
    let actual := of_number actualRate in
    (exists bps, calculateSlippageBps expectedRate actualRate = Ok bps) /\
    (forall s, calculateSlippageBps (S754_zero s) actualRate
               = Ok (Number.of_Z 0)) /\
    (isZero expected = false ->
       calculateSlippageBps expectedRate actualRate
       = Ok (toNumber (times (div (abs (minus expected actual)) (abs expected))
                             (Finite 10000)))) /\
    (isZero expected = false -> negative expected = false ->
       calculateSlippageBps expectedRate actualRate
       = Ok (spec_slippageBps expectedRate actualRate)).
Proof.
  intros expectedRate actualRate expected actual.
  assert (Hnz : isZero expected = false ->
    calculateSlippageBps expectedRate actualRate
    = Ok (toNumber (times (div (abs (minus expected actual)) (abs expected))
                          (Finite 10000)))).
  { intros Hz. unfold calculateSlippageBps. simpl. fold expected actual.
    rewrite Hz. now rewrite abs_times, abs_div. }
  split; [|split; [|split]].
  - unfold calculateSlippageBps. simpl. fold expected.
    destruct (isZero expected); eexists; reflexivity.
  - intros s. reflexivity.
  - exact Hnz.
  - intros Hz Hneg. rewrite (Hnz Hz). unfold spec_slippageBps.
    fold expected actual. now rewrite div_abs_r.
Qed.

(** A run of [calculateSlippageBps_spec]: expected rate 1, actual rate
    0.5, slippage 5000 basis points. *)
Lemma calculateSlippageBps_spec_witness :
  calculateSlippageBps (Number.of_Z 1) (Number.of_Q (1 # 2))
  = Ok (spec_slippageBps (Number.of_Z 1) (Number.of_Q (1 # 2))) /\
  spec_slippageBps (Number.of_Z 1) (Number.of_Q (1 # 2)) = Number.of_Z 5000.
Proof.
  split.
  - destruct (calculateSlippageBps_spec (Number.of_Z 1) (Number.of_Q (1 # 2)))
      as (_ & _ & _ & Hspec).
    apply Hspec; vm_compute; reflexivity.
  - vm_compute. reflexivity.
Defined.

(** C10, the claim as stated fails for a negative expected rate: for
    [expectedRate = -1] and [actualRate = 0] the code returns 10000, where
    [|expected - actual| / expected * 10000] is -10000. *)
Lemma calculateSlippageBps_negative_expected_counterexample :
  calculateSlippageBps (Number.of_Z (-1)) (Number.of_Z 0)
    = Ok (Number.of_Z 10000) /\
  spec_slippageBps (Number.of_Z (-1)) (Number.of_Z 0) = Number.of_Z (-10000) /\
  calculateSlippageBps (Number.of_Z (-1)) (Number.of_Z 0)
    <> Ok (spec_slippageBps (Number.of_Z (-1)) (Number.of_Z 0)).
Proof.
  split; [vm_compute; reflexivity|].
  split; [vm_compute; reflexivity|].
  vm_compute. discriminate.
Qed.

Lemma truthy_false_iff s : truthy s = false <-> s = ""%string.
Proof.
  unfold truthy. rewrite negb_false_iff. apply String.eqb_eq.
Qed.

Lemma truthy_true_iff s : truthy s = true <-> s <> ""%string.
Proof.
  unfold truthy. rewrite negb_true_iff. apply String.eqb_neq.
Qed.

(** The guard of [calculateEffectiveRate]. *)
Lemma calculateEffectiveRate_guard fromAmount toAmount fromDecimals toDecimals :
  (fromAmount = ""%string \/ toAmount = ""%string \/
   fromDecimals < 0 \/ toDecimals < 0)%Z ->
  calculateEffectiveRate fromAmount toAmount fromDecimals toDecimals
  = Throw (Err "Invalid input parameters for rate calculation").
Proof.
  intros Hbad. unfold calculateEffectiveRate.
  assert (Hguard : negb (truthy fromAmount) || negb (truthy toAmount)
                   || (fromDecimals <? 0)%Z || (toDecimals <? 0)%Z = true).
  { destruct Hbad as [->|[->|[Hlt|Hlt]]].
    - reflexivity.
    - simpl. now rewrite orb_true_r.
    - apply Z.ltb_lt in Hlt. rewrite Hlt. now rewrite orb_true_r.
    - apply Z.ltb_lt in Hlt. rewrite Hlt. now rewrite orb_true_r. }
  now rewrite Hguard.
Qed.

Lemma calculateEffectiveRate_guard_passed fromAmount toAmount fromDecimals toDecimals :
  fromAmount <> ""%string -> toAmount <> ""%string ->
  (0 <= fromDecimals)%Z -> (0 <= toDecimals)%Z ->
  negb (truthy fromAmount) || negb (truthy toAmount)
  || (fromDecimals <? 0)%Z || (toDecimals <? 0)%Z = false.
Proof.
  intros Hf Ht Hfd Htd.
  apply truthy_true_iff in Hf, Ht. rewrite Hf, Ht. simpl.
  destruct (Z.ltb_spec fromDecimals 0); [lia|].
  destruct (Z.ltb_spec toDecimals 0); [lia|]. reflexivity.
Qed.

(** Dividing by a power of ten, whatever the value divided. *)
Lemma isZero_div_ten_pow_any x n : isZero (div x (ten_pow n)) = isZero x.
Proof.
  destruct x as [|s|f]; [reflexivity|reflexivity|].
  apply isZero_div_ten_pow.
Qed.

Lemma div_ten_pow_finite a n :
  div (Finite a) (ten_pow n) = Finite (round_sd precision (a / pow10 n)).
Proof.
  unfold ten_pow, div.
  pose proof (pow10_pos n) as Hp.
  assert (Hnz : Qeq_bool (Qred (pow10 n)) 0 = false).
  { destruct (Qeq_bool (Qred (pow10 n)) 0) eqn:E; [|reflexivity].
    apply Qeq_bool_eq in E. rewrite Qred_correct in E. lra. }
  rewrite Hnz. f_equal. apply round_sd_proper. now rewrite Qred_correct.
Qed.




(** Amounts in the other notations that decimal.js reads (underscores
    between digits, base 16), and one that it does not (white space). *)
Example calculateEffectiveRate_other_notations :
  calculateEffectiveRate "1_000000" "1000000" 6 6 = Ok (Number.of_Z 1) /\
  calculateEffectiveRate "0x10" "16" 0 0 = Ok (Number.of_Z 1) /\
  calculateEffectiveRate " 1" "1" 0 0
  = Throw (Err "Decimal calculation failed: [DecimalError] Invalid argument:  1").
Proof. vm_compute. repeat split. Qed.

End DecimalUtilsFacts.

(** ** Computations that cannot throw, computations that keep an invariant *)

Section MonadFacts.
Context {St : Type}.

(** [m] always settles with a value. *)
Definition total {A} (m : M St A) : Prop :=
  forall st, exists a st', m st = (Ok a, st').

(** [m] keeps the invariant [I] of the state, whether it throws or not. *)
Definition keeps (I : St -> Prop) {A} (m : M St A) : Prop :=
  forall st, I st -> I (snd (m st)).

Lemma total_ret {A} (a : A) : total (ret a).
Proof. intros st. now exists a, st. Qed.

Lemma total_bind {A B} (m : M St A) (k : A -> M St B) :
  total m -> (forall a, total (k a)) -> total (bind m k).
Proof.
  intros Hm Hk st. unfold bind. destruct (Hm st) as (a & st' & ->).
  apply Hk.
Qed.

Lemma total_try_catch {A} (body : M St A) (handler : Error -> M St A) :
  (forall e, total (handler e)) -> total (try_catch body handler).
Proof.
  intros Hh st. unfold try_catch. destruct (body st) as [[a|e] st'].
  - now exists a, st'.
  - apply Hh.
Qed.

Lemma total_lift {A} (f : St -> A * St) : total (lift f).
Proof. intros st. unfold lift. destruct (f st) as [a st']. now exists a, st'. Qed.

Lemma keeps_ret I {A} (a : A) : keeps I (ret a).
Proof. intros st Hst. exact Hst. Qed.

Lemma keeps_throw I {A} (e : Error) : keeps I (@throw St A e).
Proof. intros st Hst. exact Hst. Qed.

Lemma keeps_bind I {A B} (m : M St A) (k : A -> M St B) :
  keeps I m -> (forall a, keeps I (k a)) -> keeps I (bind m k).
Proof.
  intros Hm Hk st Hst. unfold bind. specialize (Hm st Hst).
  destruct (m st) as [[a|e] st']; simpl in *; [|assumption].
  now apply Hk.
Qed.

Lemma keeps_try_catch I {A} (body : M St A) (handler : Error -> M St A) :
  keeps I body -> (forall e, keeps I (handler e)) ->
  keeps I (try_catch body handler).
Proof.
  intros Hb Hh st Hst. unfold try_catch. specialize (Hb st Hst).
  destruct (body st) as [[a|e] st']; simpl in *; [assumption|].
  now apply Hh.
Qed.

End MonadFacts.

(** ** [DataProviderService]: the sub-fetches settle *)

Section ServiceTotality.
Import DataProviderService.

Lemma total_this : total this.
Proof. intros st. now exists (fst st), st. Qed.

Lemma total_in_world {A} (m : M (World Json) A) :
  total m -> total (in_world m).
Proof.
  intros Hm st. unfold in_world. destruct (Hm (snd st)) as (a & w & ->).
  now exists a, (fst st, w).
Qed.

Lemma total_now : total now.
Proof. apply total_in_world, total_lift. Qed.

Lemma total_sleep (ms : Number.t) : total (in_world (@sleep Json ms)).
Proof. apply total_in_world. intros w. unfold sleep. eexists. eexists. reflexivity. Qed.

Lemma total_acquire : total acquire.
Proof.
  intros st. unfold acquire.
  destruct (RateLimiter.acquire _ _) as [rl w]. eexists. eexists. reflexivity.
Qed.

Lemma total_rates_of_route route notionals : forall rates,
  total (rates_of_route route notionals rates).
Proof.
  induction notionals as [|notional rest IH]; intros rates; simpl.
  - apply total_ret.
  - destruct (invalid_notional notional); [apply IH|].
    apply total_bind; [|intros a; apply IH].
    apply total_try_catch. intros e. apply total_ret.
Qed.

Lemma total_rates_of_routes routes notionals : forall rates,
  total (rates_of_routes routes notionals rates).
Proof.
  induction routes as [|route rest IH]; intros rates; simpl.
  - apply total_ret.
  - apply total_bind; [apply total_rates_of_route|intros a; apply IH].
Qed.

(** [getRates] throws exactly on an empty argument. *)
Lemma getRates_total routes notionals :
  routes <> [] -> notionals <> [] -> total (getRates routes notionals).
Proof.
  intros Hr Hn. unfold getRates.
  destruct routes as [|r rs]; [contradiction|].
  destruct notionals as [|n ns]; [contradiction|].
  apply total_rates_of_routes.
Qed.

Lemma getVolumes_total windows : total (getVolumes windows).
Proof. apply total_try_catch. intros e. apply total_ret. Qed.

Lemma total_liquidity_of_routes routes : forall liquidity,
  total (liquidity_of_routes routes liquidity).
Proof.
  induction routes as [|route rest IH]; intros liquidity; simpl.
  - apply total_ret.
  - apply total_bind.
    + apply total_try_catch. intros e. apply total_ret.
    + intros [depth|]; apply IH.
Qed.

Lemma getLiquidityDepth_total routes : total (getLiquidityDepth routes).
Proof. apply total_liquidity_of_routes. Qed.

Lemma total_assets_of_chains chainIds : forall acc,
  total (assets_of_chains chainIds acc).
Proof.
  induction chainIds as [|chainIdStr rest IH]; intros acc; simpl.
  - apply total_ret.
  - destruct (negb (truthy chainIdStr)); [apply IH|].
    apply total_bind; [apply total_this|]. intros svc.
    assert (Hfetch : total
      (bind (try_catch (request_token_list chainIdStr acc) (fun _ => ret acc))
            (fun acc0 => assets_of_chains rest acc0))).
    { apply total_bind; [|intros a; apply IH].
      apply total_try_catch. intros e. apply total_ret. }
    destruct (JSMap.get chainIdStr (tokenListCache svc)) as [cached|];
      [|exact Hfetch].
    apply total_bind; [apply total_now|]. intros t.
    destruct (_ <? _)%Z; [apply IH|exact Hfetch].
Qed.

Lemma getListedAssets_total routes : total (getListedAssets routes).
Proof.
  unfold getListedAssets.
  apply total_bind; [apply total_now|]. intros measuredAt.
  apply total_bind; [apply total_assets_of_chains|]. intros acc.
  apply total_ret.
Qed.

Lemma total_intelligence_of_routes routes measuredAt : forall intelligence,
  total (intelligence_of_routes routes measuredAt intelligence).
Proof.
  induction routes as [|route rest IH]; intros intelligence; simpl.
  - apply total_ret.
  - apply total_bind; [|intros a; apply IH].
    apply total_try_catch. intros e. apply total_ret.
Qed.

Lemma getRouteIntelligence_total routes : total (getRouteIntelligence routes).
Proof.
  unfold getRouteIntelligence.
  apply total_bind; [apply total_now|]. intros measuredAt.
  apply total_intelligence_of_routes.
Qed.

Lemma fetch_snapshot_total params :
  routes params <> [] -> notionals params <> [] ->
  total (fetch_snapshot params).
Proof.
  intros Hr Hn. unfold fetch_snapshot.
  apply total_bind; [apply getVolumes_total|]. intros volumes.
  apply total_bind; [now apply getRates_total|]. intros rates.
  apply total_bind; [apply getLiquidityDepth_total|]. intros liquidity.
  apply total_bind; [apply getListedAssets_total|]. intros assets.
  apply total_bind; [|intros ri; apply total_ret].
  destruct (includeIntelligence params) as [[|]|]; try apply total_ret.
  apply total_bind; [apply getRouteIntelligence_total|].
  intros ri. apply total_ret.
Qed.

Lemma is_empty_true {A} (xs : list A) : is_empty xs = true <-> xs = [].
Proof. destruct xs; simpl; split; congruence. Qed.

(** Past its validation, [getSnapshot] returns the snapshot that the
    fetches assemble. *)
Lemma getSnapshot_valid params st :
  routes params <> [] -> notionals params <> [] ->
  exists snapshot st',
    fetch_snapshot params st = (Ok snapshot, st') /\
    getSnapshot params st = (Ok snapshot, st').
Proof.
  intros Hr Hn.
  destruct (fetch_snapshot_total params Hr Hn st) as (snapshot & st' & Hfetch).
  exists snapshot, st'. split; [assumption|].
  unfold getSnapshot.
  destruct (is_empty (routes params)) eqn:Er;
    [apply is_empty_true in Er; contradiction|].
  destruct (is_empty (notionals params)) eqn:En;
    [apply is_empty_true in En; contradiction|].
  simpl. unfold try_catch. now rewrite Hfetch.
Qed.

Lemma getSnapshot_invalid params st :
  routes params = [] \/ notionals params = [] ->
  getSnapshot params st = (Throw (Err "Routes and notionals are required"), st).
Proof.
  intros Hempty. unfold getSnapshot.
  assert (Hguard : is_empty (routes params) || is_empty (notionals params) = true).
  { destruct Hempty as [->| ->]; simpl; [reflexivity|apply orb_true_r]. }
  now rewrite Hguard.
Qed.

End ServiceTotality.

(** ** [DataProviderService]: quotes that fail are left out *)

Section ServiceDegrades.
Import DataProviderService.

(** What the fetches other than [getRates] leave alone: the quote cache
    (here empty), the base URL and the oracle behind the world. *)
Definition quotes_untouched (o : Oracle Json) (base : string)
  (st : DataProviderService.t * World Json) : Prop :=
  TTLCache.cache (quoteCache (fst st)) = [] /\
  dlnApiBase (fst st) = base /\
  oracle (snd st) = o.

Section Invariant.
Variable o : Oracle Json.
Variable base : string.
#[local] Abbreviation I := (quotes_untouched o base).

Lemma keeps_this : keeps I this.
Proof. intros st Hst. exact Hst. Qed.

Lemma keeps_in_world {A} (m : M (World Json) A) :
  (forall w, oracle (snd (m w)) = oracle w) -> keeps I (in_world m).
Proof.
  intros Hm [svc w] (Hc & Hb & Ho). unfold in_world. simpl.
  specialize (Hm w). destruct (m w) as [r w']. simpl in *.
  unfold quotes_untouched. simpl. repeat split; try assumption. congruence.
Qed.

Lemma keeps_now : keeps I now.
Proof. apply keeps_in_world. intros w. reflexivity. Qed.

Lemma keeps_fetch url : keeps I (in_world (fetch url)).
Proof.
  apply keeps_in_world. intros w. unfold fetch.
  now destruct (network (oracle w) (requests w) url).
Qed.

Lemma keeps_sleep ms : keeps I (in_world (@sleep Json ms)).
Proof. apply keeps_in_world. intros w. reflexivity. Qed.

Lemma keeps_json (r : Response Json) : keeps I (in_world (json r)).
Proof.
  apply keeps_in_world. intros w. unfold json. now destruct (body r).
Qed.

Lemma acquire_oracle rl (w : World Json) :
  oracle (snd (RateLimiter.acquire rl w)) = oracle w.
Proof.
  unfold RateLimiter.acquire, RateLimiter.refill.
  cbn [Date_now Clock_World RateLimiter.tokens].
  now destruct (Number.leb _ _).
Qed.

Lemma keeps_acquire : keeps I acquire.
Proof.
  intros [svc w] (Hc & Hb & Ho). unfold acquire. simpl.
  pose proof (acquire_oracle (rateLimiter svc) w) as Hw.
  destruct (RateLimiter.acquire (rateLimiter svc) w) as [rl w']. simpl in *.
  unfold quotes_untouched. simpl. repeat split; try assumption. congruence.
Qed.

Lemma keeps_set_volumeCache data : keeps I (set_volumeCache data).
Proof.
  unfold set_volumeCache. apply keeps_bind; [apply keeps_now|].
  intros t st Hst. exact Hst.
Qed.

Lemma keeps_request_volumes url : keeps I (request_volumes url).
Proof.
  unfold request_volumes.
  apply keeps_bind; [apply keeps_acquire|]. intros _.
  apply keeps_bind; [apply keeps_fetch|]. intros response.
  destruct (negb (ok response)).
  - apply keeps_bind; [apply keeps_set_volumeCache|].
    intros _. apply keeps_ret.
  - apply keeps_bind; [apply keeps_json|]. intros raw.
    destruct (parseDefiLlamaResponse raw);
      (apply keeps_bind; [apply keeps_set_volumeCache|]);
      intros _; apply keeps_ret.
Qed.

Lemma keeps_getVolumes windows : keeps I (getVolumes windows).
Proof.
  unfold getVolumes.
  apply keeps_try_catch; [|intros e; apply keeps_ret].
  apply keeps_bind.
  - unfold fetchDefiLlamaVolumes.
    apply keeps_bind; [apply keeps_this|]. intros svc.
    assert (Hreq : forall url,
      keeps I (try_catch (request_volumes url) (fun _ => ret None))).
    { intros url. apply keeps_try_catch; [apply keeps_request_volumes|].
      intros e. apply keeps_ret. }
    destruct (volumeCache svc) as [cached|]; [|apply Hreq].
    apply keeps_bind; [apply keeps_now|]. intros t.
    destruct (_ <? _)%Z; [apply keeps_ret|apply Hreq].
  - intros [bridgeData|]; [|apply keeps_ret].
    apply keeps_bind; [apply keeps_now|]. intros t. apply keeps_ret.
Qed.

End Invariant.

(** The quote endpoint of [getRates] never gives a usable response: be it
    an HTTP 500 every time, another error status, a rejected request or a
    body that is not JSON. *)
Definition quote_endpoint_down (o : Oracle Json) (base : string) : Prop :=
  forall route notional,
    never_good o
      (rates_quote_url (base ++ "/dln/order/create-tx") route notional).

(** Against an endpoint that never gives a usable response,
    [fetchWithRetry] throws. *)
Lemma fetchWithRetry_never_good url (w : World Json) :
  never_good (oracle w) url ->
  exists e w',
    HttpUtils.fetchWithRetry url None None w = (Throw e, w') /\
    oracle w' = oracle w.
Proof.
  intros Hbad. unfold HttpUtils.fetchWithRetry.
  destruct (negb (truthy url)); [eexists; eexists; split; reflexivity|].
  replace ((3 <? 0) || Qltb 1000 0) with false by reflexivity.
  unfold bind, try_catch, new_URL.
  destruct (url_parses (oracle w) url);
    [|eexists; eexists; split; reflexivity].
  unfold ret.
  destruct (HttpUtils.retry_loop (Z.to_nat (3 + 1)) url 0 3 1000 None w)
    as [r w'] eqn:Eloop.
  apply retry_loop_never_good in Eloop; [|assumption|lia|right; simpl; lia].
  destruct Eloop as ((e & ->) & Ho & _).
  eexists. exists w'. split; [reflexivity|assumption].
Qed.

(** With an empty quote cache and a quote endpoint that never gives a
    usable response, the [try] block for a route and a notional throws. *)
Lemma rate_for_fails o route notional st :
  let base := dlnApiBase (fst st) in
  quotes_untouched o base st ->
  quote_endpoint_down o base ->
  exists e st',
    rate_for route notional st = (Throw e, st') /\
    quotes_untouched o base st'.
Proof.
  destruct st as [svc w]. simpl. intros (Hc & _ & Ho) Hbad.
  simpl in Hc, Ho.
  unfold rate_for, bind at 1, this. simpl.
  unfold bind at 1, quoteCache_get, TTLCache.get. simpl. rewrite Hc. simpl.
  unfold bind at 1, bind at 1, in_world, new_URL. simpl.
  destruct (url_parses (oracle w) _); simpl;
    [|eexists; eexists; split; [reflexivity|repeat split; assumption]].
  unfold bind at 1, dlnCircuit_execute, CircuitBreaker.execute, deduplicate.
  simpl.
  destruct (CircuitBreaker.gate _ _) as [e|cb1]; simpl.
  - eexists; eexists; split; [reflexivity|repeat split; assumption].
  - match goal with
    | |- context [HttpUtils.fetchWithRetry ?url None None ?w0] =>
        destruct (fetchWithRetry_never_good url w0) as (e & w1 & -> & Ho1);
          [simpl; rewrite Ho; apply Hbad|]
    end.
    simpl in Ho1.
    assert (Hfail : oracle (snd (CircuitBreaker.onFailure cb1 w1)) = oracle w1).
    { unfold CircuitBreaker.onFailure. now destruct (_ || _). }
    destruct (CircuitBreaker.onFailure cb1 w1) as [cb2 w2]. simpl in *.
    eexists; eexists; split; [reflexivity|].
    repeat split; simpl; try assumption. congruence.
Qed.

Lemma rates_of_route_fails o route notionals : forall rates st,
  let base := dlnApiBase (fst st) in
  quotes_untouched o base st ->
  quote_endpoint_down o base ->
  exists st',
    rates_of_route route notionals rates st = (Ok rates, st') /\
    quotes_untouched o base st'.
Proof.
  induction notionals as [|notional rest IH]; intros rates st base Hst Hbad.
  - exists st. split; [reflexivity|assumption].
  - cbn [rates_of_route]. destruct (invalid_notional notional).
    + now apply IH.
    + destruct (rate_for_fails o route notional st Hst Hbad)
        as (e & st1 & Hrate & Hst1).
      unfold bind at 1, try_catch, bind at 1. rewrite Hrate. simpl.
      assert (Hbase : dlnApiBase (fst st1) = base) by apply Hst1.
      destruct (IH rates st1) as (st2 & Hrest & Hst2);
        [now rewrite Hbase|now rewrite Hbase|].
      exists st2. split; [exact Hrest|now rewrite <- Hbase].
Qed.

Lemma rates_of_routes_fail o routes notionals : forall rates st,
  let base := dlnApiBase (fst st) in
  quotes_untouched o base st ->
  quote_endpoint_down o base ->
  exists st',
    rates_of_routes routes notionals rates st = (Ok rates, st') /\
    quotes_untouched o base st'.
Proof.
  induction routes as [|route rest IH]; intros rates st base Hst Hbad.
  - exists st. split; [reflexivity|assumption].
  - cbn [rates_of_routes].
    destruct (rates_of_route_fails o route notionals rates st Hst Hbad)
      as (st1 & Hroute & Hst1).
    unfold bind at 1. rewrite Hroute.
    assert (Hbase : dlnApiBase (fst st1) = base) by apply Hst1.
    destruct (IH rates st1) as (st2 & Hrest & Hst2);
      [now rewrite Hbase|now rewrite Hbase|].
    exists st2. split; [exact Hrest|now rewrite <- Hbase].
Qed.

End ServiceDegrades.

(** ** [getSnapshot] *)

Section SnapshotFacts.
Import DataProviderService.

Lemma rates_of_route_length route notionals : forall acc st rs st',
  rates_of_route route notionals acc st = (Ok rs, st') ->
  (List.length rs <= List.length acc + List.length notionals)%nat.
Proof.
  induction notionals as [|notional rest IH]; intros acc st rs st'.
  - simpl. unfold ret. intros [= <- <-]. lia.
  - cbn [rates_of_route]. destruct (invalid_notional notional).
    + intros Hrest. apply IH in Hrest. simpl. lia.
    + unfold bind at 1, try_catch, bind at 1.
      destruct (rate_for route notional st) as [[rate|e] st1].
      * unfold ret at 1. intros Hrest. apply IH in Hrest.
        rewrite length_app in Hrest. simpl in *. lia.
      * unfold ret at 1. intros Hrest. apply IH in Hrest. simpl. lia.
Qed.

Lemma rates_of_routes_length routes notionals : forall acc st rs st',
  rates_of_routes routes notionals acc st = (Ok rs, st') ->
  (List.length rs
   <= List.length acc + List.length routes * List.length notionals)%nat.
Proof.
  induction routes as [|route rest IH]; intros acc st rs st'.
  - simpl. unfold ret. intros [= <- <-]. lia.
  - cbn [rates_of_routes]. unfold bind at 1.
    destruct (rates_of_route route notionals acc st) as [[rs1|e] st1] eqn:Er;
      [|discriminate].
    apply rates_of_route_length in Er.
    intros Hrest. apply IH in Hrest. simpl. lia.
Qed.

(** At most one rate per pair of a route and a notional. *)
Lemma getRates_length routes notionals st rs st' :
  getRates routes notionals st = (Ok rs, st') ->
  (List.length rs <= List.length routes * List.length notionals)%nat.
Proof.
  unfold getRates. destruct routes as [|r rest]; [discriminate|].
  destruct notionals as [|n ns]; [discriminate|].
  intros Hrates. apply rates_of_routes_length in Hrates. simpl in *. lia.
Qed.

(** The rates of the snapshot are those that [getRates] returns, called
    after [getVolumes]. *)
Lemma fetch_snapshot_rates params st snapshot st' :
  fetch_snapshot params st = (Ok snapshot, st') ->
  exists volumes st1 st2,
    getVolumes (match includeWindows params with
                | Some windows => windows
                | None => [W24h]
                end) st = (Ok volumes, st1) /\
    getRates (routes params) (notionals params) st1 = (Ok (rates snapshot), st2).
Proof.
  unfold fetch_snapshot. unfold bind at 1.
  destruct (getVolumes _ st) as [[volumes|e] st1] eqn:Evol; [|discriminate].
  unfold bind at 1.
  destruct (getRates _ _ st1) as [[rs|e] st2] eqn:Erates; [|discriminate].
  unfold bind at 1.
  destruct (getLiquidityDepth _ st2) as [[liq|e] st3]; [|discriminate].
  unfold bind at 1.
  destruct (getListedAssets _ st3) as [[la|e] st4]; [|discriminate].
  unfold bind at 1.
  match goal with
  | |- context [match ?m st4 with _ => _ end] =>
      destruct (m st4) as [[ri|e] st5]; [|discriminate]
  end.
  unfold ret. intros [= <- <-]. simpl.
  exists volumes, st1, st2. auto.
Qed.

(** C1: [getSnapshot] fails exactly when [routes] or [notionals] is empty.
    When neither is, a snapshot is returned whatever the fetches do; its
    [rates] hold at most one entry per pair of a route and a notional; and
    if the quote endpoint never gives a usable response (an HTTP 500 every
    time, say) while no quote is cached, then [rates] is the empty list:
    the failed quotes are left out, nothing is put in their place, and no
    exception leaves [getSnapshot]. *)
Theorem getSnapshot_fails_only_on_empty_input :
  forall params st,
    ((exists e, fst (getSnapshot params st) = Throw e) <->
     (routes params = [] \/ notionals params = [])) /\
    (routes params <> [] -> notionals params <> [] ->
     exists snapshot st',
       getSnapshot params st = (Ok snapshot, st') /\
       (List.length (rates snapshot)
        <= List.length (routes params) * List.length (notionals params))%nat /\
       (TTLCache.cache (quoteCache (fst st)) = [] ->
        quote_endpoint_down (oracle (snd st)) (dlnApiBase (fst st)) ->
        rates snapshot = [])).
Proof.
  intros params st.
  assert (Hvalid : routes params <> [] -> notionals params <> [] ->
    exists snapshot st',
      getSnapshot params st = (Ok snapshot, st') /\
      (List.length (rates snapshot)
       <= List.length (routes params) * List.length (notionals params))%nat /\
      (TTLCache.cache (quoteCache (fst st)) = [] ->
       quote_endpoint_down (oracle (snd st)) (dlnApiBase (fst st)) ->
       rates snapshot = [])).
  { intros Hr Hn.
    destruct (getSnapshot_valid params st Hr Hn)
      as (snapshot & st' & Hfetch & Hsnap).
    exists snapshot, st'. split; [exact Hsnap|].
    destruct (fetch_snapshot_rates _ _ _ _ Hfetch)
      as (volumes & st1 & st2 & Hvol & Hrates).
    split; [now apply getRates_length in Hrates|].
    intros Hcache Hdown.
    assert (Hst : quotes_untouched (oracle (snd st)) (dlnApiBase (fst st)) st)
      by (repeat split; assumption).
    pose proof (keeps_getVolumes _ _
                  (match includeWindows params with
                   | Some windows => windows
                   | None => [W24h]
                   end) st Hst) as Hst1.
    rewrite Hvol in Hst1. simpl in Hst1.
    assert (Hbase : dlnApiBase (fst st1) = dlnApiBase (fst st)) by apply Hst1.
    unfold getRates in Hrates.
    destruct (routes params) as [|r rs]; [contradiction|].
    destruct (notionals params) as [|n ns]; [contradiction|].
    destruct (rates_of_routes_fail (oracle (snd st)) (r :: rs) (n :: ns) [] st1)
      as (st2' & Hfail & _); [now rewrite Hbase|now rewrite Hbase|].
    rewrite Hfail in Hrates. now injection Hrates as <- _. }
  split; [|exact Hvalid].
  split.
  - intros (e & Hthrow).
    destruct (routes params) as [|r rs] eqn:Er; [now left|].
    destruct (notionals params) as [|n ns] eqn:En; [now right|].
    destruct Hvalid as (snapshot & st' & Hsnap & _); try discriminate.
    rewrite Hsnap in Hthrow. discriminate.
  - intros Hempty. rewrite (getSnapshot_invalid params st Hempty).
    eexists. reflexivity.
Qed.

End SnapshotFacts.

(** A run of [getSnapshot_fails_only_on_empty_input]: the scenario of the
    specification.  Every request is answered with HTTP 500; the snapshot
    for one route and two notionals is returned with empty [rates]. *)
Lemma getSnapshot_fails_only_on_empty_input_witness :
  let params :=
    {| DataProviderService.routes := [mockRoute];
       DataProviderService.notionals := ["1000000"%string; "10000000"%string];
       DataProviderService.includeWindows := Some [W24h; W7d];
       DataProviderService.includeIntelligence := None |} in
  exists snapshot st',
    DataProviderService.getSnapshot params (service_against internal_server_error)
      = (Ok snapshot, st') /\
    rates snapshot = [].
Proof.
  intros params.
  destruct (getSnapshot_fails_only_on_empty_input params
              (service_against internal_server_error)) as (_ & Hvalid).
  destruct Hvalid as (snapshot & st' & Hsnap & _ & Hrates);
    [discriminate|discriminate|].
  exists snapshot, st'. split; [exact Hsnap|].
  apply Hrates; [reflexivity|].
  intros route notional n. reflexivity.
Defined.

(** ** [getLiquidityDepth] *)

Section LiquidityFacts.
Import DataProviderService.

(** An entry of [getLiquidityDepth] belongs to its route and has exactly
    the 50 bps and the 100 bps thresholds, in this order; the 100 bps
    amount is [max_source] of the quote's amounts. *)
Lemma liquidity_for_thresholds route st depth st' :
  liquidity_for route st = (Ok (Some depth), st') ->
  liquidity_route depth = route /\
  exists srcAmount recommendedDest maxDest,
    thresholds depth =
    [ {| maxAmountIn := srcAmount; slippageBps := 50 |};
      {| maxAmountIn := max_source srcAmount recommendedDest maxDest;
         slippageBps := 100 |} ].
Proof.
  unfold liquidity_for.
  destruct (decimals (source route) <? 0); [unfold ret; discriminate|].
  unfold bind at 1.
  destruct (fetchQuoteWithRetry _ _ _ _ st) as [[[quote|]|e] st1];
    try (unfold ret; discriminate).
  destruct (estimation quote) as [est|]; [|unfold ret; discriminate].
  destruct (srcChainTokenIn est) as [srcToken|];
    destruct (dstChainTokenOut est) as [dstToken|];
    try destruct (in_amount srcToken);
    try destruct (out_recommendedAmount dstToken);
    try destruct (out_amount dstToken);
    cbn [nullish];
    try (unfold ret; discriminate);
    (destruct (negb (truthy _) || negb (truthy _));
       [unfold ret; discriminate|]);
    unfold bind, now, in_world, lift, ret;
    destruct (Date_now (snd st1)) as [t w]; intros [= <- <-]; simpl;
    (split; [reflexivity|]); eexists; eexists; eexists; reflexivity.
Qed.

Lemma liquidity_of_routes_thresholds routes : forall acc st result st',
  Forall (fun d => map slippageBps (thresholds d) = [50; 100]) acc ->
  liquidity_of_routes routes acc st = (Ok result, st') ->
  Forall (fun d => map slippageBps (thresholds d) = [50; 100]) result.
Proof.
  induction routes as [|route rest IH]; intros acc st result st' Hacc.
  - simpl. unfold ret. now intros [= <- <-].
  - cbn [liquidity_of_routes]. unfold bind at 1, try_catch.
    destruct (liquidity_for route st) as [[[depth|]|e] st1] eqn:Ed.
    + apply IH. apply Forall_app. split; [assumption|].
      constructor; [|constructor].
      apply liquidity_for_thresholds in Ed.
      destruct Ed as (_ & src & rec & maxd & ->). reflexivity.
    + now apply IH.
    + unfold ret. now apply IH.
Qed.

(** Every entry that [getLiquidityDepth] produces has exactly the 50 bps
    and the 100 bps thresholds. *)
Lemma getLiquidityDepth_two_thresholds routes st result st' :
  getLiquidityDepth routes st = (Ok result, st') ->
  Forall (fun d => map slippageBps (thresholds d) = [50; 100]) result.
Proof. apply liquidity_of_routes_thresholds. constructor. Qed.

(** The 100 bps amount, when the quote's amounts are integers and the
    recommended amount is positive. *)
Lemma max_source_scaled srcAmount recommendedDest maxDest s r m :
  BigInt_of_string srcAmount = Some s ->
  BigInt_of_string recommendedDest = Some r ->
  BigInt_of_string maxDest = Some m ->
  maxDest <> ""%string -> 0 < r ->
  max_source srcAmount recommendedDest (Some maxDest)
  = string_of_Z (Z.quot (s * m) r).
Proof.
  intros Hs Hr Hm Hne Hpos. unfold max_source.
  apply truthy_true_iff in Hne. rewrite Hne.
  destruct (String.eqb_spec recommendedDest "0") as [->|_].
  - vm_compute in Hr. injection Hr as <-. lia.
  - simpl. rewrite Hs, Hr, Hm.
    destruct (Z.ltb_spec 0 r); [reflexivity|lia].
Qed.

(** That amount is at least the source amount when the upstream
    theoretical maximum is at least the recommended amount, and strictly
    below it when the upstream theoretical maximum is smaller. *)
Lemma scaled_amount_order s r m :
  0 < r ->
  (0 <= s -> r <= m -> s <= Z.quot (s * m) r) /\
  (0 < s -> 0 <= m -> m < r -> Z.quot (s * m) r < s).
Proof.
  intros Hr. split.
  - intros Hs Hm.
    rewrite <- (Z.quot_mul s r) at 1 by lia.
    apply Z.quot_le_mono; [lia|]. now apply Z.mul_le_mono_nonneg_l.
  - intros Hs Hm Hlt.
    apply Z.quot_lt_upper_bound; [|lia|].
    + now apply Z.mul_nonneg_nonneg; lia.
    + rewrite (Z.mul_comm r s). now apply Z.mul_lt_mono_pos_l.
Qed.

End LiquidityFacts.

(** C9, the code at the failing input: for a quote whose
    [maxTheoreticalAmount] (900000000) is below its [recommendedAmount]
    (999000000), the entry has the 50 bps and 100 bps thresholds, and the
    100 bps amount 900900900 is smaller than the 50 bps amount
    1000000000. *)
Theorem getLiquidityDepth_thresholds_inverted :
  let quote := quote_of "1000000000" "999000000"
                 (Some "999000000"%string) (Some "900000000"%string) in
  let result :=
    fst (DataProviderService.getLiquidityDepth [mockRoute]
           (service_against (quote_response quote))) in
  exists depth,
    result = Ok [depth] /\
    map slippageBps (thresholds depth) = [50; 100] /\
    map maxAmountIn (thresholds depth)
      = ["1000000000"%string; "900900900"%string] /\
    threshold_amounts depth = [Some 1000000000; Some 900900900] /\
    900900900 < 1000000000.
Proof.
  eexists. split; [vm_compute; reflexivity|].
  repeat split.
Qed.

(** ** [getRouteIntelligence] *)

Section IntelligenceFacts.
Import DataProviderService.

(** A probe always pushes one entry, for its own size. *)
Lemma probe_spec route sizeUsd st :
  exists q st', probe route sizeUsd st = (Ok q, st') /\ amountUsd q = sizeUsd.
Proof.
  unfold probe, try_catch, bind at 1.
  destruct (fetchQuoteWithRetry _ _ _ _ st) as [[[quote|]|e] st1];
    try (eexists; eexists; split; reflexivity).
  destruct (estimation quote) as [est|];
    [|eexists; eexists; split; reflexivity].
  unfold bind, field.
  destruct (dstChainTokenOut est) as [dstToken|];
    [|eexists; eexists; split; reflexivity].
  destruct (srcChainTokenIn est) as [srcToken|];
    eexists; eexists; split; reflexivity.
Qed.

(** The probing loop stops at the first failed probe. *)
Lemma probe_sizes_shape route sizes : forall quotes st,
  exists probed st',
    probe_sizes route sizes quotes st = (Ok (quotes ++ probed), st') /\
    stops_at_first_failure sizes probed.
Proof.
  induction sizes as [|sizeUsd rest IH]; intros quotes st.
  - exists [], st. split; [simpl; now rewrite app_nil_r|].
    left. split; [reflexivity|constructor].
  - cbn [probe_sizes]. unfold bind at 1.
    destruct (probe_spec route sizeUsd st) as (q & st1 & -> & Hsize).
    destruct (failed q) eqn:Ef.
    + exists [q], st1. split; [reflexivity|].
      right. exists [], q, rest. repeat split; [constructor|assumption|].
      simpl. now rewrite Hsize.
    + unfold bind at 1, in_world, sleep. simpl.
      destruct (IH (quotes ++ [q]) (fst st1,
                  snd (sleep (J := Json) (Number.of_Z 200) (snd st1))))
        as (probed & st2 & Hrest & Hshape).
      exists (q :: probed), st2. split.
      * unfold sleep in Hrest. simpl in Hrest. rewrite Hrest.
        now rewrite <- app_assoc.
      * destruct Hshape as [(Hmap & Hall)|(oks & bad & later & -> & Hall & Hbad & ->)].
        -- left. split; [simpl; now rewrite Hsize, Hmap|now constructor].
        -- right. exists (q :: oks), bad, later.
           repeat split; [now constructor|assumption|].
           simpl. now rewrite Hsize.
Qed.

Lemma filter_succeeded (quotes : list ProbeQuote) :
  Forall (fun q => failed q = false) quotes ->
  filter (fun q => negb (failed q)) quotes = quotes.
Proof.
  induction 1 as [|q quotes Hq _ IH]; simpl; [reflexivity|].
  now rewrite Hq, IH.
Qed.

(** Fewer than two successful probes: no score and no optimal range. *)
Lemma analyze_few_successes route quotes measuredAt :
  (List.length (filter (fun q => negb (failed q)) quotes) < 2)%nat ->
  feeEfficiencyScore (analyze route quotes measuredAt) = None /\
  optimalRangeUsd (analyze route quotes measuredAt) = None.
Proof.
  intros Hfew. unfold analyze. simpl.
  destruct (Z.leb_spec 2
    (Z.of_nat (List.length (filter (fun q => negb (failed q)) quotes))));
    [lia|auto].
Qed.

(** All probes successful: the capacity is the largest probed size. *)
Lemma analyze_all_succeeded route quotes measuredAt :
  map amountUsd quotes = probeSizesUsd ->
  Forall (fun q => failed q = false) quotes ->
  maxCapacityUsd (analyze route quotes measuredAt) = Some 5000000.
Proof.
  intros Hsizes Hall. unfold analyze. simpl.
  rewrite (filter_succeeded quotes Hall).
  unfold probeSizesUsd in Hsizes.
  do 8 (destruct quotes as [|? quotes]; [discriminate|]).
  destruct quotes; [|discriminate].
  simpl in Hsizes. injection Hsizes as _ _ _ _ _ _ _ Hlast.
  simpl. now rewrite Hlast.
Qed.

Lemma ltb_leb (a b : Number.t) : Number.ltb a b = true -> Number.leb a b = true.
Proof.
  unfold Number.ltb, Number.leb, SFltb, SFleb.
  now destruct (SFcompare a b) as [[| |]|].
Qed.

(** The clamp [Math.max(0, Math.min(100, x))] is within 0 and 100 unless
    it is [NaN]. *)
Lemma clamp_range (x : Number.t) :
  let y := Number.max (Number.of_Z 0) (Number.min (Number.of_Z 100) x) in
  Number.is_nan y = false ->
  Number.leb (Number.of_Z 0) y = true /\ Number.leb y (Number.of_Z 100) = true.
Proof.
  intros y. subst y. unfold Number.max.
  destruct (Number.is_nan (Number.of_Z 0)
            || Number.is_nan (Number.min (Number.of_Z 100) x)) eqn:Enan;
    [discriminate|]. intros _.
  set (m := Number.min (Number.of_Z 100) x) in *.
  assert (Hm : Number.leb m (Number.of_Z 100) = true).
  { subst m. unfold Number.min in *.
    destruct (Number.is_nan (Number.of_Z 100) || Number.is_nan x);
      [discriminate|].
    destruct (Number.ltb (Number.of_Z 100) x); [reflexivity|].
    destruct (Number.ltb x (Number.of_Z 100)) eqn:Elt; [now apply ltb_leb|].
    reflexivity. }
  destruct (Number.ltb (Number.of_Z 0) m) eqn:Epos.
  - split; [now apply ltb_leb|exact Hm].
  - destruct (Number.ltb m (Number.of_Z 0)); [split; reflexivity|].
    change (Number.of_Z 0) with (S754_zero false).
    destruct m as [s| | |]; split; reflexivity.
Qed.

Lemma fee_efficiency_range (rates : list Number.t) :
  Number.is_nan (fee_efficiency rates) = false ->
  Number.leb (Number.of_Z 0) (fee_efficiency rates) = true /\
  Number.leb (fee_efficiency rates) (Number.of_Z 100) = true.
Proof. apply clamp_range. Qed.

(** What holds of the analysis of every route: the probes run over the
    fixed ascending sizes and stop at the first failure; with fewer than
    two successful probes there is neither a score nor an optimal range;
    when all probes succeed the capacity is the largest size, 5000000; and
    a score that is a proper number lies between 0 and 100. *)
Theorem route_intelligence_analysis route measuredAt st :
  probeSizesUsd
    = [1000; 5000; 10000; 50000; 100000; 500000; 1000000; 5000000] /\
  exists probed st',
    intelligence_for route measuredAt st
      = (Ok (analyze route probed measuredAt), st') /\
    stops_at_first_failure probeSizesUsd probed /\
    let intelligence := analyze route probed measuredAt in
    ((List.length (filter (fun q => negb (failed q)) probed) < 2)%nat ->
     feeEfficiencyScore intelligence = None /\
     optimalRangeUsd intelligence = None) /\
    (Forall (fun q => failed q = false) probed ->
     map amountUsd probed = probeSizesUsd ->
     maxCapacityUsd intelligence = Some 5000000) /\
    (forall score, feeEfficiencyScore intelligence = Some score ->
                   Number.is_nan score = false ->
                   Number.leb (Number.of_Z 0) score = true /\
                   Number.leb score (Number.of_Z 100) = true).
Proof.
  split; [reflexivity|].
  destruct (probe_sizes_shape route probeSizesUsd [] st)
    as (probed & st' & Hprobe & Hshape).
  exists probed, st'. split; [|split; [exact Hshape|]].
  - unfold intelligence_for, try_catch, bind. rewrite Hprobe. reflexivity.
  - split; [apply analyze_few_successes|].
    split; [intros Hall Hsizes; now apply analyze_all_succeeded|].
    intros score Hscore Hnan. unfold analyze in Hscore. simpl in Hscore.
    destruct (2 <=? _); [|discriminate].
    injection Hscore as <-. now apply fee_efficiency_range.
Qed.

End IntelligenceFacts.

(** A run where every probe is answered: 999000000 out for 1000000000
    in, at each of the eight sizes. *)
Example route_intelligence_all_probes_answered :
  match fst (DataProviderService.getRouteIntelligence [mockRoute]
          (service_against
             (quote_response (quote_of "1000000000" "999000000" None None))))
  with
  | Ok [intelligence] =>
      maxCapacityUsd intelligence = Some 5000000 /\
      optimalRangeUsd intelligence = Some (1000, 5000000) /\
      match feeEfficiencyScore intelligence with
      | Some score =>
          Number.leb (Number.of_Z 0) score = true /\
          Number.leb score (Number.of_Z 100) = true
      | None => False
      end
  | _ => False
  end.
Proof. vm_compute. repeat split. Qed.

(** A run where no probe is answered: the record has no capacity, no
    range and no score, and only the first size is requested (one attempt
    and its three retries), none of the seven larger ones. *)
Example route_intelligence_no_probe_answered :
  let run := DataProviderService.getRouteIntelligence [mockRoute]
               (service_against internal_server_error) in
  match fst run with
  | Ok [intelligence] =>
      maxCapacityUsd intelligence = None /\
      optimalRangeUsd intelligence = None /\
      feeEfficiencyScore intelligence = None
  | _ => False
  end /\
  count_fetches (trace (snd (snd run))) = 4%nat.
Proof. vm_compute. repeat split. Qed.

(** C8, as the code runs: when every probe is answered with a quote whose
    destination amount is "0", all eight probes succeed with rate 0, the
    mean rate is 0, the coefficient of variation is 0/0 and the score
    returned for the route is [NaN], which is not between 0 and 100. *)
Theorem route_intelligence_score_nan :
  match fst (DataProviderService.getRouteIntelligence [mockRoute]
          (service_against
             (quote_response (quote_of "1000000000" "0" None None))))
  with
  | Ok [intelligence] =>
      maxCapacityUsd intelligence = Some 5000000 /\
      optimalRangeUsd intelligence = Some (1000, 5000000) /\
      match feeEfficiencyScore intelligence with
      | Some score =>
          score = S754_nan /\
          Number.is_nan score = true /\
          Number.leb (Number.of_Z 0) score = false /\
          Number.leb score (Number.of_Z 100) = false
      | None => False
      end
  | _ => False
  end.
Proof. vm_compute. repeat split. Qed.

(* ================================================================== *)
(** * Part III: the rest of the code                                   *)
(* ================================================================== *)

(** ** [TTLCache]: writes, statistics, sequences of operations *)

Section JSMapMore.
Context {K V : Type} `{EqKey K}.
Implicit Types (m : JSMap.t K V) (k : K).

Lemma delete_app_head k (v : V) (older newer : JSMap.t K V) :
  ~ In k (JSMap.keys older) ->
  JSMap.delete k (older ++ (k, v) :: newer) = older ++ newer.
Proof.
  induction older as [|[k0 v0] older IH]; simpl; intros Hn.
  - now rewrite key_eqb_refl.
  - rewrite key_eqb_neq by (intros ->; apply Hn; now left).
    f_equal. apply IH. tauto.
Qed.

Lemma keys_filter_incl (P : K * V -> bool) k m :
  In k (JSMap.keys (filter P m)) -> In k (JSMap.keys m).
Proof.
  unfold JSMap.keys. rewrite !in_map_iff.
  intros (p & Hk & Hin). apply filter_In in Hin. exists p. tauto.
Qed.

Lemma NoDup_keys_filter (P : K * V -> bool) m :
  NoDup (JSMap.keys m) -> NoDup (JSMap.keys (filter P m)).
Proof.
  induction m as [|[k0 v0] m IH]; simpl; intros Hnd; [constructor|].
  inversion Hnd as [|? ? Hnotin Hnd']; subst.
  destruct (P (k0, v0)); simpl; [|now apply IH].
  constructor; [|now apply IH].
  intros Hin. apply Hnotin. eapply keys_filter_incl; eassumption.
Qed.

(** Looking a key up after a filter, in a map with unique keys. *)
Lemma get_filter (P : K * V -> bool) k m :
  NoDup (JSMap.keys m) ->
  JSMap.get k (filter P m) =
  match JSMap.get k m with
  | Some v => if P (k, v) then Some v else None
  | None => None
  end.
Proof.
  induction m as [|[k0 v0] m IH]; simpl; intros Hnd; [reflexivity|].
  inversion Hnd as [|? ? Hnotin Hnd']; subst.
  destruct (key_eqb k k0) eqn:E.
  - apply key_eqb_eq in E. subst k0.
    destruct (P (k, v0)); simpl.
    + now rewrite key_eqb_refl.
    + apply get_not_in. intros Hin. apply Hnotin.
      eapply keys_filter_incl; eassumption.
  - destruct (P (k0, v0)); simpl; [rewrite E|]; now apply IH.
Qed.

(** A deletion never makes a key appear, nor changes what it maps to. *)
Lemma get_delete_some k k' m v :
  JSMap.get k' (JSMap.delete k m) = Some v ->
  NoDup (JSMap.keys m) ->
  JSMap.get k' m = Some v.
Proof.
  intros Hget Hnd. destruct (key_eqb k' k) eqn:E.
  - apply key_eqb_eq in E. subst k'.
    now rewrite get_delete_same in Hget.
  - rewrite get_delete_other in Hget; [assumption|].
    intros ->. now rewrite key_eqb_refl in E.
Qed.

Lemma size_delete_le k m : JSMap.size (JSMap.delete k m) <= JSMap.size m.
Proof.
  unfold JSMap.size. induction m as [|[k0 v0] m IH]; simpl List.length.
  - simpl. lia.
  - simpl. destruct (key_eqb k k0); simpl List.length; lia.
Qed.

End JSMapMore.

Section TTLCacheMore.
Context {K V : Type} `{EqKey K} {W : Type} `{Clock W}.
Implicit Types (c : TTLCache.t K V) (key : K) (v : V) (w : W).

(** An entry that [get] would still serve at time [now]. *)
Definition fresh_at (now : Z) (p : K * TTLCache.Entry V) : bool :=
  negb (now >? TTLCache.expiresAt (snd p)).

Lemma prune_filter now : forall entries kept,
  NoDup (JSMap.keys (kept ++ entries)) ->
  TTLCache.prune now entries (kept ++ entries)
  = kept ++ filter (fresh_at now) entries.
Proof.
  induction entries as [|[k e] entries IH]; intros kept Hnd; simpl.
  - reflexivity.
  - unfold fresh_at at 1. simpl.
    destruct (now >? TTLCache.expiresAt e); simpl.
    + rewrite delete_app_head.
      * apply IH. unfold JSMap.keys in *. rewrite map_app in *. simpl in Hnd.
        now apply NoDup_remove_1 in Hnd.
      * unfold JSMap.keys in *. rewrite map_app in Hnd. simpl in Hnd.
        apply NoDup_remove_2 in Hnd. intros Hin. apply Hnd.
        apply in_or_app. now left.
    + specialize (IH (kept ++ [(k, e)])).
      rewrite <- !app_assoc in IH. simpl in IH. now apply IH.
Qed.

Lemma prune_all now (m : JSMap.t K (TTLCache.Entry V)) :
  NoDup (JSMap.keys m) ->
  TTLCache.prune now m m = filter (fresh_at now) m.
Proof. intros Hnd. now apply (prune_filter now m []). Qed.

Lemma stats_unfold c w :
  NoDup (JSMap.keys (TTLCache.cache c)) ->
  TTLCache.stats c w =
  let m := filter (fresh_at (fst (Date_now w))) (TTLCache.cache c) in
  ({| TTLCache.stats_size := JSMap.size m;
      TTLCache.stats_maxSize := TTLCache.maxSize c;
      TTLCache.stats_ttlMs := TTLCache.ttlMs c |},
   TTLCache.with_cache c m, snd (Date_now w)).
Proof.
  intros Hnd. unfold TTLCache.stats. destruct (Date_now w) as [now w'].
  simpl. now rewrite prune_all.
Qed.

(** [stats()] reads the clock once and drops exactly the entries that are
    expired at that time: the entries that remain are the unexpired ones,
    in their order, each still mapped to its value; the size reported is
    their number; the configuration is reported as it is. *)
Theorem ttl_cache_stats_prunes_expired c w :
  NoDup (JSMap.keys (TTLCache.cache c)) ->
  let now := fst (Date_now w) in
  let report := fst (fst (TTLCache.stats c w)) in
  let c' := snd (fst (TTLCache.stats c w)) in
  snd (TTLCache.stats c w) = snd (Date_now w) /\
  TTLCache.cache c' = filter (fresh_at now) (TTLCache.cache c) /\
  TTLCache.stats_size report
    = Z.of_nat (List.length (filter (fresh_at now) (TTLCache.cache c))) /\
  TTLCache.stats_maxSize report = TTLCache.maxSize c /\
  TTLCache.stats_ttlMs report = TTLCache.ttlMs c /\
  forall key,
    JSMap.get key (TTLCache.cache c') =
    match JSMap.get key (TTLCache.cache c) with
    | Some entry =>
        if now >? TTLCache.expiresAt entry then None else Some entry
    | None => None
    end.
Proof.
  intros Hnd now report c'. subst now report c'.
  rewrite stats_unfold by assumption. simpl.
  repeat split.
  intros key. rewrite get_filter by assumption.
  destruct (JSMap.get key (TTLCache.cache c)) as [entry|]; [|reflexivity].
  unfold fresh_at. simpl.
  now destruct (fst (Date_now w) >? TTLCache.expiresAt entry).
Qed.

(** What [set] does to the keys it does not write: the oldest key is lost
    when the cache has reached its bound, every other key keeps its
    entry. *)
Theorem ttl_cache_set_other_keys c key v w k' :
  NoDup (JSMap.keys (TTLCache.cache c)) ->
  k' <> key ->
  JSMap.get k' (TTLCache.cache (fst (TTLCache.set key v c w))) =
  if (JSMap.size (TTLCache.cache c) >=? TTLCache.maxSize c)
     && match JSMap.first_key (TTLCache.cache c) with
        | Some firstKey => key_eqb k' firstKey
        | None => false
        end
  then None
  else JSMap.get k' (TTLCache.cache c).
Proof.
  intros Hnd Hne. rewrite set_unfold. simpl.
  rewrite get_set_other by assumption.
  unfold after_eviction.
  destruct (JSMap.size (TTLCache.cache c) >=? TTLCache.maxSize c); simpl;
    [|reflexivity].
  destruct (JSMap.first_key (TTLCache.cache c)) as [firstKey|]; [|reflexivity].
  destruct (key_eqb k' firstKey) eqn:E.
  - apply key_eqb_eq in E. subst. now apply get_delete_same.
  - apply get_delete_other. intros ->. now rewrite key_eqb_refl in E.
Qed.

(** Writing a key that is cached, in a cache below its bound, replaces the
    value and the expiry time and moves nothing: the keys keep their
    insertion order, so the key rewritten is not the youngest for it. *)
Theorem ttl_cache_overwrite_keeps_order c key v w :
  In key (JSMap.keys (TTLCache.cache c)) ->
  JSMap.size (TTLCache.cache c) < TTLCache.maxSize c ->
  let c' := fst (TTLCache.set key v c w) in
  JSMap.keys (TTLCache.cache c') = JSMap.keys (TTLCache.cache c) /\
  JSMap.first_key (TTLCache.cache c') = JSMap.first_key (TTLCache.cache c) /\
  JSMap.get key (TTLCache.cache c')
    = Some {| TTLCache.value := v;
              TTLCache.expiresAt := fst (Date_now w) + TTLCache.ttlMs c |}.
Proof.
  intros Hin Hsize c'. subst c'. rewrite set_unfold. simpl.
  unfold after_eviction.
  destruct (Z.geb_spec (JSMap.size (TTLCache.cache c)) (TTLCache.maxSize c));
    [lia|].
  assert (Hkeys : JSMap.keys (JSMap.set key
             {| TTLCache.value := v;
                TTLCache.expiresAt := fst (Date_now w) + TTLCache.ttlMs c |}
             (TTLCache.cache c)) = JSMap.keys (TTLCache.cache c))
    by now apply keys_set_in.
  split; [exact Hkeys|]. split; [|apply get_set_same].
  revert Hkeys. generalize (JSMap.set key
             {| TTLCache.value := v;
                TTLCache.expiresAt := fst (Date_now w) + TTLCache.ttlMs c |}
             (TTLCache.cache c)).
  intros m. destruct m as [|[k1 e1] m], (TTLCache.cache c) as [|[k2 e2] m'];
    simpl; intros [=]; congruence.
Qed.

(** *** Sequences of operations *)

Inductive CacheOp : Type :=
| OGet (key : K)
| OSet (key : K) (v : V)
| OHas (key : K)
| OClear
| OStats.

Definition apply_op (op : CacheOp) c w : TTLCache.t K V * W :=
  match op with
  | OGet key => let '(_, c', w') := TTLCache.get key c w in (c', w')
  | OSet key v => TTLCache.set key v c w
  | OHas key => let '(_, c', w') := TTLCache.has key c w in (c', w')
  | OClear => (TTLCache.clear c, w)
  | OStats => let '(_, c', w') := TTLCache.stats c w in (c', w')
  end.

Fixpoint run_ops (ops : list CacheOp) c w : TTLCache.t K V * W :=
  match ops with
  | [] => (c, w)
  | op :: rest => let (c', w') := apply_op op c w in run_ops rest c' w'
  end.

(** The value most recently written under [key] by the operations [ops],
    after [before]. *)
Definition written (key : K) (before : option V) (ops : list CacheOp)
  : option V :=
  fold_left
    (fun last op =>
       match op with
       | OSet k v => if key_eqb key k then Some v else last
       | _ => last
       end)
    ops before.

(** Unique keys, and no entry but the last one written under its key. *)
Definition cache_ok (last : K -> option V) c : Prop :=
  NoDup (JSMap.keys (TTLCache.cache c)) /\
  forall key entry,
    JSMap.get key (TTLCache.cache c) = Some entry ->
    last key = Some (TTLCache.value entry).

Lemma cache_ok_shrink last c (m : JSMap.t K (TTLCache.Entry V)) :
  cache_ok last c ->
  NoDup (JSMap.keys m) ->
  (forall key entry, JSMap.get key m = Some entry ->
                     JSMap.get key (TTLCache.cache c) = Some entry) ->
  cache_ok last (TTLCache.with_cache c m).
Proof.
  intros [Hnd Hlast] Hnd' Hsub. split; [exact Hnd'|].
  intros key entry Hget. apply Hlast. now apply Hsub.
Qed.

Lemma get_keeps_ok last key c w :
  cache_ok last c -> cache_ok last (snd (fst (TTLCache.get key c w))).
Proof.
  intros Hok. unfold TTLCache.get.
  destruct (JSMap.get key (TTLCache.cache c)) as [entry|]; [|exact Hok].
  destruct (Date_now w) as [now w'].
  destruct (now >? TTLCache.expiresAt entry); [|exact Hok]. simpl.
  apply cache_ok_shrink; [exact Hok|apply NoDup_delete, Hok|].
  intros k e Hget. eapply get_delete_some; [eassumption|apply Hok].
Qed.

Lemma apply_op_keeps_ok last op c w :
  cache_ok last c ->
  cache_ok (fun key => written key (last key) [op]) (fst (apply_op op c w)).
Proof.
  intros Hok. destruct op as [key|key v|key| |]; simpl.
  - pose proof (get_keeps_ok last key c w Hok) as Hget.
    now destruct (TTLCache.get key c w) as [[r c'] w'].
  - rewrite set_unfold. simpl. split.
    + apply NoDup_set, NoDup_after_eviction, Hok.
    + intros k entry. cbn [TTLCache.cache TTLCache.with_cache].
      destruct (key_eqb k key) eqn:E.
      * apply key_eqb_eq in E. subst k. rewrite get_set_same.
        now intros [= <-].
      * rewrite get_set_other
          by (intros ->; now rewrite key_eqb_refl in E).
        intros Hget. apply Hok. revert Hget. unfold after_eviction.
        destruct (_ >=? _); [|trivial].
        destruct (JSMap.first_key _); [|trivial].
        intros Hget. eapply get_delete_some; [eassumption|apply Hok].
  - unfold TTLCache.has.
    pose proof (get_keeps_ok last key c w Hok) as Hget.
    now destruct (TTLCache.get key c w) as [[[r|] c'] w'].
  - split; [constructor|]. intros key entry. discriminate.
  - rewrite stats_unfold by apply Hok. simpl.
    apply cache_ok_shrink; [exact Hok|apply NoDup_keys_filter, Hok|].
    intros k e. rewrite get_filter by apply Hok.
    destruct (JSMap.get k (TTLCache.cache c)) as [e'|]; [|discriminate].
    now destruct (fresh_at _ (k, e')).
Qed.

Lemma run_ops_keeps_ok : forall ops last c w,
  cache_ok last c ->
  cache_ok (fun key => written key (last key) ops) (fst (run_ops ops c w)).
Proof.
  induction ops as [|op ops IH]; intros last c w Hok; simpl; [exact Hok|].
  pose proof (apply_op_keeps_ok last op c w Hok) as Hstep.
  destruct (apply_op op c w) as [c' w']. simpl in Hstep.
  exact (IH _ c' w' Hstep).
Qed.

(** Whatever is done to a cache, in whatever order and at whatever times,
    [get] never returns anything but the value most recently written under
    the key it is asked for. *)
Theorem ttl_cache_serves_last_written (ops : list CacheOp) ttl max w :
  let c := fst (run_ops ops (TTLCache.create ttl max) w) in
  forall key w2 v,
    fst (fst (TTLCache.get key c w2)) = Some v ->
    written key None ops = Some v.
Proof.
  intros c key w2 v.
  assert (Hok : cache_ok (fun key => written key None ops) c).
  { subst c. apply (run_ops_keeps_ok ops (fun _ => None)).
    split; [constructor|]. intros k e. discriminate. }
  unfold TTLCache.get.
  destruct (JSMap.get key (TTLCache.cache c)) as [entry|] eqn:Eget;
    [|discriminate].
  destruct (Date_now w2) as [now w3].
  destruct (now >? TTLCache.expiresAt entry); simpl; [discriminate|].
  intros [= <-]. now apply Hok.
Qed.

Lemma apply_op_NoDup op c w :
  NoDup (JSMap.keys (TTLCache.cache c)) ->
  NoDup (JSMap.keys (TTLCache.cache (fst (apply_op op c w)))).
Proof.
  intros Hnd.
  assert (Hget : forall key,
    NoDup (JSMap.keys (TTLCache.cache (snd (fst (TTLCache.get key c w)))))).
  { intros key. unfold TTLCache.get. destruct (JSMap.get _ _); [|assumption].
    destruct (Date_now w). destruct (_ >? _); simpl; [|assumption].
    now apply NoDup_delete. }
  destruct op as [key|key v|key| |]; simpl.
  - specialize (Hget key). now destruct (TTLCache.get key c w) as [[r c'] w'].
  - now apply set_NoDup.
  - specialize (Hget key). unfold TTLCache.has.
    now destruct (TTLCache.get key c w) as [[[r|] c'] w'].
  - constructor.
  - rewrite stats_unfold by assumption. simpl.
    now apply NoDup_keys_filter.
Qed.

Lemma apply_op_config op c w :
  TTLCache.maxSize (fst (apply_op op c w)) = TTLCache.maxSize c /\
  TTLCache.ttlMs (fst (apply_op op c w)) = TTLCache.ttlMs c.
Proof.
  destruct op as [key|key v|key| |]; simpl.
  - unfold TTLCache.get. destruct (JSMap.get _ _); [|auto].
    destruct (Date_now w). now destruct (_ >? _).
  - now rewrite set_unfold.
  - unfold TTLCache.has, TTLCache.get. destruct (JSMap.get _ _); [|auto].
    destruct (Date_now w). now destruct (_ >? _).
  - auto.
  - unfold TTLCache.stats. now destruct (Date_now w).
Qed.

Lemma apply_op_size op c w :
  1 <= TTLCache.maxSize c ->
  JSMap.size (TTLCache.cache c) <= TTLCache.maxSize c ->
  NoDup (JSMap.keys (TTLCache.cache c)) ->
  JSMap.size (TTLCache.cache (fst (apply_op op c w))) <= TTLCache.maxSize c.
Proof.
  intros Hpos Hle Hnd.
  assert (Hget : forall key,
    JSMap.size (TTLCache.cache (snd (fst (TTLCache.get key c w))))
      <= TTLCache.maxSize c).
  { intros key. unfold TTLCache.get. destruct (JSMap.get _ _); [|assumption].
    destruct (Date_now w). destruct (_ >? _); simpl; [|assumption].
    etransitivity; [apply size_delete_le|assumption]. }
  destruct op as [key|key v|key| |]; simpl.
  - specialize (Hget key). now destruct (TTLCache.get key c w) as [[r c'] w'].
  - now apply set_size_bound.
  - specialize (Hget key). unfold TTLCache.has.
    now destruct (TTLCache.get key c w) as [[[r|] c'] w'].
  - unfold JSMap.size. simpl. lia.
  - rewrite stats_unfold by assumption. simpl.
    unfold JSMap.size in *.
    pose proof (filter_length_le (fresh_at (fst (Date_now w)))
                  (TTLCache.cache c)). lia.
Qed.

(** A cache created with a bound of at least one entry never holds more
    entries than its bound, and never two entries under one key, whatever
    operations are applied to it. *)
Theorem ttl_cache_bounded (ops : list CacheOp) ttl maxSize w :
  1 <= maxSize ->
  let c := fst (run_ops ops (TTLCache.create ttl (Some maxSize)) w) in
  JSMap.size (TTLCache.cache c) <= maxSize /\
  NoDup (JSMap.keys (TTLCache.cache c)) /\
  TTLCache.maxSize c = maxSize /\ TTLCache.ttlMs c = ttl.
Proof.
  intros Hpos.
  assert (Hgen : forall ops c w,
    TTLCache.maxSize c = maxSize -> TTLCache.ttlMs c = ttl ->
    JSMap.size (TTLCache.cache c) <= maxSize ->
    NoDup (JSMap.keys (TTLCache.cache c)) ->
    let c' := fst (run_ops ops c w) in
    JSMap.size (TTLCache.cache c') <= maxSize /\
    NoDup (JSMap.keys (TTLCache.cache c')) /\
    TTLCache.maxSize c' = maxSize /\ TTLCache.ttlMs c' = ttl).
  { clear ops w. induction ops as [|op ops IH]; intros c w Hmax Httl Hle Hnd;
      simpl; [auto|].
    pose proof (apply_op_config op c w) as [Hmax' Httl'].
    pose proof (apply_op_size op c w) as Hsize.
    pose proof (apply_op_NoDup op c w Hnd) as Hnd'.
    destruct (apply_op op c w) as [c' w']. simpl in *.
    apply IH; try congruence.
    rewrite <- Hmax. apply Hsize; [lia|lia|assumption]. }
  apply Hgen; try reflexivity; [|constructor].
  unfold JSMap.size. simpl. lia.
Qed.

End TTLCacheMore.
Arguments CacheOp : clear implicits.

(** A run of [ttl_cache_stats_prunes_expired]: TTL 100 ms, key a written at
    time 0 and key b at time 50; at time 120 only b is left. *)
Lemma ttl_cache_stats_prunes_expired_witness :
  let w0 := {| tw_now := 0; tw_calls := 0 |} in
  let c1 := fst (TTLCache.set "a"%string "1"%string (TTLCache.create 100 None) w0) in
  let c2 := fst (TTLCache.set "b"%string "2"%string c1 (elapse 50 w0)) in
  let result := TTLCache.stats c2 (elapse 120 w0) in
  JSMap.keys (TTLCache.cache (snd (fst result))) = ["b"%string] /\
  TTLCache.stats_size (fst (fst result)) = 1.
Proof.
  intros w0 c1 c2 result.
  destruct (ttl_cache_stats_prunes_expired c2 (elapse 120 w0))
    as (_ & Hcache & Hsize & _).
  { repeat constructor; simpl; intuition discriminate. }
  subst result. split.
  - rewrite Hcache. reflexivity.
  - rewrite Hsize. reflexivity.
Defined.

(** A run of [ttl_cache_set_other_keys]: a cache bounded to two entries
    holds a and b; writing c loses a and keeps b. *)
Lemma ttl_cache_set_other_keys_witness :
  let w0 := {| tw_now := 0; tw_calls := 0 |} in
  let c1 := fst (TTLCache.set "a"%string "1"%string
                   (TTLCache.create 100 (Some 2)) w0) in
  let c2 := fst (TTLCache.set "b"%string "2"%string c1 w0) in
  let c3 := fst (TTLCache.set "c"%string "3"%string c2 w0) in
  JSMap.get "a"%string (TTLCache.cache c3) = None /\
  JSMap.get "b"%string (TTLCache.cache c3)
    = JSMap.get "b"%string (TTLCache.cache c2).
Proof.
  intros w0 c1 c2 c3.
  assert (Hnd : NoDup (JSMap.keys (TTLCache.cache c2)))
    by (repeat constructor; simpl; intuition discriminate).
  split.
  - exact (ttl_cache_set_other_keys c2 "c"%string "3"%string w0 "a"%string
             Hnd ltac:(discriminate)).
  - exact (ttl_cache_set_other_keys c2 "c"%string "3"%string w0 "b"%string
             Hnd ltac:(discriminate)).
Defined.

(** A run of [ttl_cache_overwrite_keeps_order]: a is written, then b, then
    a again; a is still the first key. *)
Lemma ttl_cache_overwrite_keeps_order_witness :
  let w0 := {| tw_now := 0; tw_calls := 0 |} in
  let c1 := fst (TTLCache.set "a"%string "1"%string
                   (TTLCache.create 100 (Some 3)) w0) in
  let c2 := fst (TTLCache.set "b"%string "2"%string c1 w0) in
  let c3 := fst (TTLCache.set "a"%string "3"%string c2 (elapse 60 w0)) in
  JSMap.keys (TTLCache.cache c3) = ["a"%string; "b"%string] /\
  JSMap.get "a"%string (TTLCache.cache c3)
    = Some {| TTLCache.value := "3"%string; TTLCache.expiresAt := 160 |}.
Proof.
  intros w0 c1 c2 c3.
  destruct (ttl_cache_overwrite_keeps_order c2 "a"%string "3"%string
              (elapse 60 w0)) as (Hkeys & _ & Hget).
  - simpl. now left.
  - reflexivity.
  - split; [exact Hkeys|exact Hget].
Defined.

(** A run of [ttl_cache_serves_last_written]: a is written twice and read
    back. *)
Lemma ttl_cache_serves_last_written_witness :
  written "a"%string None
    [OSet "a"%string "1"%string; OGet "b"%string; OSet "a"%string "2"%string;
     OStats]
  = Some "2"%string.
Proof.
  apply (ttl_cache_serves_last_written
           [OSet "a"%string "1"%string; OGet "b"%string;
            OSet "a"%string "2"%string; OStats]
           100 None {| tw_now := 0; tw_calls := 0 |}
           "a"%string {| tw_now := 10; tw_calls := 0 |}).
  reflexivity.
Defined.

(** A run of [ttl_cache_bounded]: three keys written to a cache bounded to
    two entries. *)
Lemma ttl_cache_bounded_witness :
  let c := fst (run_ops
                  [OSet "a"%string "1"%string; OSet "b"%string "2"%string;
                   OSet "c"%string "3"%string]
                  (TTLCache.create 100 (Some 2))
                  {| tw_now := 0; tw_calls := 0 |}) in
  JSMap.size (TTLCache.cache c) <= 2.
Proof.
  intros c.
  apply (ttl_cache_bounded
           [OSet "a"%string "1"%string; OSet "b"%string "2"%string;
            OSet "c"%string "3"%string]
           100 2 {| tw_now := 0; tw_calls := 0 |}).
  lia.
Defined.

(** ** [CircuitBreaker]: any sequence of calls and resets *)

Section CircuitBreakerMore.
Import CircuitBreaker.
Context {W : Type} `{Clock W} {T : Type}.
Implicit Types (cb : CircuitBreaker.t) (fn : M W T) (w : W).

Inductive BreakerOp : Type :=
| Call (fn : M W T)
| Reset.

Fixpoint run_breaker (ops : list BreakerOp) cb w : CircuitBreaker.t * W :=
  match ops with
  | [] => (cb, w)
  | Call fn :: rest =>
      let '(_, cb', w') := execute fn cb w in run_breaker rest cb' w'
  | Reset :: rest => run_breaker rest (reset cb) w
  end.

(** What the counters can be in each state. *)
Definition breaker_ok cb : Prop :=
  match state cb with
  | CLOSED =>
      0 <= failureCount cb < failureThreshold cb /\ successCount cb = 0
  | OPEN => 1 <= failureCount cb /\ successCount cb = 0
  | HALF_OPEN =>
      0 <= failureCount cb /\ 0 <= successCount cb < successThreshold cb
  end.

Lemma execute_keeps_ok fn cb w :
  1 <= failureThreshold cb -> 1 <= successThreshold cb ->
  breaker_ok cb ->
  let cb' := snd (fst (execute fn cb w)) in
  breaker_ok cb' /\ same_config cb cb'.
Proof.
  intros Hft Hst Hok. unfold execute, gate, onSuccess, onFailure, breaker_ok in *.
  destruct (Date_now w) as [now w0].
  destruct cb as [ft cd st s fc sc nt]. simpl in *.
  destruct s; simpl in *;
    repeat (match goal with
            | |- context [fn w0] => destruct (fn w0) as [[r|e] w1]
            | |- context [Date_now ?x] => destruct (Date_now x)
            | |- context [?a >=? ?b] => destruct (Z.geb_spec a b)
            | |- context [?a <? ?b] => destruct (Z.ltb_spec a b)
            end; simpl in *);
    unfold same_config; simpl; repeat split; lia.
Qed.


(** *** Failures that are not consecutive *)

(** Calls made one after the other, with what became of each: [true] for a
    call that returned, [false] for one that threw. *)
Fixpoint run_outcomes (fns : list (M W T)) cb w
  : list bool * CircuitBreaker.t * W :=
  match fns with
  | [] => ([], cb, w)
  | fn :: rest =>
      let '(r, cb', w') := execute fn cb w in
      let '(outcomes, cb'', w'') := run_outcomes rest cb' w' in
      (is_ok r :: outcomes, cb'', w'')
  end.

(** The number of failures at the end of [outcomes], [f] failures having
    come just before. *)
Fixpoint streak (f : Z) (outcomes : list bool) : Z :=
  match outcomes with
  | [] => f
  | true :: rest => streak 0 rest
  | false :: rest => streak (f + 1) rest
  end.

(** The longest run of failures in [outcomes], [f] failures having come
    just before. *)
Fixpoint peak (f : Z) (outcomes : list bool) : Z :=
  match outcomes with
  | [] => f
  | true :: rest => Z.max f (peak 0 rest)
  | false :: rest => peak (f + 1) rest
  end.

Lemma peak_ge f outcomes : f <= peak f outcomes.
Proof.
  revert f. induction outcomes as [|[|] outcomes IH]; intros f; simpl.
  - lia.
  - lia.
  - specialize (IH (f + 1)). lia.
Qed.

Lemma onSuccess_closed cb :
  state cb = CLOSED ->
  state (onSuccess cb) = CLOSED /\ failureCount (onSuccess cb) = 0 /\
  same_config cb (onSuccess cb).
Proof.
  intros Hs. unfold onSuccess, same_config. simpl. rewrite Hs. simpl. auto.
Qed.

Lemma onFailure_closed_below cb w :
  state cb = CLOSED -> failureCount cb + 1 < failureThreshold cb ->
  let cb' := fst (onFailure cb w) in
  snd (onFailure cb w) = w /\
  state cb' = CLOSED /\ failureCount cb' = failureCount cb + 1 /\
  same_config cb cb'.
Proof.
  intros Hs Hlt. unfold onFailure, same_config. simpl. rewrite Hs. simpl.
  destruct (Z.geb_spec (failureCount cb + 1) (failureThreshold cb)); [lia|].
  simpl. repeat split; assumption.
Qed.

Lemma run_outcomes_closed : forall fns cb w f,
  state cb = CLOSED -> failureCount cb = f ->
  let outcomes := fst (fst (run_outcomes fns cb w)) in
  let cb' := snd (fst (run_outcomes fns cb w)) in
  peak f outcomes < failureThreshold cb ->
  state cb' = CLOSED /\ failureCount cb' = streak f outcomes /\
  same_config cb cb'.
Proof.
  induction fns as [|fn fns IH]; intros cb w f Hs Hf; simpl.
  - intros _. repeat split; assumption.
  - unfold execute, gate. destruct (Date_now w) as [now w0].
    rewrite Hs. simpl.
    destruct (fn w0) as [[r|e] w1].
    + destruct (onSuccess_closed cb Hs) as (Hs1 & Hf1 & Hc1).
      specialize (IH (onSuccess cb) w1 0 Hs1 Hf1).
      destruct (run_outcomes fns (onSuccess cb) w1) as [[outcomes cb''] w''].
      simpl in *. intros Hpeak.
      destruct Hc1 as (Hft & Hcd & Hst).
      destruct IH as (Hs' & Hf' & Hft' & Hcd' & Hst'); [lia|].
      repeat split; congruence.
    + destruct (onFailure cb w1) as [cb1 w2] eqn:Efail.
      destruct (run_outcomes fns cb1 w2) as [[outcomes cb''] w''] eqn:Erun.
      simpl. intros Hpeak.
      pose proof (peak_ge (f + 1) outcomes) as Hge.
      destruct (onFailure_closed_below cb w1 Hs ltac:(lia))
        as (Hw & Hs1 & Hf1 & Hft & Hcd & Hst).
      rewrite Efail in *. simpl in *.
      specialize (IH cb1 w2 (f + 1) Hs1 ltac:(lia)).
      rewrite Erun in IH. simpl in IH.
      destruct IH as (Hs' & Hf' & Hft' & Hcd' & Hst'); [lia|].
      repeat split; congruence.
Qed.

(** A breaker stays CLOSED as long as the failures of the calls made on it
    never come [failureThreshold] in a row, however many they are in all;
    its failure count is then the number of failures since the last
    success. *)
Theorem circuit_breaker_scattered_failures (fns : list (M W T)) ft cd st w :
  let outcomes := fst (fst (run_outcomes fns (create ft cd st) w)) in
  let cb := snd (fst (run_outcomes fns (create ft cd st) w)) in
  peak 0 outcomes < ft ->
  state cb = CLOSED /\ failureCount cb = streak 0 outcomes.
Proof.
  intros outcomes cb Hpeak.
  destruct (run_outcomes_closed fns (create ft cd st) w 0) as (Hs & Hf & _);
    try reflexivity; [exact Hpeak|].
  split; assumption.
Qed.

End CircuitBreakerMore.
Arguments BreakerOp : clear implicits.


(** A run of [circuit_breaker_scattered_failures]: with a threshold of 2,
    three failures separated by successes leave the breaker CLOSED. *)
Lemma circuit_breaker_scattered_failures_witness :
  let fns := [op_fail 10; op_ok 10; op_fail 10; op_ok 10; op_fail 10] in
  let cb := snd (fst (run_outcomes fns (CircuitBreaker.create 2 1000 None)
                        {| tw_now := 0; tw_calls := 0 |})) in
  CircuitBreaker.state cb = CircuitBreaker.CLOSED /\
  CircuitBreaker.failureCount cb = 1.
Proof.
  intros fns cb.
  destruct (circuit_breaker_scattered_failures fns 2 1000 None
              {| tw_now := 0; tw_calls := 0 |}) as [Hstate Hcount];
    [reflexivity|].
  split; [exact Hstate|]. subst cb. rewrite Hcount. reflexivity.
Defined.

(** ** [RequestDeduplicator] *)

Section DeduplicatorFacts.
Import RequestDeduplicator.

(** What happens to a deduplicator on which [clear] is not called: calls
    of [deduplicate], and operations that settle. *)
Inductive DedupEvent : Type :=
| Asked (key : string)
| Settled (promise : Promise).

Definition dedup_step (event : DedupEvent) (d : t) : t :=
  match event with
  | Asked key => snd (deduplicate key d)
  | Settled promise => settle promise d
  end.

Definition run_dedup (events : list DedupEvent) (d : t) : t :=
  fold_left (fun d event => dedup_step event d) events d.

(** The map [pending] and the operations in flight describe each other. *)
Record dedup_ok (d : t) : Prop := {
  ok_promises : NoDup (map fst (in_flight d));
  ok_keys : NoDup (map snd (in_flight d));
  ok_fresh : forall op, In op (in_flight d) -> (fst op < next_promise d)%nat;
  ok_pending : forall key promise,
    JSMap.get key (pending d) = Some promise <-> In (promise, key) (in_flight d);
  ok_map : NoDup (JSMap.keys (pending d))
}.

Lemma NoDup_map_filter {A B} (f : A -> B) (P : A -> bool) (l : list A) :
  NoDup (map f l) -> NoDup (map f (filter P l)).
Proof.
  induction l as [|a l IH]; simpl; intros Hnd; [constructor|].
  inversion Hnd as [|? ? Hnotin Hnd']; subst.
  destruct (P a); simpl; [|now apply IH].
  constructor; [|now apply IH].
  rewrite in_map_iff. intros (x & Hfx & Hin). apply filter_In in Hin.
  apply Hnotin. rewrite in_map_iff. exists x. tauto.
Qed.

Lemma NoDup_map_same {A B} (f : A -> B) (l : list A) x y :
  NoDup (map f l) -> In x l -> In y l -> f x = f y -> x = y.
Proof.
  induction l as [|a l IH]; simpl; intros Hnd Hx Hy Hf; [contradiction|].
  inversion Hnd as [|? ? Hnotin Hnd']; subst.
  destruct Hx as [->|Hx], Hy as [->|Hy]; [reflexivity| | |now apply IH].
  - exfalso. apply Hnotin. rewrite Hf. now apply in_map.
  - exfalso. apply Hnotin. rewrite <- Hf. now apply in_map.
Qed.

Lemma create_ok : dedup_ok create.
Proof.
  constructor; simpl; try constructor; try contradiction; discriminate.
Qed.

Lemma deduplicate_ok key d :
  dedup_ok d -> dedup_ok (snd (deduplicate key d)).
Proof.
  intros [Hp Hk Hf Hpend Hm]. unfold deduplicate.
  destruct (JSMap.get key (pending d)) as [existing|] eqn:Eget; simpl;
    [now constructor|].
  assert (Hnew : ~ In key (map snd (in_flight d))).
  { rewrite in_map_iff. intros ([p k] & Hkey & Hin). simpl in Hkey. subst k.
    apply Hpend in Hin. congruence. }
  constructor; simpl.
  - rewrite map_app. simpl. apply NoDup_app; [assumption|repeat constructor; intros []|].
    intros p Hin [<-|[]]. rewrite in_map_iff in Hin.
    destruct Hin as (op & Hfst & Hin). apply Hf in Hin. lia.
  - rewrite map_app. simpl. apply NoDup_app; [assumption|repeat constructor; intros []|].
    intros k Hin [<-|[]]. contradiction.
  - intros op Hin. apply in_app_or in Hin. destruct Hin as [Hin|[<-|[]]].
    + apply Hf in Hin. lia.
    + simpl. lia.
  - intros k p. destruct (String.eqb k key) eqn:E.
    + apply String.eqb_eq in E. subst k. rewrite get_set_same. split.
      * intros [= <-]. apply in_or_app. right. now left.
      * intros Hin. apply in_app_or in Hin. destruct Hin as [Hin|[[= ->]|[]]].
        -- exfalso. apply Hnew. rewrite in_map_iff. now exists (p, key).
        -- reflexivity.
    + apply String.eqb_neq in E. rewrite get_set_other by assumption.
      rewrite Hpend. split.
      * intros Hin. apply in_or_app. now left.
      * intros Hin. apply in_app_or in Hin.
        destruct Hin as [Hin|[[= _ Hsame]|[]]].
        -- assumption.
        -- congruence.
  - now apply NoDup_set.
Qed.

Lemma settle_ok promise d : dedup_ok d -> dedup_ok (settle promise d).
Proof.
  intros [Hp Hk Hf Hpend Hm]. unfold settle.
  destruct (find (fun op => Nat.eqb (fst op) promise) (in_flight d))
    as [[p0 key]|] eqn:Efind; [|now constructor].
  apply find_some in Efind. destruct Efind as [Hin Heq]. simpl in Heq.
  apply Nat.eqb_eq in Heq. subst p0.
  constructor; simpl.
  - now apply NoDup_map_filter.
  - now apply NoDup_map_filter.
  - intros op Hop. apply filter_In in Hop. now apply Hf.
  - intros k p. rewrite filter_In. simpl. destruct (String.eqb k key) eqn:E.
    + apply String.eqb_eq in E. subst k. rewrite get_delete_same by assumption.
      split; [discriminate|]. intros [Hin' Hne].
      pose proof (NoDup_map_same snd _ _ _ Hk Hin Hin' eq_refl) as Hsame.
      injection Hsame as <-. now rewrite Nat.eqb_refl in Hne.
    + apply String.eqb_neq in E. rewrite get_delete_other by assumption.
      rewrite Hpend. split; [|tauto]. intros Hin'. split; [assumption|].
      destruct (Nat.eqb p promise) eqn:Ep; [|reflexivity].
      apply Nat.eqb_eq in Ep. subst p.
      pose proof (NoDup_map_same fst _ _ _ Hp Hin Hin' eq_refl) as Hsame.
      congruence.
  - now apply NoDup_delete.
Qed.

Lemma run_dedup_ok events : forall d, dedup_ok d -> dedup_ok (run_dedup events d).
Proof.
  unfold run_dedup. induction events as [|[key|promise] events IH];
    intros d Hok; simpl; [assumption| |].
  - now apply IH, deduplicate_ok.
  - now apply IH, settle_ok.
Qed.

(** As long as [clear] is not called, however calls and settlements are
    interleaved: no two operations are in flight for one key; a call for a
    key with an operation in flight starts nothing and is handed the
    promise of that operation; a call for a key with none starts one; and
    the keys of [pending] are those of the operations in flight. *)
Theorem deduplicator_one_operation_per_key (events : list DedupEvent) :
  let d := run_dedup events create in
  NoDup (map snd (in_flight d)) /\
  (forall key promise,
     In (promise, key) (in_flight d) ->
     deduplicate key d = (promise, false, d)) /\
  (forall key,
     ~ In key (map snd (in_flight d)) ->
     fst (deduplicate key d) = (next_promise d, true)) /\
  (forall key,
     JSMap.has key (pending d) = true <-> In key (map snd (in_flight d))).
Proof.
  intros d.
  assert (Hok : dedup_ok d) by (apply run_dedup_ok, create_ok).
  destruct Hok as [Hp Hk Hf Hpend Hm].
  assert (Hhas : forall key,
    JSMap.has key (pending d) = true <-> In key (map snd (in_flight d))).
  { intros key. unfold JSMap.has. rewrite in_map_iff. split.
    - destruct (JSMap.get key (pending d)) as [p|] eqn:Eget; [|discriminate].
      intros _. exists (p, key). split; [reflexivity|]. now apply Hpend.
    - intros ([p k] & Hkey & Hin). simpl in Hkey. subst k.
      apply Hpend in Hin. now rewrite Hin. }
  split; [exact Hk|]. split; [|split; [|exact Hhas]].
  - intros key promise Hin. apply Hpend in Hin.
    unfold deduplicate. now rewrite Hin.
  - intros key Hnone. unfold deduplicate.
    destruct (JSMap.get key (pending d)) as [p|] eqn:Eget; [|reflexivity].
    exfalso. apply Hnone. apply Hhas. unfold JSMap.has. now rewrite Eget.
Qed.

End DeduplicatorFacts.

(** A run of [deduplicator_one_operation_per_key]: two calls for one key
    share the operation of the first; after it settles, a third call starts
    the next. *)
Lemma deduplicator_one_operation_per_key_witness :
  let d := run_dedup [Asked "quote"%string; Asked "quote"%string]
             RequestDeduplicator.create in
  RequestDeduplicator.deduplicate "quote"%string d = (O, false, d) /\
  fst (RequestDeduplicator.deduplicate "quote"%string
         (RequestDeduplicator.settle O d)) = (1%nat, true).
Proof.
  split.
  - apply (deduplicator_one_operation_per_key
             [Asked "quote"%string; Asked "quote"%string]).
    simpl. now left.
  - apply (deduplicator_one_operation_per_key
             [Asked "quote"%string; Asked "quote"%string; Settled O]).
    simpl. tauto.
Defined.

(** ** [HttpUtils]: delays, arguments, retries *)

Section HttpMore.
Import HttpUtils.
Context {J : Type}.
Implicit Types (w : World J) (url : string).

(** Comparing two numbers the other way round gives the opposite
    answer. *)
Lemma SFcompare_antisym (a b : Number.t) :
  SFcompare b a = option_map CompOpp (SFcompare a b).
Proof.
  destruct a as [sa|sa| |sa ma ea], b as [sb|sb| |sb mb eb];
    try reflexivity;
    try (destruct sa; reflexivity); try (destruct sb; reflexivity);
    try (destruct sa, sb; reflexivity).
  unfold SFcompare.
  rewrite (Z.compare_antisym ea eb).
  replace (Pos.compare_cont Eq mb ma)
    with (CompOpp (Pos.compare_cont Eq ma mb))
    by (now rewrite Pos.compare_cont_antisym).
  destruct sa, sb; try reflexivity;
    destruct (ea ?= eb); simpl; try reflexivity;
    now rewrite ?CompOpp_involutive.
Qed.

Lemma leb_refl (a : Number.t) :
  Number.is_nan a = false -> Number.leb a a = true.
Proof.
  intros Ha. unfold Number.leb, SFleb.
  pose proof (SFcompare_antisym a a) as Hanti.
  destruct (SFcompare a a) as [[| |]|] eqn:Ec; try reflexivity;
    try discriminate.
  now destruct a as [s|s| |s m e].
Qed.

(** Two numbers of which neither is below the other compare as equal. *)
Lemma not_ltb_leb (a b : Number.t) :
  Number.is_nan a = false -> Number.is_nan b = false ->
  Number.ltb a b = false -> Number.ltb b a = false ->
  Number.leb a b = true.
Proof.
  unfold Number.ltb, Number.leb, SFltb, SFleb. intros Ha Hb Hab Hba.
  rewrite (SFcompare_antisym a b) in Hba.
  destruct (SFcompare a b) as [[| |]|] eqn:Ec; try reflexivity;
    try discriminate.
  now destruct a as [sa|sa| |sa ma ea], b as [sb|sb| |sb mb eb].
Qed.

(** [Math.min(a, b)] is not above [b], unless it is [NaN]. *)
Lemma min_le_r (a b : Number.t) :
  Number.is_nan (Number.min a b) = true \/
  Number.leb (Number.min a b) b = true.
Proof.
  unfold Number.min.
  destruct (Number.is_nan a) eqn:Ha; [now left|].
  destruct (Number.is_nan b) eqn:Hb; [now left|]. simpl. right.
  destruct (Number.ltb a b) eqn:Hab; [now apply ltb_leb|].
  destruct (Number.ltb b a) eqn:Hba; [now apply leb_refl|].
  pose proof (not_ltb_leb a b Ha Hb Hab Hba) as Hle.
  destruct a as [sa|sa| |sa ma ea], b as [sb|sb| |sb mb eb];
    try exact Hle; reflexivity.
Qed.


(** What the steps of an iteration leave behind in the world. *)
Lemma calculateBackoffDelay_trace attempt baseDelay w r w1 :
  calculateBackoffDelay attempt baseDelay w = (r, w1) ->
  (exists d, r = Ok d) /\ oracle w1 = oracle w /\ requests w1 = requests w /\
  trace w1 = trace w.
Proof.
  unfold calculateBackoffDelay.
  destruct (_ || _); simpl; intros [= <- <-]; simpl; eauto.
Qed.

Lemma retry_delay_trace (resp : Response J) attempt baseDelay w r w1 :
  retry_delay resp attempt baseDelay w = (r, w1) ->
  (exists d, r = Ok d) /\ oracle w1 = oracle w /\ requests w1 = requests w /\
  trace w1 = trace w.
Proof.
  unfold retry_delay.
  destruct (retry_after (headers resp)) as [ra|];
    [|apply calculateBackoffDelay_trace].
  destruct (truthy ra); [|apply calculateBackoffDelay_trace].
  unfold ret. intros [= <- <-]. eauto.
Qed.

(** The [try] block: one request; a pause only before [continue]. *)
Lemma attempt_try_trace url attempt maxRetries baseDelay w r w1 :
  attempt_try url attempt maxRetries baseDelay w = (r, w1) ->
  oracle w1 = oracle w /\ requests w1 = S (requests w) /\
  match r with
  | Ok (Return v) =>
      trace w1 = trace w ++ [Fetched url] /\
      exists resp, network (oracle w) (requests w) url = Responds resp /\
                   good_response resp = true /\ body resp = JsonBody v
  | Ok Continue =>
      attempt < maxRetries /\
      exists delay, trace w1 = trace w ++ [Fetched url; Slept delay]
  | Throw _ =>
      trace w1 = trace w ++ [Fetched url] /\
      match network (oracle w) (requests w) url with
      | Responds resp => good_response resp = false
      | Rejects _ => True
      end
  end.
Proof.
  unfold attempt_try, bind at 1, fetch.
  destruct (network (oracle w) (requests w) url) as [resp|e] eqn:En; simpl;
    [|intros [= <- <-]; simpl; auto].
  unfold good_response, json_typed.
  destruct (ok resp) eqn:Eok; simpl.
  - unfold bind, try_catch, json, ret, throw.
    destruct (content_type (headers resp)) as [ct|] eqn:Ect; simpl;
      [|intros [= <- <-]; simpl; auto].
    destruct (includes "application/json" ct) eqn:Einc; simpl;
      [|intros [= <- <-]; simpl; auto].
    destruct (body resp) eqn:Eb; simpl; intros [= <- <-]; simpl; auto.
    repeat split; auto. exists resp. rewrite Eok, Ect, Einc, Eb. auto.
  - destruct (Z.eqb_spec (status resp) 429) as [E429|];
      [|unfold throw; intros [= <- <-]; simpl; auto].
    unfold bind at 1.
    match goal with
    | |- context [retry_delay resp attempt baseDelay ?w0] =>
        destruct (retry_delay resp attempt baseDelay w0) as [r0 w0'] eqn:Ed
    end.
    apply retry_delay_trace in Ed. simpl in Ed.
    destruct Ed as ((d & ->) & Ho & Hr & Ht).
    destruct (Z.ltb_spec attempt maxRetries); unfold bind, sleep, ret, throw;
      intros [= <- <-]; simpl.
    + rewrite Ht. repeat split; auto. exists d. now rewrite <- app_assoc.
    + rewrite Ht. auto.
Qed.

(** The [catch] block: a pause when a retry is left. *)
Lemma attempt_catch_trace attempt maxRetries baseDelay error w r w1 :
  attempt_catch attempt maxRetries baseDelay error w = (r, w1) ->
  r = Ok error /\ oracle w1 = oracle w /\ requests w1 = requests w /\
  if attempt <? maxRetries
  then exists delay, trace w1 = trace w ++ [Slept delay]
  else trace w1 = trace w.
Proof.
  unfold attempt_catch.
  destruct (attempt <? maxRetries).
  - unfold bind at 1.
    destruct (calculateBackoffDelay attempt baseDelay w) as [r0 w0] eqn:Ec.
    apply calculateBackoffDelay_trace in Ec.
    destruct Ec as ((d & ->) & Ho & Hr & Ht).
    unfold bind, sleep, ret. intros [= <- <-]. simpl.
    rewrite Ht. repeat split; auto. now exists d.
  - unfold ret. intros [= <- <-]. auto.
Qed.

Lemma count_sleeps_app (tr1 tr2 : list Event) :
  count_sleeps (tr1 ++ tr2) = (count_sleeps tr1 + count_sleeps tr2)%nat.
Proof. unfold count_sleeps. now rewrite filter_app, length_app. Qed.

(** An outcome of [fetch] that [fetchWithRetry] does not return from. *)
Definition unusable (outcome : FetchOutcome J) : Prop :=
  match outcome with
  | Responds resp => good_response resp = false
  | Rejects _ => True
  end.

(** An iteration that meets an unusable outcome with a retry left: one
    request, one pause, and the loop goes on. *)
Lemma retry_loop_unusable url attempt maxRetries baseDelay remaining lastError w :
  attempt < maxRetries ->
  unusable (network (oracle w) (requests w) url) ->
  exists lastError' w1 delay,
    retry_loop (S remaining) url attempt maxRetries baseDelay lastError w
    = retry_loop remaining url (attempt + 1) maxRetries baseDelay lastError' w1 /\
    oracle w1 = oracle w /\ requests w1 = S (requests w) /\
    trace w1 = trace w ++ [Fetched url; Slept delay].
Proof.
  intros Hlt Hbad. cbn [retry_loop].
  destruct (attempt_try url attempt maxRetries baseDelay w) as [r0 w0] eqn:Et.
  apply attempt_try_trace in Et. destruct Et as (Ho & Hr & Hres).
  destruct r0 as [[v|]|e].
  - destruct Hres as (_ & resp & Hn & Hgood & _).
    rewrite Hn in Hbad. simpl in Hbad. congruence.
  - destruct Hres as (_ & delay & Ht). exists lastError, w0, delay. auto.
  - destruct Hres as (Ht & _).
    destruct (attempt_catch attempt maxRetries baseDelay e w0) as [r2 w2] eqn:Ec.
    apply attempt_catch_trace in Ec. destruct Ec as (-> & Ho2 & Hr2 & Ht2).
    destruct (Z.ltb_spec attempt maxRetries); [|lia].
    destruct Ht2 as (delay & Ht2).
    exists (Some e), w2, delay. repeat split; try congruence.
    rewrite Ht2, Ht, <- app_assoc. reflexivity.
Qed.

(** An iteration that meets a usable response returns its payload. *)
Lemma retry_loop_usable url attempt maxRetries baseDelay remaining lastError w
  resp v :
  network (oracle w) (requests w) url = Responds resp ->
  good_response resp = true -> body resp = JsonBody v ->
  exists w1,
    retry_loop (S remaining) url attempt maxRetries baseDelay lastError w
    = (Ok v, w1) /\
    trace w1 = trace w ++ [Fetched url].
Proof.
  intros Hn Hgood Hbody. cbn [retry_loop].
  destruct (attempt_try url attempt maxRetries baseDelay w) as [r0 w0] eqn:Et.
  pose proof Et as Et'. apply attempt_try_trace in Et'.
  destruct Et' as (Ho & Hr & Hres).
  unfold attempt_try, bind at 1, fetch in Et. rewrite Hn in Et. simpl in Et.
  unfold good_response, json_typed in Hgood.
  apply andb_true_iff in Hgood. destruct Hgood as [Hgood _].
  apply andb_true_iff in Hgood. destruct Hgood as [Hok Htyped].
  rewrite Hok in Et. simpl in Et.
  destruct (content_type (headers resp)) as [ct|]; [|discriminate].
  rewrite Htyped in Et. unfold bind, try_catch, json, ret in Et.
  rewrite Hbody in Et. simpl in Et. injection Et as <- <-.
  eexists. split; reflexivity.
Qed.

Lemma retry_loop_first_usable url maxRetries baseDelay resp v :
  good_response resp = true -> body resp = JsonBody v ->
  forall (failures : nat) remaining attempt lastError w,
    (forall i, (i < failures)%nat ->
               unusable (network (oracle w) (requests w + i) url)) ->
    network (oracle w) (requests w + failures) url = Responds resp ->
    (failures < remaining)%nat ->
    attempt + Z.of_nat remaining = maxRetries + 1 ->
    exists w1,
      retry_loop remaining url attempt maxRetries baseDelay lastError w
      = (Ok v, w1) /\
      count_fetches (trace w1) = (count_fetches (trace w) + failures + 1)%nat /\
      count_sleeps (trace w1) = (count_sleeps (trace w) + failures)%nat.
Proof.
  intros Hgood Hbody.
  induction failures as [|failures IH];
    intros remaining attempt lastError w Hbad Hresp Hrem Hsum.
  - destruct remaining as [|remaining]; [lia|].
    rewrite Nat.add_0_r in Hresp.
    destruct (retry_loop_usable url attempt maxRetries baseDelay remaining
                lastError w resp v Hresp Hgood Hbody) as (w1 & Hrun & Ht).
    exists w1. split; [exact Hrun|]. rewrite Ht.
    rewrite count_fetches_app, count_sleeps_app. simpl.
    unfold count_fetches, count_sleeps. simpl. lia.
  - destruct remaining as [|remaining]; [lia|].
    destruct (retry_loop_unusable url attempt maxRetries baseDelay remaining
                lastError w) as (lastError' & w0 & delay & Hstep & Ho & Hr & Ht).
    + lia.
    + specialize (Hbad O ltac:(lia)). now rewrite Nat.add_0_r in Hbad.
    + rewrite Hstep.
      destruct (IH remaining (attempt + 1) lastError' w0) as (w1 & Hrun & Hf & Hs).
      * intros i Hi. rewrite Ho, Hr.
        specialize (Hbad (S i) ltac:(lia)).
        now replace (S (requests w) + i)%nat with (requests w + S i)%nat by lia.
      * rewrite Ho, Hr.
        now replace (S (requests w) + failures)%nat
          with (requests w + S failures)%nat by lia.
      * lia.
      * lia.
      * exists w1. split; [exact Hrun|]. rewrite Hf, Hs, Ht.
        rewrite count_fetches_app, count_sleeps_app.
        unfold count_fetches, count_sleeps. simpl. lia.
Qed.

(** [fetchWithRetry] checks its arguments before anything else, in this
    order: an empty URL, a negative [maxRetries] or [baseDelay], a URL
    that does not parse.  Each is refused with its own message, and the
    world is left as it was: no request, no pause, no random number. *)
Theorem fetchWithRetry_rejects_bad_arguments url maxRetries baseDelay w :
  (fetchWithRetry "" maxRetries baseDelay w
   = (Throw (Err "Valid URL is required"), w)) /\
  (forall retries delay,
     url <> ""%string -> (retries < 0 \/ (delay < 0)%Q) ->
     fetchWithRetry url (Some retries) (Some delay) w
     = (Throw (Err "maxRetries and baseDelay must be non-negative"), w)) /\
  (forall retries delay,
     url <> ""%string -> 0 <= retries -> (0 <= delay)%Q ->
     url_parses (oracle w) url = false ->
     fetchWithRetry url (Some retries) (Some delay) w
     = (Throw (Err ("Invalid URL format: " ++ url)), w)).
Proof.
  split; [reflexivity|].
  assert (Htruthy : url <> ""%string -> truthy url = true).
  { intros Hne. unfold truthy. apply negb_true_iff.
    now apply String.eqb_neq. }
  split.
  - intros retries delay Hne Hneg. unfold fetchWithRetry.
    rewrite (Htruthy Hne). simpl.
    assert (Hcond : (retries <? 0) || Qltb delay 0 = true).
    { apply orb_true_iff. destruct Hneg as [Ha|Hb].
      - left. now apply Z.ltb_lt.
      - right. unfold Qltb. apply negb_true_iff.
        destruct (Qle_bool 0 delay) eqn:E; [|reflexivity].
        apply Qle_bool_iff in E. lra. }
    now rewrite Hcond.
  - intros retries delay Hne Hr Hd Hparse. unfold fetchWithRetry.
    rewrite (Htruthy Hne). simpl.
    destruct (Z.ltb_spec retries 0); [lia|].
    assert (Hq : Qltb delay 0 = false).
    { unfold Qltb. apply negb_false_iff. now apply Qle_bool_iff. }
    rewrite Hq. simpl.
    unfold bind at 1, try_catch, new_URL, bind at 1. now rewrite Hparse.
Qed.

(** When the first responses are unusable (a rejected request, a status
    that is not 2xx, a content type that is not JSON, a body that does not
    parse) and the next response, still within the budget of retries, is
    usable, [fetchWithRetry] returns the payload of that response, having
    made one request per response and one pause after each unusable one. *)
Theorem fetchWithRetry_returns_first_usable url maxRetries baseDelay w
  (failures : nat) resp v :
  url <> ""%string -> url_parses (oracle w) url = true ->
  (0 <= baseDelay)%Q -> Z.of_nat failures <= maxRetries ->
  (forall i, (i < failures)%nat ->
             unusable (network (oracle w) (requests w + i) url)) ->
  network (oracle w) (requests w + failures) url = Responds resp ->
  good_response resp = true -> body resp = JsonBody v ->
  exists w1,
    fetchWithRetry url (Some maxRetries) (Some baseDelay) w = (Ok v, w1) /\
    count_fetches (trace w1) = (count_fetches (trace w) + failures + 1)%nat /\
    count_sleeps (trace w1) = (count_sleeps (trace w) + failures)%nat.
Proof.
  intros Hne Hparse Hbd Hbudget Hbad Hresp Hgood Hbody. unfold fetchWithRetry.
  assert (Htruthy : truthy url = true).
  { unfold truthy. apply negb_true_iff. now apply String.eqb_neq. }
  rewrite Htruthy. simpl.
  destruct (Z.ltb_spec maxRetries 0); [lia|].
  assert (Hq : Qltb baseDelay 0 = false).
  { unfold Qltb. apply negb_false_iff. now apply Qle_bool_iff. }
  rewrite Hq. simpl.
  unfold bind at 1, try_catch, new_URL, bind at 1. rewrite Hparse. simpl.
  apply (retry_loop_first_usable url maxRetries baseDelay resp v Hgood Hbody
           failures); try assumption; lia.
Qed.

Lemma retry_loop_budget url maxRetries baseDelay :
  forall remaining attempt lastError w,
    attempt + Z.of_nat remaining = maxRetries + 1 ->
    let w1 := snd (retry_loop remaining url attempt maxRetries baseDelay
                     lastError w) in
    oracle w1 = oracle w /\
    (count_fetches (trace w1) <= count_fetches (trace w) + remaining)%nat /\
    (count_sleeps (trace w1) <= count_sleeps (trace w) + Nat.pred remaining)%nat.
Proof.
  induction remaining as [|remaining IH]; intros attempt lastError w Hsum.
  - simpl. repeat split; lia.
  - cbn [retry_loop].
    destruct (attempt_try url attempt maxRetries baseDelay w) as [r0 w0] eqn:Et.
    apply attempt_try_trace in Et. destruct Et as (Ho & Hr & Hres).
    destruct r0 as [[v|]|e].
    + destruct Hres as (Ht & _). simpl. rewrite Ht.
      rewrite count_fetches_app, count_sleeps_app.
      unfold count_fetches, count_sleeps. simpl. repeat split; [assumption|lia|lia].
    + destruct Hres as (Hlt & delay & Ht).
      specialize (IH (attempt + 1) lastError w0 ltac:(lia)).
      destruct IH as (Ho' & Hf & Hs). rewrite Ht in Hf, Hs.
      rewrite count_fetches_app in Hf. rewrite count_sleeps_app in Hs.
      unfold count_fetches, count_sleeps in *. simpl in *.
      repeat split; [congruence|lia|lia].
    + destruct Hres as (Ht & _).
      destruct (attempt_catch attempt maxRetries baseDelay e w0)
        as [r2 w2] eqn:Ec.
      apply attempt_catch_trace in Ec. destruct Ec as (-> & Ho2 & Hr2 & Ht2).
      specialize (IH (attempt + 1) (Some e) w2 ltac:(lia)).
      destruct IH as (Ho' & Hf & Hs).
      destruct (Z.ltb_spec attempt maxRetries).
      * destruct Ht2 as (delay & Ht2). rewrite Ht2, Ht in Hf, Hs.
        rewrite !count_fetches_app in Hf. rewrite !count_sleeps_app in Hs.
        unfold count_fetches, count_sleeps in *. simpl in *.
        repeat split; [congruence|lia|lia].
      * rewrite Ht2, Ht in Hf, Hs.
        rewrite count_fetches_app in Hf. rewrite count_sleeps_app in Hs.
        assert (remaining = O) by lia. subst remaining.
        unfold count_fetches, count_sleeps in *. simpl in *.
        repeat split; [congruence|lia|lia].
Qed.

Lemma fetchWithRetry_within_budget url (maxRetries : option Z)
  (baseDelay : option Q) w r w1 :
  fetchWithRetry url maxRetries baseDelay w = (r, w1) ->
  let retries := match maxRetries with Some n => n | None => 3 end in
  oracle w1 = oracle w /\
  (count_fetches (trace w1)
   <= count_fetches (trace w) + Z.to_nat (retries + 1))%nat /\
  (count_sleeps (trace w1) <= count_sleeps (trace w) + Z.to_nat retries)%nat.
Proof.
  intros E retries.
  unfold fetchWithRetry in E. fold retries in E.
  set (delay := match baseDelay with Some d => d | None => 1000%Q end) in E.
  unfold throw in E.
  destruct (negb (truthy url)); [injection E as <- <-; repeat split; lia|].
  destruct (Z.ltb_spec retries 0); simpl in E;
    [injection E as <- <-; repeat split; lia|].
  destruct (Qltb delay 0); simpl in E;
    [injection E as <- <-; repeat split; lia|].
  unfold bind at 1, try_catch, new_URL, bind at 1, ret, throw in E.
  destruct (url_parses (oracle w) url); simpl in E;
    [|injection E as <- <-; repeat split; lia].
  pose proof (retry_loop_budget url retries delay (Z.to_nat (retries + 1)) 0
                None w ltac:(lia)) as Hloop.
  rewrite E in Hloop. simpl in Hloop.
  replace (Nat.pred (Z.to_nat (retries + 1)))
    with (Z.to_nat retries) in Hloop by lia.
  exact Hloop.
Qed.

(** Whatever the server does, [fetchWithRetry] makes at most
    [maxRetries + 1] requests and pauses at most [maxRetries] times. *)
Theorem fetchWithRetry_request_budget url (maxRetries : option Z)
  (baseDelay : option Q) w :
  let retries := match maxRetries with Some n => n | None => 3 end in
  let w1 := snd (fetchWithRetry url maxRetries baseDelay w) in
  oracle w1 = oracle w /\
  (count_fetches (trace w1)
   <= count_fetches (trace w) + Z.to_nat (retries + 1))%nat /\
  (count_sleeps (trace w1) <= count_sleeps (trace w) + Z.to_nat retries)%nat.
Proof.
  intros retries w1. subst w1.
  destruct (fetchWithRetry url maxRetries baseDelay w) as [r w1] eqn:E.
  exact (fetchWithRetry_within_budget url maxRetries baseDelay w r w1 E).
Qed.

(** What [fetchWithRetry] leaves in the trace when every attempt but the
    last is followed by the same pause. *)
Fixpoint paused_attempts (url : string) (pause : Number.t) (retries : nat)
  : list Event :=
  match retries with
  | O => [Fetched url]
  | S retries' => Fetched url :: Slept pause :: paused_attempts url pause retries'
  end.

Lemma retry_loop_retry_after_step url maxRetries baseDelay resp seconds
  remaining attempt lastError w :
  status resp = 429 ->
  retry_after (headers resp) = Some seconds -> truthy seconds = true ->
  network (oracle w) (requests w) url = Responds resp ->
  let pause := Number.mul (parseInt seconds) (Number.of_Z 1000) in
  let fetched :=
    {| oracle := oracle w; reads := reads w; requests := S (requests w);
       draws := draws w; trace := trace w ++ [Fetched url] |} in
  let paused :=
    {| oracle := oracle w; reads := reads w; requests := S (requests w);
       draws := draws w; trace := (trace w ++ [Fetched url]) ++ [Slept pause] |} in
  retry_loop (S remaining) url attempt maxRetries baseDelay lastError w =
  if attempt <? maxRetries
  then retry_loop remaining url (attempt + 1) maxRetries baseDelay lastError
         paused
  else retry_loop remaining url (attempt + 1) maxRetries baseDelay
         (Some (Err ("HTTP 429: " ++ statusText resp))) fetched.
Proof.
  intros H429 Hheader Htruthy Hn pause fetched paused.
  assert (Hok : ok resp = false) by (unfold ok; now rewrite H429).
  cbn [retry_loop]. unfold attempt_try, bind at 1, fetch.
  rewrite Hn. simpl. rewrite Hok, H429. simpl.
  unfold bind at 1, retry_delay. rewrite Hheader, Htruthy. unfold ret at 1.
  unfold attempt_catch.
  destruct (attempt <? maxRetries).
  - reflexivity.
  - unfold throw, ret. unfold http_error. now rewrite H429.
Qed.

Lemma retry_loop_retry_after url maxRetries baseDelay resp seconds :
  status resp = 429 ->
  retry_after (headers resp) = Some seconds -> truthy seconds = true ->
  forall remaining attempt lastError w,
    (forall n, network (oracle w) n url = Responds resp) ->
    attempt + Z.of_nat (S remaining) = maxRetries + 1 ->
    exists w1,
      retry_loop (S remaining) url attempt maxRetries baseDelay lastError w
      = (Throw (exhausted maxRetries
                  (Some (Err ("HTTP 429: " ++ statusText resp)))), w1) /\
      trace w1
      = trace w ++ paused_attempts url
                     (Number.mul (parseInt seconds) (Number.of_Z 1000))
                     remaining /\
      draws w1 = draws w.
Proof.
  intros H429 Hheader Htruthy.
  induction remaining as [|remaining IH]; intros attempt lastError w Hn Hsum;
    rewrite (retry_loop_retry_after_step url maxRetries baseDelay resp seconds
               _ attempt lastError w H429 Hheader Htruthy (Hn _)).
  - destruct (Z.ltb_spec attempt maxRetries); [lia|].
    eexists. split; [reflexivity|]. split; reflexivity.
  - destruct (Z.ltb_spec attempt maxRetries); [|lia].
    match goal with
    | |- context [retry_loop (S remaining) url (attempt + 1) maxRetries
                    baseDelay lastError ?w0] =>
        destruct (IH (attempt + 1) lastError w0) as (w1 & Hrun & Ht & Hd);
          [exact Hn|lia|]
    end.
    exists w1. split; [exact Hrun|]. rewrite Ht, Hd. simpl.
    rewrite <- !app_assoc. split; reflexivity.
Qed.

(** A server that answers every request with 429 and a [Retry-After]
    header: [fetchWithRetry] pauses after each attempt but the last for
    [parseInt(retryAfter) * 1000] milliseconds, as numbers ([NaN] when
    [parseInt] finds no digit), never for the exponential delay, draws no
    random number, and fails in the end with the status of the response. *)
Theorem fetchWithRetry_honours_retry_after url maxRetries baseDelay w
  resp seconds :
  url <> ""%string -> url_parses (oracle w) url = true ->
  0 <= maxRetries -> (0 <= baseDelay)%Q ->
  (forall n, network (oracle w) n url = Responds resp) ->
  status resp = 429 ->
  retry_after (headers resp) = Some seconds -> seconds <> ""%string ->
  exists w1,
    fetchWithRetry url (Some maxRetries) (Some baseDelay) w
    = (Throw (Err ("Request failed after " ++ string_of_Z (maxRetries + 1)
                   ++ " attempts: HTTP 429: " ++ statusText resp)), w1) /\
    trace w1
    = trace w ++ paused_attempts url
                   (Number.mul (parseInt seconds) (Number.of_Z 1000))
                   (Z.to_nat maxRetries) /\
    draws w1 = draws w.
Proof.
  intros Hne Hparse Hmr Hbd Hn H429 Hheader Hsec. unfold fetchWithRetry.
  assert (Htruthy : forall s, s <> ""%string -> truthy s = true).
  { intros s Hs. unfold truthy. apply negb_true_iff. now apply String.eqb_neq. }
  rewrite (Htruthy url Hne). simpl.
  destruct (Z.ltb_spec maxRetries 0); [lia|].
  assert (Hq : Qltb baseDelay 0 = false).
  { unfold Qltb. apply negb_false_iff. now apply Qle_bool_iff. }
  rewrite Hq. simpl.
  unfold bind at 1, try_catch, new_URL, bind at 1. rewrite Hparse. simpl.
  replace (Z.to_nat (maxRetries + 1)) with (S (Z.to_nat maxRetries)) by lia.
  destruct (retry_loop_retry_after url maxRetries baseDelay resp seconds
              H429 Hheader (Htruthy seconds Hsec) (Z.to_nat maxRetries) 0 None w)
    as (w1 & Hrun & Ht & Hd); [exact Hn|lia|].
  exists w1. split; [|split; assumption].
  rewrite Hrun. reflexivity.
Qed.

End HttpMore.

(** Responses and servers for concrete runs of [fetchWithRetry]. *)
Definition too_many_requests : Response string :=
  {| status := 429; statusText := "Too Many Requests";
     headers := {| retry_after := Some "2"%string; content_type := None |};
     body := MalformedBody "Unexpected end of JSON input" |}.

Definition empty_object : Response string :=
  {| status := 200; statusText := "OK";
     headers := {| retry_after := None;
                   content_type := Some "application/json; charset=utf-8"%string |};
     body := JsonBody "{}"%string |}.

(** A server that answers 404 twice and then 200. *)
Definition recovering_server : Oracle string :=
  {| clock := fun n => Z.of_nat n;
     network := fun n _ =>
       if (n <? 2)%nat then Responds not_found else Responds empty_object;
     random := fun _ => Number.zero;
     url_parses := fun _ => true |}.


(** A run of [fetchWithRetry_rejects_bad_arguments]: a negative number of
    retries. *)
Lemma fetchWithRetry_rejects_bad_arguments_witness :
  let w := initial_world (constant_server not_found) in
  HttpUtils.fetchWithRetry "https://dln.debridge.finance/v1.0"
    (Some (-1)) (Some 1000%Q) w
  = (Throw (Err "maxRetries and baseDelay must be non-negative"), w).
Proof.
  intros w.
  apply (fetchWithRetry_rejects_bad_arguments
           "https://dln.debridge.finance/v1.0" None None w).
  - discriminate.
  - left. lia.
Defined.

(** A run of [fetchWithRetry_returns_first_usable]: two 404 responses,
    then a JSON body. *)
Lemma fetchWithRetry_returns_first_usable_witness :
  exists w1,
    HttpUtils.fetchWithRetry "https://dln.debridge.finance/v1.0/token-list"
      (Some 3) (Some 1000%Q) (initial_world recovering_server)
    = (Ok "{}"%string, w1) /\
    count_fetches (trace w1) = 3%nat /\ count_sleeps (trace w1) = 2%nat.
Proof.
  apply (fetchWithRetry_returns_first_usable
           "https://dln.debridge.finance/v1.0/token-list" 3 1000
           (initial_world recovering_server) 2 empty_object "{}"%string).
  - discriminate.
  - reflexivity.
  - lra.
  - lia.
  - intros i Hi. simpl.
    destruct i as [|[|i]]; [reflexivity|reflexivity|lia].
  - reflexivity.
  - reflexivity.
  - reflexivity.
Defined.

(** A run of [fetchWithRetry_honours_retry_after]: 429 with
    [Retry-After: 2] every time, two retries. *)
Lemma fetchWithRetry_honours_retry_after_witness :
  let url := "https://dln.debridge.finance/v1.0/token-list"%string in
  exists w1,
    HttpUtils.fetchWithRetry url (Some 2) (Some 1000%Q)
      (initial_world (constant_server too_many_requests))
    = (Throw (Err "Request failed after 3 attempts: HTTP 429: Too Many Requests"),
       w1) /\
    trace w1 = [Fetched url; Slept (Number.of_Z 2000);
                Fetched url; Slept (Number.of_Z 2000); Fetched url].
Proof.
  intros url.
  destruct (fetchWithRetry_honours_retry_after url 2 1000
              (initial_world (constant_server too_many_requests))
              too_many_requests "2"%string)
    as (w1 & Hrun & Htrace & _);
    try reflexivity; try discriminate; try lra; try lia.
  exists w1. split; [exact Hrun|exact Htrace].
Defined.

(** [parseInt] reads a header that starts with [0x] in base 16 and skips
    leading white space: [Retry-After: 0x10] asks for 16 seconds. *)
Example retry_after_in_base_16 :
  Number.mul (parseInt "0x10") (Number.of_Z 1000) = Number.of_Z 16000 /\
  Number.mul (parseInt " 3 seconds") (Number.of_Z 1000) = Number.of_Z 3000 /\
  Number.is_nan (Number.mul (parseInt "soon") (Number.of_Z 1000)) = true.
Proof. vm_compute. repeat split. Qed.

(** ** Printing integers and reading them back *)

Section PrintParse.
Import DecimalJs.

(** The number that a sequence of digits denotes, read after [acc]. *)
Fixpoint uint_value (acc : Z) (d : Decimal.uint) : Z :=
  match d with
  | Decimal.Nil => acc
  | Decimal.D0 d => uint_value (10 * acc + 0) d
  | Decimal.D1 d => uint_value (10 * acc + 1) d
  | Decimal.D2 d => uint_value (10 * acc + 2) d
  | Decimal.D3 d => uint_value (10 * acc + 3) d
  | Decimal.D4 d => uint_value (10 * acc + 4) d
  | Decimal.D5 d => uint_value (10 * acc + 5) d
  | Decimal.D6 d => uint_value (10 * acc + 6) d
  | Decimal.D7 d => uint_value (10 * acc + 7) d
  | Decimal.D8 d => uint_value (10 * acc + 8) d
  | Decimal.D9 d => uint_value (10 * acc + 9) d
  end.

Lemma read_digits_uint d : forall acc count,
  exists count',
    read_digits (NilEmpty.string_of_uint d) acc count
    = (uint_value acc d, count', EmptyString) /\
    count <= count' /\ (d <> Decimal.Nil -> count < count').
Proof.
  induction d; intros acc count; simpl;
    try (match goal with
         | |- context [read_digits _ ?a ?c] =>
             destruct (IHd a c) as (count' & -> & Hle & _)
         end;
         exists count'; repeat split; lia).
  exists count. repeat split; [lia|congruence].
Qed.

Lemma of_uint_acc_value d : forall acc,
  Zpos (Pos.of_uint_acc d acc) = uint_value (Zpos acc) d.
Proof.
  induction d; intros acc; cbn [Pos.of_uint_acc uint_value];
    try reflexivity;
    rewrite IHd; f_equal; rewrite ?Pos2Z.inj_add, ?Pos2Z.inj_mul; lia.
Qed.

Lemma of_uint_value d : Z.of_N (Pos.of_uint d) = uint_value 0 d.
Proof.
  induction d; cbn [Pos.of_uint uint_value Z.of_N];
    try reflexivity; try assumption;
    rewrite of_uint_acc_value; reflexivity.
Qed.

Lemma to_uint_value p : uint_value 0 (Pos.to_uint p) = Zpos p.
Proof.
  rewrite <- of_uint_value, DecimalPos.Unsigned.of_to. reflexivity.
Qed.

(** The digits of a positive number start with a digit, so that they are
    neither a sign nor a name. *)
Lemma digits_of_positive p :
  exists c rest,
    NilEmpty.string_of_uint (Pos.to_uint p) = String c rest /\
    is_digit c = true.
Proof.
  pose proof (DecimalPos.Unsigned.to_uint_nonnil p) as Hnn.
  destruct (Pos.to_uint p); [congruence| | | | | | | | | |];
    simpl; eexists; eexists; split; reflexivity.
Qed.

Lemma string_of_Z_pos p :
  string_of_Z (Zpos p) = NilEmpty.string_of_uint (Pos.to_uint p).
Proof.
  unfold string_of_Z. simpl. unfold NilZero.string_of_uint.
  pose proof (DecimalPos.Unsigned.to_uint_nonnil p) as Hnn.
  now destruct (Pos.to_uint p).
Qed.

Lemma string_of_Z_neg p :
  string_of_Z (Zneg p)
  = String "-" (NilEmpty.string_of_uint (Pos.to_uint p)).
Proof.
  unfold string_of_Z. simpl. unfold NilZero.string_of_uint.
  pose proof (DecimalPos.Unsigned.to_uint_nonnil p) as Hnn.
  now destruct (Pos.to_uint p).
Qed.

Lemma read_positive p :
  exists count,
    read_digits (NilEmpty.string_of_uint (Pos.to_uint p)) 0 0
    = (Zpos p, count, EmptyString) /\ 0 < count.
Proof.
  destruct (read_digits_uint (Pos.to_uint p) 0 0) as (count & Hread & _ & Hlt).
  exists count. rewrite Hread, to_uint_value. split; [reflexivity|].
  apply Hlt. apply DecimalPos.Unsigned.to_uint_nonnil.
Qed.

(** Strings of digits: nothing to trim, no prefix of another base. *)
Fixpoint all_digits (s : string) : bool :=
  match s with
  | EmptyString => true
  | String c rest => is_digit c && all_digits rest
  end.

Lemma string_of_uint_digits d :
  all_digits (NilEmpty.string_of_uint d) = true.
Proof. induction d; simpl; auto. Qed.

Lemma digit_not_space c : is_digit c = true -> is_white_space c = false.
Proof.
  destruct c as [[|] [|] [|] [|] [|] [|] [|] [|]];
    intros Hc; try reflexivity; discriminate Hc.
Qed.

Lemma digit_no_prefix c : is_digit c = true -> radix_of_prefix c = None.
Proof.
  destruct c as [[|] [|] [|] [|] [|] [|] [|] [|]];
    intros Hc; try reflexivity; discriminate Hc.
Qed.

Lemma trim_end_digits s : all_digits s = true -> trim_end s = s.
Proof.
  induction s as [|c rest IH]; [reflexivity|].
  cbn [all_digits trim_end]. intros Hall.
  apply andb_true_iff in Hall. destruct Hall as [Hc Hrest].
  rewrite (IH Hrest). destruct rest; [|reflexivity].
  now rewrite (digit_not_space c Hc).
Qed.

Lemma trim_digits s : all_digits s = true -> trim s = s.
Proof.
  intros Hall. unfold trim.
  assert (Hstart : trim_start s = s).
  { destruct s as [|c rest]; [reflexivity|].
    cbn [all_digits] in Hall. apply andb_true_iff in Hall.
    cbn [trim_start]. now rewrite (digit_not_space c (proj1 Hall)). }
  rewrite Hstart. now apply trim_end_digits.
Qed.

Lemma trim_minus_digits s :
  all_digits s = true -> trim (String "-" s) = String "-" s.
Proof.
  intros Hall. unfold trim.
  change (trim_start (String "-" s)) with (String "-" s).
  cbn [trim_end]. rewrite (trim_end_digits s Hall). now destruct s.
Qed.

Lemma nondecimal_literal_digits s :
  all_digits s = true -> nondecimal_literal s = None.
Proof.
  destruct s as [|c [|c' rest]].
  - reflexivity.
  - intros _. now destruct c as [[|] [|] [|] [|] [|] [|] [|] [|]].
  - cbn [all_digits]. intros Hall.
    apply andb_true_iff in Hall. destruct Hall as [_ Hall].
    apply andb_true_iff in Hall. destruct Hall as [Hc' _].
    unfold nondecimal_literal. rewrite (digit_no_prefix c' Hc').
    now destruct c as [[|] [|] [|] [|] [|] [|] [|] [|]].
Qed.

(** [BigInt(String(n)) = n] *)
Lemma BigInt_of_string_of_Z (n : Z) : BigInt_of_string (string_of_Z n) = Some n.
Proof.
  destruct n as [|p|p].
  - reflexivity.
  - rewrite string_of_Z_pos.
    pose proof (string_of_uint_digits (Pos.to_uint p)) as Hall.
    destruct (digits_of_positive p) as (c & rest & Hs & Hc).
    destruct (read_positive p) as (count & Hread & Hcount).
    unfold BigInt_of_string.
    rewrite (trim_digits _ Hall). rewrite Hs in *. cbv iota beta.
    rewrite (nondecimal_literal_digits _ Hall).
    assert (Hsign : read_sign (String c rest) = (false, String c rest)).
    { unfold read_sign.
      destruct c as [[|] [|] [|] [|] [|] [|] [|] [|]]; try reflexivity;
        discriminate Hc. }
    rewrite Hsign, Hread.
    destruct (Z.eqb_spec count 0); [lia|reflexivity].
  - rewrite string_of_Z_neg.
    pose proof (string_of_uint_digits (Pos.to_uint p)) as Hall.
    destruct (read_positive p) as (count & Hread & Hcount).
    unfold BigInt_of_string.
    rewrite (trim_minus_digits _ Hall). cbv iota beta.
    change (nondecimal_literal
              (String "-" (NilEmpty.string_of_uint (Pos.to_uint p))))
      with (@None Z).
    unfold read_sign. rewrite Hread.
    destruct (Z.eqb_spec count 0); [lia|reflexivity].
Qed.

Lemma Qred_inject_Z (n : Z) : Qred (inject_Z n) = inject_Z n.
Proof.
  unfold Qred, inject_Z.
  pose proof (Z.ggcd_gcd n 1) as Hg.
  pose proof (Z.ggcd_correct_divisors n 1) as Hd.
  destruct (Z.ggcd n 1) as [g [a b]]. simpl in *.
  rewrite Z.gcd_1_r in Hg. subst g. destruct Hd as [Ha Hb].
  rewrite Z.mul_1_l in Ha, Hb. now subst.
Qed.

Lemma read_unsigned_positive p :
  exists q,
    read_unsigned (NilEmpty.string_of_uint (Pos.to_uint p)) = Some q /\
    (q == inject_Z (Zpos p))%Q.
Proof.
  destruct (read_positive p) as (count & Hread & Hcount).
  unfold read_unsigned. rewrite Hread.
  destruct (Z.eqb_spec (count + 0) 0); [lia|].
  eexists. split; [reflexivity|].
  change (pow10 (- 0)) with 1%Q. ring.
Qed.

(** [new Decimal(String(n))] is the integer [n]. *)
Lemma of_string_of_Z (n : Z) :
  of_string (string_of_Z n) = Ok (Finite (inject_Z n)).
Proof.
  destruct n as [|p|p].
  - reflexivity.
  - rewrite string_of_Z_pos.
    destruct (digits_of_positive p) as (c & rest & Hs & Hc).
    destruct (read_unsigned_positive p) as (q & Hread & Hq).
    unfold of_string. rewrite Hs in *.
    assert (Hsign : read_sign (String c rest) = (false, String c rest)).
    { unfold read_sign.
      destruct c as [[|] [|] [|] [|] [|] [|] [|] [|]]; try reflexivity;
        discriminate Hc. }
    rewrite Hsign, Hread. unfold with_sign.
    do 2 f_equal. rewrite <- Qred_inject_Z. now apply Qred_complete.
  - rewrite string_of_Z_neg.
    destruct (read_unsigned_positive p) as (q & Hread & Hq).
    unfold of_string, read_sign. rewrite Hread. unfold with_sign.
    do 2 f_equal. rewrite <- Qred_inject_Z. apply Qred_complete.
    rewrite Hq. reflexivity.
Qed.

End PrintParse.

(** ** Decimal arithmetic that is exact *)

Section DecimalExact.
Import DecimalJs.
Local Open Scope Q_scope.

Lemma Qfloor_half (n : Z) : Qfloor (inject_Z n + (1 # 2)) = n.
Proof.
  pose proof (Qfloor_le (inject_Z n + (1 # 2))) as Hle.
  pose proof (Qlt_floor (inject_Z n + (1 # 2))) as Hlt.
  set (f := Qfloor (inject_Z n + (1 # 2))) in *.
  assert (H1 : inject_Z f < inject_Z (n + 1)).
  { rewrite inject_Z_plus. change (inject_Z 1) with 1. lra. }
  assert (H2 : inject_Z n < inject_Z (f + 1)) by lra.
  rewrite <- Zlt_Qlt in H1, H2. lia.
Qed.

(** A decimal with at most [p] significant digits. *)
Definition significant (p : Z) (q : Q) : Prop :=
  exists m k : Z, q == inject_Z m * pow10 k /\ (Z.abs m < 10 ^ p)%Z.

Lemma magnitude_exact p a m k :
  (1 <= p)%Z -> 0 < a ->
  a == inject_Z m * pow10 k -> (0 < m < 10 ^ p)%Z ->
  magnitude p a == a.
Proof.
  intros Hp Ha Hq Hm. unfold magnitude.
  destruct (ilog10_spec a Ha) as [Hlo Hhi].
  assert (HL : (ilog10 a < p + k)%Z).
  { destruct (Z.lt_ge_cases (ilog10 a) (p + k)) as [|Hge]; [assumption|].
    exfalso. apply pow10_le_mono in Hge.
    assert (Hlt : a < pow10 (p + k)).
    { rewrite Hq, pow10_add. apply Qmult_lt_compat_r; [apply pow10_pos|].
      rewrite pow10_inject by lia. rewrite <- Zlt_Qlt. lia. }
    lra. }
  set (e := (ilog10 a - (p - 1))%Z).
  assert (Hke : (0 <= k - e)%Z) by (subst e; lia).
  assert (Hscaled : a * pow10 (- e) == inject_Z (m * 10 ^ (k - e))).
  { rewrite Hq, <- Qmult_assoc, <- pow10_add.
    replace (k + - e)%Z with (k - e)%Z by lia.
    rewrite pow10_inject by lia. now rewrite inject_Z_mult. }
  rewrite Hscaled, Qfloor_half, inject_Z_mult, <- pow10_inject by lia.
  rewrite <- Qmult_assoc, <- pow10_add.
  replace (k - e + e)%Z with k by lia. now rewrite Hq.
Qed.

(** Rounding to [p] significant digits leaves a decimal with at most [p]
    significant digits as it is. *)
Lemma round_sd_exact p q :
  (1 <= p)%Z -> significant p q -> round_sd p q = Qred q.
Proof.
  intros Hp (m & k & Hq & Hm). rewrite round_sd_unfold.
  destruct (Qeq_bool q 0) eqn:Ez.
  - apply Qeq_bool_eq in Ez. symmetry. exact (Qred_complete q 0 Ez).
  - apply Qeq_bool_neq in Ez.
    assert (Hm0 : m <> 0%Z).
    { intros ->. apply Ez. rewrite Hq. ring. }
    assert (Habs : Qred (Qabs q) == inject_Z (Z.abs m) * pow10 k).
    { rewrite Qred_correct, Hq, Qabs_Qmult.
      rewrite (Qabs_pos (pow10 k)) by (apply Qlt_le_weak, pow10_pos).
      reflexivity. }
    assert (Hpos : 0 < Qred (Qabs q)) by now apply Qabs_pos_of_nonzero.
    pose proof (magnitude_exact p (Qred (Qabs q)) (Z.abs m) k Hp Hpos Habs
                  ltac:(lia)) as Hmag.
    apply Qred_complete.
    destruct (Qle_bool 0 q) eqn:Es.
    + apply Qle_bool_iff in Es.
      rewrite Hmag, Qred_correct. now apply Qabs_pos.
    + assert (Hneg : q <= 0).
      { destruct (Qlt_le_dec 0 q) as [Hlt|]; [|assumption].
        apply Qlt_le_weak, Qle_bool_iff in Hlt. congruence. }
      rewrite Hmag, Qred_correct, (Qabs_neg q Hneg). ring.
Qed.

Lemma significant_proper p q q' : q == q' -> significant p q -> significant p q'.
Proof. intros Heq (m & k & Hq & Hm). exists m, k. now rewrite <- Heq. Qed.

Lemma significant_shift p q n : significant p q -> significant p (q * pow10 n).
Proof.
  intros (m & k & Hq & Hm). exists m, (k + n)%Z. split; [|assumption].
  rewrite Hq, pow10_add. ring.
Qed.

Lemma ten_pow_nonzero n : Qeq_bool (Qred (pow10 n)) 0 = false.
Proof.
  destruct (Qeq_bool (Qred (pow10 n)) 0) eqn:E; [|reflexivity].
  apply Qeq_bool_eq in E. rewrite Qred_correct in E.
  pose proof (pow10_pos n). lra.
Qed.

Lemma pow10_opp n : pow10 (- n) == / pow10 n.
Proof. unfold pow10. apply Qpower_opp. Qed.

(** Multiplying or dividing by a power of ten is exact on decimals of at
    most 20 significant digits. *)
Lemma times_ten_pow_exact q n :
  significant precision q ->
  times (Finite q) (ten_pow n) = Finite (Qred (q * pow10 n)).
Proof.
  intros Hsig. unfold times, ten_pow. f_equal.
  rewrite (round_sd_proper precision _ (q * pow10 n))
    by now rewrite Qred_correct.
  apply round_sd_exact; [unfold precision; lia|].
  now apply significant_shift.
Qed.

Lemma div_ten_pow_exact q n :
  significant precision q ->
  div (Finite q) (ten_pow n) = Finite (Qred (q * pow10 (- n))).
Proof.
  intros Hsig. unfold div, ten_pow. rewrite ten_pow_nonzero. f_equal.
  rewrite (round_sd_proper precision _ (q * pow10 (- n))).
  - apply round_sd_exact; [unfold precision; lia|].
    now apply significant_shift.
  - rewrite Qred_correct, pow10_opp. reflexivity.
Qed.

End DecimalExact.

(** ** [DecimalUtils]: amounts and fees *)

Section DecimalUtilsMore.
Import DecimalJs DecimalUtils.
Local Open Scope Q_scope.

Lemma toFixed_nonneg q :
  0 <= q -> toFixed_0_down (Finite q) = string_of_Z (Qfloor q).
Proof.
  intros Hq. unfold toFixed_0_down, is_negative.
  assert (Hle : Qle_bool 0 q = true) by now apply Qle_bool_iff.
  rewrite Hle. simpl.
  assert (Hnum : (0 <= Qnum q)%Z).
  { unfold Qle in Hq. simpl in Hq. lia. }
  unfold Qfloor. destruct q as [n d]. simpl in *.
  rewrite Z.quot_div_nonneg by lia.
  rewrite Z.abs_eq by (apply Z.div_pos; lia). reflexivity.
Qed.

Lemma toFixed_times_ten_pow q decimals :
  0 <= q -> significant precision q ->
  toFixed_0_down (times (Finite q) (ten_pow decimals))
  = string_of_Z (Qfloor (q * pow10 decimals)).
Proof.
  intros Hq Hsig. rewrite times_ten_pow_exact by assumption.
  rewrite toFixed_nonneg.
  - now rewrite Qred_correct.
  - rewrite Qred_correct. apply Qmult_le_0_compat; [assumption|].
    apply Qlt_le_weak, pow10_pos.
Qed.



(** *** [sumFees] *)

Lemma add_fee_thrown fees e :
  fold_left add_fee fees (Throw e) = Throw e.
Proof. induction fees as [|fee fees IH]; simpl; [reflexivity|exact IH]. Qed.

Lemma add_fee_skipped sum fee : no_amount fee = true -> add_fee sum fee = sum.
Proof.
  intros Hno. unfold add_fee. destruct sum as [s|e]; simpl; [|reflexivity].
  now rewrite Hno.
Qed.

(** Fees without an amount (a missing fee, a missing or empty amount, an
    amount of zero or [NaN]) are passed over: the result is that of the
    other fees alone. *)
Theorem sumFees_passes_over_missing fees :
  sumFees fees = sumFees (filter (fun fee => negb (no_amount fee)) fees).
Proof.
  unfold sumFees. f_equal.
  generalize (Ok (Finite 0) : Result DecimalJs.t).
  induction fees as [|fee fees IH]; intros sum; cbn [fold_left filter];
    [reflexivity|].
  destruct (no_amount fee) eqn:Hno; cbn [negb fold_left].
  - rewrite add_fee_skipped by assumption. apply IH.
  - apply IH.
Qed.

(** A fee whose amount the constructor of [Decimal] refuses. *)
Definition unreadable (fee : option Arg) : Prop :=
  exists s, fee = Some (Str s) /\ s <> ""%string /\
            is_ok (of_string s) = false.

Lemma add_fee_ok sum fee :
  ~ unreadable fee -> exists sum', add_fee (Ok sum) fee = Ok sum'.
Proof.
  intros Hread. unfold add_fee. simpl.
  destruct (no_amount fee) eqn:Hno; [eauto|].
  destruct fee as [[s|x]|]; [| |eauto].
  - unfold create. destruct (of_string s) as [d|e] eqn:Eparse; simpl; [eauto|].
    exfalso. apply Hread. exists s. split; [reflexivity|].
    split; [|now rewrite Eparse].
    intros ->. discriminate Hno.
  - simpl. eauto.
Qed.

Lemma add_fee_unreadable sum fee :
  unreadable fee ->
  exists e, add_fee (Ok sum) fee = Throw e.
Proof.
  intros (s & -> & Hne & Hbad). unfold add_fee. simpl.
  assert (Htruthy : truthy s = true).
  { unfold truthy. apply negb_true_iff. now apply String.eqb_neq. }
  rewrite Htruthy. simpl.
  destruct (of_string s) as [d|e]; [discriminate|]. simpl. eauto.
Qed.

Lemma fold_add_fee fees : forall sum,
  (Forall (fun fee => ~ unreadable fee) fees ->
   exists sum', fold_left add_fee fees (Ok sum) = Ok sum') /\
  (Exists unreadable fees ->
   exists e, fold_left add_fee fees (Ok sum) = Throw e).
Proof.
  induction fees as [|fee fees IH]; intros sum; cbn [fold_left].
  - split; [eauto|]. intros Hex. inversion Hex.
  - split.
    + intros Hall. inversion Hall as [|? ? Hfee Hrest]; subst.
      destruct (add_fee_ok sum fee Hfee) as (sum' & ->).
      now apply IH.
    + intros Hex.
      destruct (add_fee (Ok sum) fee) as [sum'|e] eqn:Estep.
      * inversion Hex as [? ? Hfee|? ? Hrest]; subst.
        -- destruct (add_fee_unreadable sum fee Hfee) as (e & He). congruence.
        -- now apply IH.
      * rewrite add_fee_thrown. eauto.
Qed.

(** [sumFees] fails exactly when some fee has a non-empty string amount
    that is not a number; its error then begins with "Fee calculation
    failed: ".  Otherwise it returns a number. *)
Theorem sumFees_fails_on_unreadable_amount fees :
  (Exists unreadable fees ->
   exists e, sumFees fees
             = Throw (Err ("Fee calculation failed: " ++ message e))) /\
  (Forall (fun fee => ~ unreadable fee) fees ->
   exists total, sumFees fees = Ok total).
Proof.
  unfold sumFees. split.
  - intros Hex.
    destruct (proj2 (fold_add_fee fees (Finite 0)) Hex) as (e & ->). eauto.
  - intros Hall.
    destruct (proj1 (fold_add_fee fees (Finite 0)) Hall) as (sum & ->). eauto.
Qed.

(** *** Rates of equal amounts *)


(** Equal finite rates: the slippage is 0. *)
Theorem calculateSlippageBps_same_rate (rate : Number.t) :
  match rate with S754_nan | S754_infinity _ => False | _ => True end ->
  calculateSlippageBps rate rate = Ok (Number.of_Z 0).
Proof.
  intros Hfinite. unfold calculateSlippageBps, create, and_then.
  destruct (isZero (of_number rate)) eqn:Ez; [reflexivity|].
  destruct rate as [s|s| |s m e]; try contradiction; [discriminate|].
  unfold of_number in *.
  destruct (Number.to_Q (S754_finite s m e)) as [v|] eqn:Ev;
    [|unfold Number.to_Q in Ev; discriminate].
  set (q := shortest_digits 17 1 v (S754_finite s m e)) in *.
  simpl in Ez. unfold minus.
  assert (Hzero : q - q == 0) by ring.
  rewrite (round_sd_proper precision (q - q) 0 Hzero).
  change (round_sd precision 0) with 0.
  unfold div. rewrite Ez. simpl. reflexivity.
Qed.

End DecimalUtilsMore.



(** A run of [sumFees_fails_on_unreadable_amount]. *)
Lemma sumFees_fails_on_unreadable_amount_witness :
  exists e,
    DecimalUtils.sumFees
      [Some (DecimalJs.Str "0.25"); None; Some (DecimalJs.Str "n/a")]
    = Throw (Err ("Fee calculation failed: " ++ message e)).
Proof.
  apply (sumFees_fails_on_unreadable_amount
           [Some (DecimalJs.Str "0.25"); None; Some (DecimalJs.Str "n/a")]).
  apply Exists_cons_tl, Exists_cons_tl, Exists_cons_hd.
  exists "n/a"%string. split; [reflexivity|]. split; [discriminate|reflexivity].
Defined.

(** What decimal.js reads is what counts: an amount in base 16 or with
    underscores is added, an amount with white space is not read. *)
Example sumFees_other_notations :
  DecimalUtils.sumFees
    [Some (DecimalJs.Str "0x10"); Some (DecimalJs.Str "1_000")]
  = Ok (Number.of_Z 1016) /\
  DecimalUtils.sumFees [Some (DecimalJs.Str " 1")]
  = Throw (Err "Fee calculation failed: [DecimalError] Invalid argument:  1").
Proof. vm_compute. split; reflexivity. Qed.


(** A run of [calculateSlippageBps_same_rate]. *)
Lemma calculateSlippageBps_same_rate_witness :
  DecimalUtils.calculateSlippageBps (Number.of_Q (999 # 1000))
    (Number.of_Q (999 # 1000))
  = Ok (Number.of_Z 0).
Proof.
  apply (calculateSlippageBps_same_rate (Number.of_Q (999 # 1000))).
  exact I.
Defined.

(** ** [RateLimiter]

    The limiter of the service (10 tokens, 10 per second) when the calls
    come within one millisecond: ten pass at once, the eleventh waits
    100 ms and leaves the bucket empty. *)

Definition same_millisecond : Oracle Json :=
  {| clock := fun _ => 0;
     network := fun _ _ => Rejects (Err "offline");
     random := fun _ => Number.zero;
     url_parses := fun _ => true |}.

Fixpoint acquire_times (n : nat) (rl : RateLimiter.t) (w : World Json)
  : RateLimiter.t * World Json :=
  match n with
  | O => (rl, w)
  | S n' =>
      let (rl', w') := RateLimiter.acquire rl w in acquire_times n' rl' w'
  end.

Example limiter_ten_calls_at_once :
  let start := RateLimiter.create (Number.of_Z 10) (Number.of_Z 10)
                 (initial_world same_millisecond) in
  let ten := acquire_times 10 (fst start) (snd start) in
  let eleven := acquire_times 11 (fst start) (snd start) in
  trace (snd ten) = [] /\
  RateLimiter.tokens (fst ten) = Number.zero /\
  trace (snd eleven) = [Slept (Number.of_Z 100)] /\
  RateLimiter.tokens (fst eleven) = Number.zero.
Proof. vm_compute. repeat split. Qed.

(** ** [DataProviderService]: quotes and health check *)

Section QuoteFacts.
Import DataProviderService.

(** Taking a token makes no request and leaves the network as it is. *)
Lemma limiter_acquire_world rl (w : World Json) :
  let w' := snd (RateLimiter.acquire rl w) in
  oracle w' = oracle w /\ requests w' = requests w /\
  count_fetches (trace w') = count_fetches (trace w).
Proof.
  unfold RateLimiter.acquire, RateLimiter.refill.
  cbn [Date_now Clock_World RateLimiter.tokens].
  destruct (Number.leb _ _); cbn [snd sleep oracle requests trace];
    repeat split.
  rewrite count_fetches_app. unfold count_fetches. simpl. lia.
Qed.

(** The part of the service that no request for a quote changes. *)
Definition same_endpoints (svc svc' : DataProviderService.t) : Prop :=
  dlnApiBase svc' = dlnApiBase svc /\
  defillamaBaseUrl svc' = defillamaBaseUrl svc /\
  quoteCache svc' = quoteCache svc /\
  volumeCache svc' = volumeCache svc /\
  tokenListCache svc' = tokenListCache svc /\
  dlnCircuit svc' = dlnCircuit svc.

Lemma same_endpoints_refl svc : same_endpoints svc svc.
Proof. repeat split. Qed.

Lemma same_endpoints_trans a b c :
  same_endpoints a b -> same_endpoints b c -> same_endpoints a c.
Proof. unfold same_endpoints. intuition congruence. Qed.

(** A status on which [fetchQuoteWithRetry] gives up at once. *)
Definition final_status (resp : Response Json) : Prop :=
  ok resp = false /\ status resp < 500 /\ status resp <> 429.

(** One iteration of the loop: it never throws, makes exactly one
    request, returns a quote only with an estimation, and ends the loop
    on a final status. *)
Lemma quote_attempt_spec url attempt maxRetries st :
  exists step st',
    quote_attempt url attempt maxRetries st = (Ok step, st') /\
    same_endpoints (fst st) (fst st') /\
    oracle (snd st') = oracle (snd st) /\
    requests (snd st') = S (requests (snd st)) /\
    count_fetches (trace (snd st')) = S (count_fetches (trace (snd st))) /\
    (forall quote, step = Done (Some quote) -> estimation quote <> None) /\
    (step = Again -> attempt < maxRetries) /\
    (forall resp,
       network (oracle (snd st)) (requests (snd st)) url = Responds resp ->
       final_status resp -> step = Done None).
Proof.
  destruct st as [svc w].
  unfold quote_attempt, try_catch, bind at 1, acquire. simpl.
  pose proof (limiter_acquire_world (rateLimiter svc) w) as (Ho & Hr & Hc).
  destruct (RateLimiter.acquire (rateLimiter svc) w) as [rl w1]. simpl in *.
  unfold bind at 1, in_world, fetch. simpl.
  assert (Hcount : count_fetches (trace w1 ++ [Fetched url])
                   = S (count_fetches (trace w))).
  { rewrite count_fetches_app, Hc. unfold count_fetches. simpl. lia. }
  assert (Hcount' : forall ms,
    count_fetches ((trace w1 ++ [Fetched url]) ++ [Slept ms])
    = S (count_fetches (trace w))).
  { intros ms. rewrite count_fetches_app, Hcount.
    unfold count_fetches. simpl. lia. }
  rewrite Ho, Hr.
  destruct (network (oracle w) (requests w) url) as [resp|e] eqn:En; simpl.
  - destruct (ok resp) eqn:Eok; simpl.
    + unfold bind at 1, json.
      destruct (body resp) as [payload|]; simpl.
      * destruct (estimation (as_quote payload)) as [est|] eqn:Eest;
          unfold ret; simpl;
          eexists; eexists; (split; [reflexivity|]); simpl;
          (split; [repeat split|]); do 2 (split; [reflexivity|]);
          (split; [exact Hcount|]).
        -- split; [intros quote [= <-]; congruence|].
           split; [discriminate|].
           intros resp' [= <-] (Hnot & _). congruence.
        -- split; [discriminate|]. split; [discriminate|reflexivity].
      * destruct ((attempt <? maxRetries) && _) eqn:Eretry;
          unfold bind, sleep, ret; simpl;
          eexists; eexists; (split; [reflexivity|]); simpl;
          (split; [repeat split|]); do 2 (split; [reflexivity|]);
          (split; [first [exact Hcount|apply Hcount']|]).
        -- split; [discriminate|]. split.
           ++ intros _. apply andb_true_iff in Eretry. now apply Z.ltb_lt.
           ++ intros resp' [= <-] (Hnot & _). congruence.
        -- split; [discriminate|]. split; [discriminate|reflexivity].
    + destruct ((attempt <? maxRetries)
                && ((500 <=? status resp) || (status resp =? 429))) eqn:Eretry;
        unfold bind, sleep, ret; simpl;
        eexists; eexists; (split; [reflexivity|]); simpl;
        (split; [repeat split|]); do 2 (split; [reflexivity|]);
        (split; [first [exact Hcount|apply Hcount']|]).
      * split; [discriminate|]. split.
        -- intros _. apply andb_true_iff in Eretry. now apply Z.ltb_lt.
        -- intros resp' [= <-] (_ & Hlt & Hne).
           apply andb_true_iff in Eretry. destruct Eretry as [_ Hor].
           apply orb_true_iff in Hor. destruct Hor as [H5|H4].
           ++ apply Z.leb_le in H5. lia.
           ++ apply Z.eqb_eq in H4. contradiction.
      * split; [discriminate|]. split; [discriminate|reflexivity].
  - destruct ((attempt <? maxRetries) && _) eqn:Eretry;
      unfold bind, sleep, ret; simpl;
      eexists; eexists; (split; [reflexivity|]); simpl;
      (split; [repeat split|]); do 2 (split; [reflexivity|]);
      (split; [first [exact Hcount|apply Hcount']|]).
    + split; [discriminate|]. split; [|discriminate].
      intros _. apply andb_true_iff in Eretry. now apply Z.ltb_lt.
    + split; [discriminate|]. split; discriminate.
Qed.

Lemma quote_loop_spec url maxRetries : forall remaining attempt st,
  exists quote st',
    quote_loop remaining url attempt maxRetries st = (Ok quote, st') /\
    same_endpoints (fst st) (fst st') /\
    oracle (snd st') = oracle (snd st) /\
    (count_fetches (trace (snd st'))
     <= count_fetches (trace (snd st)) + remaining)%nat /\
    (forall q, quote = Some q -> estimation q <> None).
Proof.
  induction remaining as [|remaining IH]; intros attempt st.
  - exists None, st. simpl. unfold ret.
    repeat split; try lia; discriminate.
  - cbn [quote_loop]. unfold bind at 1.
    destruct (quote_attempt_spec url attempt maxRetries st)
      as (step & st1 & -> & Hsame & Ho & _ & Hc & Hest & _).
    destruct step as [result|].
    + exists result, st1. unfold ret.
      repeat split; try apply Hsame; try assumption; try lia.
      intros q ->. now apply Hest.
    + destruct (IH (attempt + 1) st1) as (quote & st2 & Hrun & Hsame' & Ho' & Hc' & Hest').
      exists quote, st2. split; [exact Hrun|].
      split; [eapply same_endpoints_trans; eassumption|].
      split; [congruence|]. split; [lia|assumption].
Qed.

(** [fetchQuoteWithRetry], once the URL of the endpoint parses, never
    throws: it returns [null] or a quote that has an estimation, after at
    most [maxRetries + 1] requests, and changes nothing in the service but
    the rate limiter. *)
Theorem fetchQuoteWithRetry_returns src dst amount (maxRetries : option Z) st :
  url_parses (oracle (snd st)) (dlnApiBase (fst st) ++ "/dln/order/create-tx")
  = true ->
  let retries := match maxRetries with Some n => n | None => 3 end in
  exists quote st',
    fetchQuoteWithRetry src dst amount maxRetries st = (Ok quote, st') /\
    same_endpoints (fst st) (fst st') /\
    (count_fetches (trace (snd st'))
     <= count_fetches (trace (snd st)) + Z.to_nat (retries + 1))%nat /\
    (forall q, quote = Some q -> estimation q <> None).
Proof.
  intros Hparse retries. unfold fetchQuoteWithRetry. fold retries.
  unfold bind at 1, this. simpl.
  unfold bind at 1, in_world, new_URL. simpl. rewrite Hparse. simpl.
  destruct (quote_loop_spec
              (probe_quote_url (dlnApiBase (fst st) ++ "/dln/order/create-tx")
                 src dst amount)
              retries (Z.to_nat (retries + 1)) 0 (fst st, snd st))
    as (quote & st' & Hrun & Hsame & _ & Hc & Hest).
  exists quote, st'. auto.
Qed.

(** A response with a status below 500 other than 429 (and not 2xx) ends
    [fetchQuoteWithRetry] at once: [null] after that one request. *)
Theorem fetchQuoteWithRetry_gives_up_on_client_error src dst amount
  (maxRetries : Z) st resp :
  let endpoint := (dlnApiBase (fst st) ++ "/dln/order/create-tx")%string in
  url_parses (oracle (snd st)) endpoint = true ->
  0 <= maxRetries ->
  network (oracle (snd st)) (requests (snd st))
    (probe_quote_url endpoint src dst amount) = Responds resp ->
  ok resp = false -> status resp < 500 -> status resp <> 429 ->
  exists st',
    fetchQuoteWithRetry src dst amount (Some maxRetries) st = (Ok None, st') /\
    count_fetches (trace (snd st')) = S (count_fetches (trace (snd st))).
Proof.
  intros endpoint Hparse Hretries Hresp Hok Hlt Hne.
  unfold fetchQuoteWithRetry.
  unfold bind at 1, this. simpl.
  unfold bind at 1, in_world, new_URL. simpl. fold endpoint.
  rewrite Hparse. simpl.
  replace (Z.to_nat (maxRetries + 1)) with (S (Z.to_nat maxRetries)) by lia.
  cbn [quote_loop]. unfold bind at 1.
  destruct (quote_attempt_spec (probe_quote_url endpoint src dst amount)
              0 maxRetries (fst st, snd st))
    as (step & st1 & -> & _ & _ & _ & Hc & _ & _ & Hfinal).
  rewrite (Hfinal resp Hresp) by (repeat split; assumption).
  exists st1. split; [reflexivity|exact Hc].
Qed.

(** [ping] answers "ok" whatever becomes of its request: after at most
    two requests, with the service as it was. *)
Theorem ping_always_ok st :
  exists timestamp st',
    ping st = (Ok {| pong_status := "ok"; pong_timestamp := timestamp |}, st') /\
    fst st' = fst st /\
    (count_fetches (trace (snd st'))
     <= count_fetches (trace (snd st)) + 2)%nat.
Proof.
  destruct st as [svc w]. unfold ping, try_catch at 1.
  unfold bind at 1, this. simpl.
  unfold bind at 1, try_catch, bind at 1, in_world. simpl.
  destruct (HttpUtils.fetchWithRetry
              (dlnApiBase svc ++ "/supported-chains-info") (Some 1)
              (Some 500%Q) w) as [r w1] eqn:Efetch.
  pose proof (fetchWithRetry_within_budget _ _ _ _ _ _ Efetch)
    as (_ & Hc & _). simpl in Hc.
  unfold bind, now, in_world, lift, ret.
  destruct r as [payload|e]; simpl;
    destruct (Date_now w1) as [t w2] eqn:Enow;
    unfold Date_now, Clock_World in Enow; injection Enow as <- <-;
    eexists; eexists; (split; [reflexivity|]); simpl; split; auto.
Qed.

End QuoteFacts.

(** A run of [fetchQuoteWithRetry_returns]: every request answered with
    HTTP 500. *)
Lemma fetchQuoteWithRetry_returns_witness :
  exists quote st',
    DataProviderService.fetchQuoteWithRetry USDC_mainnet USDC_polygon
      "1000000000" None (service_against internal_server_error)
    = (Ok quote, st') /\
    (count_fetches (trace (snd st')) <= 4)%nat.
Proof.
  destruct (fetchQuoteWithRetry_returns USDC_mainnet USDC_polygon
              "1000000000" None (service_against internal_server_error))
    as (quote & st' & Hrun & _ & Hcount & _); [reflexivity|].
  exists quote, st'. split; [exact Hrun|exact Hcount].
Defined.

Definition bad_request : Response Json :=
  {| status := 400; statusText := "Bad Request";
     headers := {| retry_after := None;
                   content_type := Some "application/json"%string |};
     body := JsonBody JNull |}.

(** A run of [fetchQuoteWithRetry_gives_up_on_client_error]: HTTP 400. *)
Lemma fetchQuoteWithRetry_gives_up_on_client_error_witness :
  exists st',
    DataProviderService.fetchQuoteWithRetry USDC_mainnet USDC_polygon
      "1000000000" (Some 3) (service_against bad_request)
    = (Ok None, st') /\
    count_fetches (trace (snd st')) = 1%nat.
Proof.
  apply (fetchQuoteWithRetry_gives_up_on_client_error USDC_mainnet USDC_polygon
           "1000000000" 3 (service_against bad_request) bad_request);
    try reflexivity; try lia. discriminate.
Defined.

(** A body that does not parse and whose error message names the network:
    [response.json()] rejects inside the [try], the message is taken for
    a network error, and the request is made again, four times in all. *)
Definition error_page : Response Json :=
  {| status := 200; statusText := "OK";
     headers := {| retry_after := None;
                   content_type := Some "text/html"%string |};
     body := MalformedBody
               "Unexpected token 'e', network error page is not valid JSON" |}.

Example fetchQuoteWithRetry_retries_parse_error :
  let run := DataProviderService.fetchQuoteWithRetry USDC_mainnet USDC_polygon
               "1000000000" None (service_against error_page) in
  fst run = Ok None /\ count_fetches (trace (snd (snd run))) = 4%nat.
Proof. vm_compute. split; reflexivity. Qed.

(** ** [DataProviderService]: volumes *)

Section VolumeFacts.
Import DataProviderService.

(** The URL that [fetchDefiLlamaVolumes] requests. *)
Definition volumes_url (svc : DataProviderService.t) : string :=
  (strip_trailing_slash (defillamaBaseUrl svc) ++ "/bridge/"
   ++ DEBRIDGE_LLAMA_ID)%string.

(** [getVolumes] never throws; it returns either nothing or one entry for
    each requested window, in the order of the request, all with the same
    time of measurement. *)
Theorem getVolumes_one_entry_per_window windows st :
  exists volumes st',
    getVolumes windows st = (Ok volumes, st') /\
    (volumes = [] \/
     map window volumes = windows /\
     exists measuredAt,
       Forall (fun v => volume_measuredAt v = measuredAt) volumes).
Proof.
  unfold getVolumes, try_catch, bind at 1.
  destruct (fetchDefiLlamaVolumes st) as [[[data|]|e] st1]; unfold ret;
    try (eexists; eexists; split; [reflexivity|now left]).
  unfold bind, now, in_world, lift.
  destruct (Date_now (snd st1)) as [t w]. simpl.
  eexists; eexists; split; [reflexivity|]. right. split.
  - rewrite map_map. simpl. apply map_id.
  - exists t. apply Forall_forall. intros v Hin.
    apply in_map_iff in Hin. destruct Hin as (x & <- & _). reflexivity.
Qed.

Lemma limiter_acquire_reads rl (w : World Json) :
  reads (snd (RateLimiter.acquire rl w)) = S (reads w).
Proof.
  unfold RateLimiter.acquire, RateLimiter.refill.
  cbn [Date_now Clock_World RateLimiter.tokens].
  now destruct (Number.leb _ _).
Qed.

(** What DefiLlama answers with an HTTP error is remembered as "no data"
    for ten minutes: a second call, made less than ten minutes after that
    answer was stored, returns [null] again without a request.  A request
    that does not complete (a network failure, a timeout) is not
    remembered: the cache stays empty. *)
Theorem volumes_http_error_is_remembered st :
  volumeCache (fst st) = None ->
  let first := fetchDefiLlamaVolumes st in
  let second := fetchDefiLlamaVolumes (snd first) in
  let stored := clock (oracle (snd st)) (S (reads (snd st))) in
  let asked_again := clock (oracle (snd st)) (S (S (reads (snd st)))) in
  (forall resp,
     network (oracle (snd st)) (requests (snd st)) (volumes_url (fst st))
     = Responds resp ->
     ok resp = false ->
     asked_again - stored < VOLUME_CACHE_TTL ->
     fst first = Ok None /\ fst second = Ok None /\
     count_fetches (trace (snd (snd second)))
     = S (count_fetches (trace (snd st)))) /\
  (forall e,
     network (oracle (snd st)) (requests (snd st)) (volumes_url (fst st))
     = Rejects e ->
     fst first = Ok None /\ volumeCache (fst (snd first)) = None).
Proof.
  intros Hcache first second stored asked_again.
  destruct st as [svc w]. simpl in Hcache, stored, asked_again.
  assert (Hfirst : first = try_catch (request_volumes (volumes_url svc))
                             (fun _ => ret None) (svc, w)).
  { subst first. unfold fetchDefiLlamaVolumes, bind at 1, this. simpl.
    now rewrite Hcache. }
  pose proof (limiter_acquire_world (rateLimiter svc) w) as (Ho & Hr & Hc).
  pose proof (limiter_acquire_reads (rateLimiter svc) w) as Hreads.
  unfold try_catch, request_volumes, bind at 1, acquire in Hfirst.
  simpl in Hfirst.
  destruct (RateLimiter.acquire (rateLimiter svc) w) as [rl w1].
  simpl in Ho, Hr, Hc, Hreads, Hfirst.
  unfold bind at 1, in_world, fetch in Hfirst. simpl in Hfirst.
  rewrite Ho, Hr in Hfirst. simpl.
  split.
  - intros resp Hresp Hok Hclock. rewrite Hresp in Hfirst. simpl in Hfirst.
    rewrite Hok in Hfirst. simpl in Hfirst.
    unfold bind, set_volumeCache, now, in_world, lift, ret in Hfirst.
    simpl in Hfirst. rewrite Hreads in Hfirst.
    subst second. rewrite Hfirst. simpl. split; [reflexivity|].
    unfold fetchDefiLlamaVolumes, bind at 1, this. simpl.
    unfold bind, now, in_world, lift, ret. simpl.
    fold stored asked_again.
    destruct (Z.ltb_spec (asked_again - stored) VOLUME_CACHE_TTL); [|lia].
    simpl. split; [reflexivity|].
    rewrite count_fetches_app, Hc. unfold count_fetches. simpl. lia.
  - intros e Hresp. rewrite Hresp in Hfirst. simpl in Hfirst.
    unfold ret in Hfirst. rewrite Hfirst. simpl. split; [reflexivity|assumption].
Qed.

End VolumeFacts.

Definition volumes_of (daily weekly monthly : Z) : Response Json :=
  {| status := 200; statusText := "OK";
     headers := {| retry_after := None;
                   content_type := Some "application/json"%string |};
     body := JsonBody (JVolumes
       {| raw_lastDailyVolume := Some (Number.of_Z daily);
          raw_weeklyVolume := Some (Number.of_Z weekly);
          raw_monthlyVolume := Some (Number.of_Z monthly) |}) |}.

(** A run of [getVolumes_one_entry_per_window]: three windows asked for,
    three entries returned in that order. *)
Lemma getVolumes_one_entry_per_window_witness :
  exists volumes st',
    DataProviderService.getVolumes [W7d; W24h; W30d]
      (service_against (volumes_of 5 30 100)) = (Ok volumes, st') /\
    map volumeUsd volumes
    = [Number.of_Z 30; Number.of_Z 5; Number.of_Z 100].
Proof.
  destruct (getVolumes_one_entry_per_window [W7d; W24h; W30d]
              (service_against (volumes_of 5 30 100)))
    as (volumes & st' & Hrun & _).
  exists volumes, st'. split; [exact Hrun|].
  assert (Hvalue : fst (DataProviderService.getVolumes [W7d; W24h; W30d]
                          (service_against (volumes_of 5 30 100)))
                   = Ok volumes) by now rewrite Hrun.
  vm_compute in Hvalue. injection Hvalue as <-. reflexivity.
Defined.

(** A run of [volumes_http_error_is_remembered]: HTTP 500 from DefiLlama,
    two calls, one request. *)
Lemma volumes_http_error_is_remembered_witness :
  let st := service_against internal_server_error in
  let first := DataProviderService.fetchDefiLlamaVolumes st in
  let second := DataProviderService.fetchDefiLlamaVolumes (snd first) in
  fst second = Ok None /\ count_fetches (trace (snd (snd second))) = 1%nat.
Proof.
  intros st first second.
  destruct (volumes_http_error_is_remembered st eq_refl) as [Herror _].
  destruct (Herror internal_server_error) as (_ & Hsecond & Hcount).
  - reflexivity.
  - reflexivity.
  - reflexivity.
  - split; [exact Hsecond|exact Hcount].
Defined.

(** ** [DataProviderService]: rates and liquidity *)

Section RateFacts.
Import DataProviderService.

Definition valid_notional (notional : string) : bool :=
  negb (invalid_notional notional).

Lemma rates_of_route_valid route notionals : forall rates st,
  rates_of_route route notionals rates st
  = rates_of_route route (filter valid_notional notionals) rates st.
Proof.
  induction notionals as [|notional rest IH]; intros rates st;
    [reflexivity|].
  cbn [rates_of_route filter]. unfold valid_notional at 1.
  destruct (invalid_notional notional) eqn:Einvalid; cbn [negb].
  - apply IH.
  - cbn [rates_of_route]. rewrite Einvalid. unfold bind at 1 3.
    destruct (try_catch _ _ st) as [[rates'|e] st1]; [apply IH|reflexivity].
Qed.

Lemma rates_of_routes_valid routes notionals : forall rates st,
  rates_of_routes routes notionals rates st
  = rates_of_routes routes (filter valid_notional notionals) rates st.
Proof.
  induction routes as [|route rest IH]; intros rates st; [reflexivity|].
  cbn [rates_of_routes]. unfold bind at 1 2.
  rewrite rates_of_route_valid.
  destruct (rates_of_route route _ rates st) as [[rates'|e] st1];
    [apply IH|reflexivity].
Qed.

Lemma rates_of_routes_no_notional routes : forall rates st,
  rates_of_routes routes [] rates st = (Ok rates, st).
Proof.
  induction routes as [|route rest IH]; intros rates st; [reflexivity|].
  cbn [rates_of_routes rates_of_route]. unfold bind, ret. apply IH.
Qed.

(** Notionals that are empty or not numbers are passed over by
    [getRates]: the call does what it does for the other notionals alone,
    and when there is no other it returns no rate and touches nothing. *)
Theorem getRates_passes_over_invalid_notionals routes notionals st :
  routes <> [] -> notionals <> [] ->
  getRates routes notionals st =
  match filter valid_notional notionals with
  | [] => (Ok [], st)
  | valid => getRates routes valid st
  end.
Proof.
  intros Hroutes Hnotionals. unfold getRates.
  destruct routes as [|route routes]; [contradiction|].
  destruct notionals as [|notional notionals]; [contradiction|].
  rewrite rates_of_routes_valid.
  destruct (filter valid_notional (notional :: notionals)) as [|v valid] eqn:Ef.
  - apply rates_of_routes_no_notional.
  - rewrite <- Ef at 1. rewrite Ef. reflexivity.
Qed.

(** When the quote's [maxTheoreticalAmount] is at least its recommended
    amount, the 100 bps amount that [getLiquidityDepth] computes is at
    least its 50 bps amount, the source amount. *)
Theorem liquidity_thresholds_ordered srcAmount recommendedDest maxDest s r m :
  BigInt_of_string srcAmount = Some s ->
  BigInt_of_string recommendedDest = Some r ->
  BigInt_of_string maxDest = Some m ->
  maxDest <> ""%string -> 0 <= s -> 0 < r -> r <= m ->
  exists scaled,
    BigInt_of_string (max_source srcAmount recommendedDest (Some maxDest))
    = Some scaled /\
    s <= scaled.
Proof.
  intros Hs Hr Hm Hne Hs0 Hr0 Hrm.
  rewrite (max_source_scaled _ _ _ s r m Hs Hr Hm Hne Hr0).
  exists (Z.quot (s * m) r). split; [apply BigInt_of_string_of_Z|].
  now apply (scaled_amount_order s r m Hr0).
Qed.

End RateFacts.

(** A run of [getRates_passes_over_invalid_notionals]: notionals that are
    not numbers, no request. *)
Lemma getRates_passes_over_invalid_notionals_witness :
  let st := service_against internal_server_error in
  DataProviderService.getRates [mockRoute] [""%string; "abc"%string] st
  = (Ok [], st).
Proof.
  intros st.
  rewrite (getRates_passes_over_invalid_notionals [mockRoute]
             [""%string; "abc"%string] st); [reflexivity| |]; discriminate.
Defined.

(** Which notionals [getRates] takes for numbers: [Number(notional)] drops
    white space around the string and reads the prefixed notations. *)
Example notionals_that_are_numbers :
  map DataProviderService.invalid_notional
    ["1000000"; " 12 "; "0x10"; "1e6"; "Infinity"; "1_000"; "abc"; ""; "12px"]%string
  = [false; false; false; false; false; true; true; true; true].
Proof. vm_compute. reflexivity. Qed.

(** A run of [liquidity_thresholds_ordered]. *)
Lemma liquidity_thresholds_ordered_witness :
  exists scaled,
    BigInt_of_string
      (DataProviderService.max_source "1000000000" "999000000"
         (Some "1998000000"%string)) = Some scaled /\
    1000000000 <= scaled.
Proof.
  apply (liquidity_thresholds_ordered "1000000000" "999000000" "1998000000"
           1000000000 999000000 1998000000); try reflexivity; try lia.
  discriminate.
Defined.

(** A run of [getLiquidityDepth_two_thresholds]. *)
Lemma getLiquidityDepth_two_thresholds_witness :
  exists result st',
    DataProviderService.getLiquidityDepth [mockRoute]
      (service_against
         (quote_response (quote_of "1000000000" "999000000" None None)))
    = (Ok result, st') /\
    Forall (fun d => map slippageBps (thresholds d) = [50; 100]) result /\
    List.length result = 1%nat.
Proof.
  destruct (getLiquidityDepth_total [mockRoute]
              (service_against
                 (quote_response (quote_of "1000000000" "999000000" None None))))
    as (result & st' & Hrun).
  exists result, st'. split; [exact Hrun|]. split.
  - exact (getLiquidityDepth_two_thresholds _ _ _ _ Hrun).
  - assert (Hvalue : fst (DataProviderService.getLiquidityDepth [mockRoute]
        (service_against
           (quote_response (quote_of "1000000000" "999000000" None None))))
        = Ok result) by now rewrite Hrun.
    vm_compute in Hvalue. injection Hvalue as <-. reflexivity.
Defined.

(** A run of [fetchWithRetry_exhausts_budget]: HTTP 404 every time. *)
Lemma fetchWithRetry_exhausts_budget_witness :
  let url := "https://dln.debridge.finance/v1.0/token-list"%string in
  let run := HttpUtils.fetchWithRetry url (Some 2) (Some 1000%Q)
               (initial_world (constant_server not_found)) in
  (exists e, fst run = Throw (Err ("Request failed after 3 attempts: "
                                   ++ message e))) /\
  count_fetches (trace (snd run)) = 3%nat.
Proof.
  intros url run.
  destruct run as [r w1] eqn:Erun.
  apply (fetchWithRetry_exhausts_budget url 2 1000
           (initial_world (constant_server not_found)) r w1);
    try reflexivity; try lia; try lra; try exact Erun.
  intros n. reflexivity.
Defined.

(** ** [DataProviderService]: listed assets *)

Section AssetFacts.
Import DataProviderService.
Local Open Scope string_scope.

(** The key under which [getListedAssets] remembers an asset: its chain
    and its address in lower case. *)
Definition asset_key (a : Asset) : string :=
  chainId a ++ ":" ++ toLowerCase (assetId a).

(** The token lists cached for a chain are lists of assets of that chain. *)
Definition cache_by_chain (cache : JSMap.t string TokenListEntry) : Prop :=
  forall chain entry,
    JSMap.get chain cache = Some entry ->
    Forall (fun a => chainId a = chain) (token_assets entry).

(** The keys seen are those of the assets collected, without repetition. *)
Definition collected_ok (acc : Collected) : Prop :=
  map asset_key (collected_assets acc) = rev (collected_seen acc) /\
  NoDup (collected_seen acc).

Lemma lower_char_idem c : lower_char (lower_char c) = lower_char c.
Proof.
  destruct c as [[|] [|] [|] [|] [|] [|] [|] [|]]; reflexivity.
Qed.

Lemma toLowerCase_idem s : toLowerCase (toLowerCase s) = toLowerCase s.
Proof.
  induction s as [|c s IH]; simpl; [reflexivity|].
  now rewrite lower_char_idem, IH.
Qed.

Lemma mem_false x xs : mem x xs = false -> ~ In x xs.
Proof.
  unfold mem. intros Hmem Hin.
  assert (Htrue : existsb (String.eqb x) xs = true).
  { apply existsb_exists. exists x. split; [assumption|apply String.eqb_refl]. }
  congruence.
Qed.

Lemma collected_ok_push acc (asset : Asset) key :
  collected_ok acc -> asset_key asset = key ->
  mem key (collected_seen acc) = false ->
  collected_ok
    {| collected_assets := collected_assets acc ++ [asset];
       collected_seen := key :: collected_seen acc |}.
Proof.
  intros [Hmap Hnd] Hkey Hmem. split; simpl.
  - rewrite map_app, Hmap. simpl. now rewrite Hkey.
  - constructor; [now apply mem_false|assumption].
Qed.

Lemma collect_cached_ok chain tokens : forall acc,
  Forall (fun a => chainId a = chain) tokens ->
  collected_ok acc ->
  collected_ok (collect_cached chain tokens acc).
Proof.
  induction tokens as [|token tokens IH]; intros acc Hall Hok; simpl;
    [assumption|].
  inversion Hall as [|? ? Hchain Hrest]; subst.
  destruct (mem _ (collected_seen acc)) eqn:Hmem; [now apply IH|].
  apply IH; [assumption|].
  apply collected_ok_push; [assumption|reflexivity|assumption].
Qed.

Lemma collect_fetched_ok chain tokens : forall chainAssets acc,
  Forall (fun a => chainId a = chain) chainAssets ->
  collected_ok acc ->
  Forall (fun a => chainId a = chain)
    (fst (collect_fetched chain tokens chainAssets acc)) /\
  collected_ok (snd (collect_fetched chain tokens chainAssets acc)).
Proof.
  induction tokens as [|token tokens IH]; intros chainAssets acc Hall Hok;
    simpl; [now split|].
  destruct (token_address token) as [address|]; [|now apply IH].
  destruct (negb (truthy address)); [now apply IH|].
  destruct (mem _ (collected_seen acc)) eqn:Hmem; [now apply IH|].
  apply IH.
  - apply Forall_app. split; [assumption|]. now repeat constructor.
  - apply collected_ok_push; [assumption| |assumption].
    unfold asset_key. simpl. now rewrite toLowerCase_idem.
Qed.

Lemma cache_by_chain_set chain entry cache :
  cache_by_chain cache ->
  Forall (fun a => chainId a = chain) (token_assets entry) ->
  cache_by_chain (JSMap.set chain entry cache).
Proof.
  intros Hcache Hentry c e. destruct (String.eqb c chain) eqn:E.
  - apply String.eqb_eq in E. subst c. rewrite get_set_same.
    now intros [= <-].
  - apply String.eqb_neq in E. rewrite get_set_other by assumption.
    apply Hcache.
Qed.

(** The URLs requested, in the order of the requests. *)
Definition fetched_urls (tr : list Event) : list string :=
  flat_map (fun e => match e with Fetched url => [url] | Slept _ => [] end) tr.

(** The URL that [getListedAssets] requests for a chain. *)
Definition token_list_url (svc : DataProviderService.t) (chain : string)
  : string :=
  dlnApiBase svc ++ "/token-list?chainId=" ++ encodeURIComponent chain.

Lemma fetched_urls_app tr1 tr2 :
  fetched_urls (tr1 ++ tr2) = (fetched_urls tr1 ++ fetched_urls tr2)%list.
Proof. apply flat_map_app. Qed.

Lemma limiter_acquire_urls rl (w : World Json) :
  fetched_urls (trace (snd (RateLimiter.acquire rl w))) = fetched_urls (trace w).
Proof.
  unfold RateLimiter.acquire, RateLimiter.refill.
  cbn [Date_now Clock_World RateLimiter.tokens].
  destruct (Number.leb _ _); cbn [snd sleep trace]; [reflexivity|].
  rewrite fetched_urls_app. simpl. apply app_nil_r.
Qed.

Lemma token_list_url_base svc svc' :
  dlnApiBase svc' = dlnApiBase svc ->
  map (token_list_url svc') = map (token_list_url svc).
Proof. intros Hbase. unfold token_list_url. now rewrite Hbase. Qed.

(** What a request for the token list of a chain leaves behind, however
    it ends: one request, for the URL of the chain. *)
Lemma request_token_list_spec chain acc st r st' :
  request_token_list chain acc st = (r, st') ->
  fetched_urls (trace (snd st'))
  = (fetched_urls (trace (snd st)) ++ [token_list_url (fst st) chain])%list /\
  dlnApiBase (fst st') = dlnApiBase (fst st) /\
  (cache_by_chain (tokenListCache (fst st)) -> collected_ok acc ->
   cache_by_chain (tokenListCache (fst st')) /\
   match r with
   | Ok acc' => collected_ok acc'
   | Throw _ => True
   end).
Proof.
  intros Hrun. destruct st as [svc w].
  unfold request_token_list, bind at 1, acquire in Hrun. simpl in Hrun.
  pose proof (limiter_acquire_urls (rateLimiter svc) w) as Hurls.
  destruct (RateLimiter.acquire (rateLimiter svc) w) as [rl w1]. simpl in *.
  unfold bind at 1, this in Hrun. simpl in Hrun.
  unfold bind at 1, in_world, fetch in Hrun. simpl in Hrun.
  fold (token_list_url svc chain) in Hrun.
  assert (Hfetched : fetched_urls (trace w1 ++ [Fetched (token_list_url svc chain)])
                     = (fetched_urls (trace w) ++ [token_list_url svc chain])%list).
  { rewrite fetched_urls_app, Hurls. reflexivity. }
  assert (Hsame : forall out, (out, (with_rateLimiter svc rl,
              {| oracle := oracle w1; reads := reads w1;
                 requests := S (requests w1); draws := draws w1;
                 trace := trace w1 ++ [Fetched (token_list_url svc chain)] |}))
            = (r, st') ->
            (collected_ok acc ->
             match out with Ok acc' => collected_ok acc' | Throw _ => True end) ->
            fetched_urls (trace (snd st'))
            = (fetched_urls (trace w) ++ [token_list_url svc chain])%list /\
            dlnApiBase (fst st') = dlnApiBase svc /\
            (cache_by_chain (tokenListCache svc) -> collected_ok acc ->
             cache_by_chain (tokenListCache (fst st')) /\
             match r with Ok acc' => collected_ok acc' | Throw _ => True end)).
  { intros out [= <- <-] Hout. simpl. split; [assumption|].
    split; [reflexivity|].
    intros Hcache Hok. split; [assumption|now apply Hout]. }
  destruct (network (oracle w1) (requests w1) _) as [resp|e];
    simpl in Hrun; [|now apply (Hsame _ Hrun)].
  destruct (ok resp); simpl in Hrun;
    [|unfold ret in Hrun; now apply (Hsame _ Hrun)].
  unfold bind at 1, json in Hrun.
  destruct (body resp) as [payload|reason]; simpl in Hrun;
    [|now apply (Hsame _ Hrun)].
  destruct payload as [q|[tokens|]|raw|]; unfold ret in Hrun; simpl in Hrun;
    try (now apply (Hsame _ Hrun)).
  pose proof (collect_fetched_ok chain tokens [] acc (Forall_nil _))
    as Hcollected.
  destruct (collect_fetched chain tokens [] acc) as [chainAssets acc'].
  simpl in Hcollected.
  unfold bind, now, in_world, lift in Hrun. simpl in Hrun.
  injection Hrun as <- <-. simpl.
  split; [assumption|]. split; [reflexivity|]. intros Hcache Hok.
  destruct (Hcollected Hok) as [Hchain Hok'].
  split; [|assumption].
  now apply cache_by_chain_set.
Qed.

(** The loop over the chains always comes to an end with a list.  Its
    requests are those for some of the chains, each at the place of the
    chain in the list, and it keeps the keys seen and the cache in step
    with the assets. *)
Lemma assets_of_chains_spec chainIds : forall acc st,
  exists acc' st' requested,
    assets_of_chains chainIds acc st = (Ok acc', st') /\
    fetched_urls (trace (snd st'))
    = (fetched_urls (trace (snd st))
       ++ map (token_list_url (fst st)) requested)%list /\
    dlnApiBase (fst st') = dlnApiBase (fst st) /\
    incl requested chainIds /\
    (NoDup chainIds -> NoDup requested) /\
    (cache_by_chain (tokenListCache (fst st)) -> collected_ok acc ->
     cache_by_chain (tokenListCache (fst st')) /\ collected_ok acc').
Proof.
  induction chainIds as [|chain rest IH]; intros acc st.
  - exists acc, st, []. simpl. unfold ret. split; [reflexivity|].
    split; [now rewrite app_nil_r|]. split; [reflexivity|].
    split; [apply incl_refl|]. split; [trivial|tauto].
  - cbn [assets_of_chains].
    assert (Hskip : forall acc0 st0,
      fetched_urls (trace (snd st0)) = fetched_urls (trace (snd st)) ->
      dlnApiBase (fst st0) = dlnApiBase (fst st) ->
      (cache_by_chain (tokenListCache (fst st)) -> collected_ok acc ->
       cache_by_chain (tokenListCache (fst st0)) /\ collected_ok acc0) ->
      exists acc' st' requested,
        assets_of_chains rest acc0 st0 = (Ok acc', st') /\
        fetched_urls (trace (snd st'))
        = (fetched_urls (trace (snd st))
           ++ map (token_list_url (fst st)) requested)%list /\
        dlnApiBase (fst st') = dlnApiBase (fst st) /\
        incl requested (chain :: rest) /\
        (NoDup (chain :: rest) -> NoDup requested) /\
        (cache_by_chain (tokenListCache (fst st)) -> collected_ok acc ->
         cache_by_chain (tokenListCache (fst st')) /\ collected_ok acc')).
    { intros acc0 st0 Hurls Hbase Hinv0.
      destruct (IH acc0 st0)
        as (acc' & st' & requested & Hrun & Hu & Hb & Hincl & Hnd & Hinv).
      exists acc', st', requested. split; [assumption|].
      split; [now rewrite Hu, Hurls, (token_list_url_base _ _ Hbase)|].
      split; [congruence|]. split; [now apply incl_tl|].
      split; [intros Hnd0; apply Hnd; now inversion Hnd0|].
      intros Hcache Hok. apply Hinv; now apply Hinv0. }
    destruct (negb (truthy chain)).
    { apply Hskip; [reflexivity|reflexivity|tauto]. }
    unfold bind at 1, this. simpl.
    assert (Hrequest : forall st0,
      fetched_urls (trace (snd st0)) = fetched_urls (trace (snd st)) ->
      dlnApiBase (fst st0) = dlnApiBase (fst st) ->
      tokenListCache (fst st0) = tokenListCache (fst st) ->
      exists acc' st' requested,
        bind (try_catch (request_token_list chain acc) (fun _ => ret acc))
          (fun acc1 => assets_of_chains rest acc1) st0 = (Ok acc', st') /\
        fetched_urls (trace (snd st'))
        = (fetched_urls (trace (snd st))
           ++ map (token_list_url (fst st)) requested)%list /\
        dlnApiBase (fst st') = dlnApiBase (fst st) /\
        incl requested (chain :: rest) /\
        (NoDup (chain :: rest) -> NoDup requested) /\
        (cache_by_chain (tokenListCache (fst st)) -> collected_ok acc ->
         cache_by_chain (tokenListCache (fst st')) /\ collected_ok acc')).
    { intros st0 Hurls0 Hbase0 Hcache0. unfold bind at 1, try_catch.
      destruct (request_token_list chain acc st0) as [r st1] eqn:Erequest.
      destruct (request_token_list_spec chain acc st0 r st1 Erequest)
        as (Hurls1 & Hbase1 & Hinv1).
      rewrite Hcache0 in Hinv1.
      assert (Hnext : forall acc1,
        (cache_by_chain (tokenListCache (fst st)) -> collected_ok acc ->
         cache_by_chain (tokenListCache (fst st1)) /\ collected_ok acc1) ->
        exists acc' st' requested,
          assets_of_chains rest acc1 st1 = (Ok acc', st') /\
          fetched_urls (trace (snd st'))
          = (fetched_urls (trace (snd st))
             ++ map (token_list_url (fst st)) requested)%list /\
          dlnApiBase (fst st') = dlnApiBase (fst st) /\
          incl requested (chain :: rest) /\
          (NoDup (chain :: rest) -> NoDup requested) /\
          (cache_by_chain (tokenListCache (fst st)) -> collected_ok acc ->
           cache_by_chain (tokenListCache (fst st')) /\ collected_ok acc')).
      { intros acc1 Hinv0.
        destruct (IH acc1 st1)
          as (acc' & st' & requested & Hrun & Hu & Hb & Hincl & Hnd & Hinv).
        exists acc', st', (chain :: requested). split; [assumption|].
        split.
        { rewrite Hu, Hurls1, Hurls0.
          rewrite (token_list_url_base (fst st) (fst st1)) by congruence.
          assert (Hurl : token_list_url (fst st0) chain
                         = token_list_url (fst st) chain)
            by (unfold token_list_url; now rewrite Hbase0).
          rewrite Hurl. now rewrite <- app_assoc. }
        split; [congruence|].
        split; [intros x [<-|Hx]; [now left|right; now apply Hincl]|].
        split.
        { intros Hnd0. inversion Hnd0 as [|? ? Hnotin Hrest]; subst.
          constructor; [|now apply Hnd].
          intros Hin. apply Hnotin. now apply Hincl. }
        intros Hcache Hok. apply Hinv; now apply Hinv0. }
      destruct r as [acc1|e].
      - apply Hnext. intros Hcache Hok. now apply Hinv1.
      - unfold ret. apply Hnext. intros Hcache Hok.
        split; [now apply Hinv1|assumption]. }
    destruct (JSMap.get chain (tokenListCache (fst st))) as [cached|] eqn:Eget.
    + unfold bind at 1, now, in_world, lift.
      destruct (Date_now (snd st)) as [t w1] eqn:Enow. simpl.
      assert (Htrace : trace w1 = trace (snd st)).
      { unfold Date_now, Clock_World in Enow. now injection Enow as <- <-. }
      destruct (t - token_fetchedAt cached <? TOKEN_LIST_TTL)%Z.
      * apply Hskip; [simpl; now rewrite Htrace|reflexivity|].
        intros Hcache Hok. split; [exact Hcache|].
        apply collect_cached_ok; [now apply (Hcache chain)|assumption].
      * apply Hrequest; [simpl; now rewrite Htrace|reflexivity|reflexivity].
    + destruct st as [svc w]. apply Hrequest; reflexivity.
Qed.

Lemma mem_true x xs : mem x xs = true -> In x xs.
Proof.
  unfold mem. intros Hmem. apply existsb_exists in Hmem.
  destruct Hmem as (y & Hin & Heq). apply String.eqb_eq in Heq. now subst.
Qed.

(** [new Set(values)] holds each value once. *)
Lemma distinct_spec xs : forall seen,
  NoDup (distinct xs seen) /\
  forall x, In x (distinct xs seen) -> In x xs /\ ~ In x seen.
Proof.
  induction xs as [|x xs IH]; intros seen; simpl.
  - split; [constructor|contradiction].
  - destruct (mem x seen) eqn:Hmem.
    + destruct (IH seen) as [Hnd Hin]. split; [assumption|].
      intros y Hy. destruct (Hin y Hy). auto.
    + destruct (IH (x :: seen)) as [Hnd Hin]. split.
      * constructor; [|assumption].
        intros Hx. destruct (Hin x Hx) as [_ Hnot]. apply Hnot. now left.
      * intros y [<-|Hy].
        -- split; [now left|now apply mem_false].
        -- destruct (Hin y Hy) as [Hyin Hynot]. split; [now right|].
           intros Hseen. apply Hynot. now right.
Qed.

Lemma getListedAssets_spec routes st :
  exists listed st' chains,
    getListedAssets routes st = (Ok listed, st') /\
    fetched_urls (trace (snd st'))
    = (fetched_urls (trace (snd st))
       ++ map (token_list_url (fst st)) chains)%list /\
    NoDup chains /\
    incl chains
      (flat_map (fun route => [chainId (source route);
                               chainId (destination route)]) routes) /\
    (cache_by_chain (tokenListCache (fst st)) ->
     NoDup (map asset_key (assets listed)) /\
     cache_by_chain (tokenListCache (fst st'))).
Proof.
  unfold getListedAssets, bind at 1, now, in_world, lift.
  destruct (Date_now (snd st)) as [t w1] eqn:Enow. simpl.
  assert (Htrace : trace w1 = trace (snd st)).
  { unfold Date_now, Clock_World in Enow. now injection Enow as <- <-. }
  unfold bind at 1.
  set (named := flat_map _ routes).
  destruct (distinct_spec named []) as [Hdistinct Hnamed].
  set (chainIds := distinct named []) in *.
  destruct (assets_of_chains_spec chainIds
              {| collected_assets := []; collected_seen := [] |} (fst st, w1))
    as (acc & st' & chains & Hrun & Hurls & _ & Hincl & Hnd & Hinv).
  rewrite Hrun. unfold ret.
  exists {| assets := collected_assets acc; assets_measuredAt := t |},
         st', chains.
  split; [reflexivity|]. simpl in Hurls. rewrite Htrace in Hurls.
  split; [exact Hurls|]. split; [now apply Hnd|].
  split; [intros x Hx; now apply (Hnamed x), Hincl|].
  intros Hcache. destruct Hinv as [Hcache' [Hmap Hseen]].
  - exact Hcache.
  - split; [reflexivity|constructor].
  - simpl. split; [rewrite Hmap; now apply NoDup_rev|assumption].
Qed.

(** The list of assets that [getListedAssets] returns never holds two
    assets with the same chain and the same address, letter case set
    aside, whether they come from the cache or from the network; and
    the cache is left fit for the next call. *)
Theorem getListedAssets_no_duplicates routes st :
  cache_by_chain (tokenListCache (fst st)) ->
  exists listed st',
    getListedAssets routes st = (Ok listed, st') /\
    NoDup (map asset_key (assets listed)) /\
    cache_by_chain (tokenListCache (fst st')).
Proof.
  intros Hcache.
  destruct (getListedAssets_spec routes st)
    as (listed & st' & chains & Hrun & _ & _ & _ & Hinv).
  exists listed, st'. split; [assumption|]. now apply Hinv.
Qed.

(** [getListedAssets] never fails, and asks for the token list of a
    chain at most once in a call: its requests are, in their order, those
    for the token lists of chains that are all different, each the source
    or the destination chain of a route; so they are no more than two for
    each route. *)
Theorem getListedAssets_one_request_per_chain routes st :
  exists listed st' chains,
    getListedAssets routes st = (Ok listed, st') /\
    fetched_urls (trace (snd st'))
    = (fetched_urls (trace (snd st))
       ++ map (token_list_url (fst st)) chains)%list /\
    NoDup chains /\
    (forall chain, In chain chains ->
       exists route, In route routes /\
         (chainId (source route) = chain \/
          chainId (destination route) = chain)) /\
    (List.length chains <= 2 * List.length routes)%nat.
Proof.
  destruct (getListedAssets_spec routes st)
    as (listed & st' & chains & Hrun & Hurls & Hnd & Hincl & _).
  exists listed, st', chains. split; [assumption|].
  split; [assumption|]. split; [assumption|]. split.
  - intros chain Hin. apply Hincl, in_flat_map in Hin.
    destruct Hin as (route & Hroute & [<-|[<-|[]]]); exists route; auto.
  - pose proof (NoDup_incl_length Hnd Hincl) as Hlen.
    assert (Hflat : List.length
              (flat_map (fun route => [chainId (source route);
                                       chainId (destination route)]) routes)
            = (2 * List.length routes)%nat).
    { clear. induction routes as [|r routes IH]; simpl; [reflexivity|]. lia. }
    lia.
Qed.

End AssetFacts.

(** A token list that names one token twice, in two spellings. *)
Definition mixed_case_tokens : Response Json :=
  {| status := 200; statusText := "OK";
     headers := {| retry_after := None;
                   content_type := Some "application/json"%string |};
     body := JsonBody (JTokenList (Some
       [ {| token_address := Some "0xA0b8"%string;
            token_symbol := Some "USDC"%string;
            token_decimals := Some 6 |};
         {| token_address := Some "0xa0b8"%string;
            token_symbol := Some "USDC"%string;
            token_decimals := Some 6 |} ])) |}.

Lemma getListedAssets_no_duplicates_witness :
  let st := service_against mixed_case_tokens in
  let routes := [mockRoute] in
  cache_by_chain (DataProviderService.tokenListCache (fst st)) /\
  exists listed st',
    DataProviderService.getListedAssets routes st = (Ok listed, st') /\
    NoDup (map asset_key (assets listed)) /\
    cache_by_chain (DataProviderService.tokenListCache (fst st')).
Proof.
  intros st routes.
  assert (Hcache : cache_by_chain (DataProviderService.tokenListCache (fst st))).
  { intros chain entry Hget. simpl in Hget. discriminate. }
  split; [exact Hcache|].
  exact (getListedAssets_no_duplicates routes st Hcache).
Defined.
